(** * dtvem: version resolution, manifest source memoisation, mirror job
      collection, settings loading and the Windows PATH installer

    A shallow embedding of the Go sources of dtvem.cli and the properties
    proved about them.  Go strings are byte sequences and are modelled by
    [string] (a list of 8-bit [ascii]); Go's [int] is the 64-bit signed
    integer, modelled by [Z] with the wrap-around written out ([wrap64]);
    slices are lists; a Go [(value, error)] pair is a [result]. *)

From Stdlib Require Import ZArith String Ascii List Lia Bool Permutation Sorted.
From stdpp Require Import base option list gmap strings.
Import ListNotations.

Set Default Proof Using "Type".

(** ** Go basics *)

(** A Go [(T, error)] return: exactly one of the two is meaningful. *)
Inductive result (E A : Type) : Type :=
| Ok (a : A)
| Err (e : E).
Arguments Ok {E A} a.
Arguments Err {E A} e.

Definition is_Ok {E A} (r : result E A) : bool :=
  match r with Ok _ => true | Err _ => false end.

(** Two's-complement wrap-around of a 64-bit signed integer. *)
Definition minInt64 : Z := - 2 ^ 63.
Definition maxInt64 : Z := 2 ^ 63 - 1.
Definition wrap64 (z : Z) : Z := ((z + 2 ^ 63) mod 2 ^ 64 - 2 ^ 63)%Z.
Definition inInt64 (z : Z) : Prop := (minInt64 <= z <= maxInt64)%Z.

(** ** Package [strings] (byte level)

    The functions below are the ones whose result depends only on ASCII
    separators; on those, working on bytes and working on UTF-8 code points
    agree, because no byte of a multi-byte UTF-8 sequence is an ASCII byte. *)
Module Strings.

(** [stripPrefix prefix s] is [Some rest] when [s = prefix ++ rest]. *)
Fixpoint stripPrefix (prefix s : string) : option string :=
  match prefix, s with
  | EmptyString, _ => Some s
  | String p prefix', String c s' =>
      if Ascii.eqb p c then stripPrefix prefix' s' else None
  | String _ _, EmptyString => None
  end.

Definition HasPrefix (s prefix : string) : bool :=
  match stripPrefix prefix s with Some _ => true | None => false end.

(** [strings.TrimPrefix(s, prefix)]: [s] without the leading [prefix], or
    [s] itself when it does not start with [prefix]. *)
Definition TrimPrefix (s prefix : string) : string :=
  match stripPrefix prefix s with Some rest => rest | None => s end.

(** [strings.Split(s, sep)] for a one-byte separator: the substrings
    between the separators, always at least one (the empty string splits
    into one empty substring). *)
Fixpoint Split (s : string) (sep : ascii) : list string :=
  match s with
  | EmptyString => [EmptyString]
  | String c s' =>
      if Ascii.eqb c sep then EmptyString :: Split s' sep
      else match Split s' sep with
           | h :: t => String c h :: t
           | [] => [String c EmptyString]
           end
  end.

(** [strings.Join(elems, sep)] for a one-byte separator. *)
Fixpoint Join (elems : list string) (sep : ascii) : string :=
  match elems with
  | [] => EmptyString
  | [e] => e
  | e :: rest => e +:+ String sep (Join rest sep)
  end.

(** [strings.FieldsFunc(s, f)]: the maximal runs of bytes not satisfying
    [f].  As in the library's scan, [cur] is the field being read
    ([None] plays the part of [start < 0]). *)
Fixpoint FieldsFunc_scan (f : ascii -> bool) (s : string) (cur : option string)
  : list string :=
  match s with
  | EmptyString => match cur with Some w => [w] | None => [] end
  | String c s' =>
      if f c then
        match cur with
        | Some w => w :: FieldsFunc_scan f s' None
        | None => FieldsFunc_scan f s' None
        end
      else
        FieldsFunc_scan f s'
          (Some (match cur with
                 | Some w => w +:+ String c EmptyString
                 | None => String c EmptyString
                 end))
  end.

Definition FieldsFunc (s : string) (f : ascii -> bool) : list string :=
  FieldsFunc_scan f s None.

(** Does the byte [c] occur in [s]? *)
Fixpoint ContainsByte (s : string) (c : ascii) : bool :=
  match s with
  | EmptyString => false
  | String x s' => Ascii.eqb x c || ContainsByte s' c
  end.

(** The first byte of a string, if any, is not [c]. *)
Definition startsNot (c : ascii) (s : string) : Prop :=
  match s with
  | String x _ => x <> c
  | EmptyString => True
  end.

End Strings.

(** ** Package [strconv] *)
Module Strconv.

Definition digitVal (c : ascii) : option Z :=
  let n := Z.of_nat (nat_of_ascii c) in
  if ((48 <=? n) && (n <=? 57))%Z then Some (n - 48)%Z else None.

(** Value of a string of decimal digits, most significant first. *)
Fixpoint parseDigits (s : string) (acc : Z) : option Z :=
  match s with
  | EmptyString => Some acc
  | String c s' =>
      match digitVal c with
      | Some d => parseDigits s' (acc * 10 + d)%Z
      | None => None
      end
  end.

(** [strconv.Atoi(s)]: an optional sign followed by one or more decimal
    digits, with a value that fits [int]; [None] stands for a non-nil
    error (syntax or range).  The callers use the number only when the
    error is nil. *)
Definition Atoi (s : string) : option Z :=
  match s with
  | EmptyString => None
  | String c rest =>
      let '(neg, body) :=
        if Ascii.eqb c "-" then (true, rest)
        else if Ascii.eqb c "+" then (false, rest)
        else (false, s) in
      match body with
      | EmptyString => None
      | _ =>
          match parseDigits body 0 with
          | Some n =>
              let v := if neg then (- n)%Z else n in
              if ((minInt64 <=? v) && (v <=? maxInt64))%Z then Some v else None
          | None => None
          end
      end
  end.

End Strconv.

(** ** Package [sort]

    [sort.Slice] is not stable and its algorithm is an implementation detail
    of the Go library (insertion sort up to 12 elements, pattern-defeating
    quicksort above).  Its contract is what the callers rely on: the result
    is a rearrangement of the slice and, when [less] is a strict weak order,
    no element is [less] than one placed before it. *)
Module Sort.

Record StrictWeakOrder {A : Type} (less : A -> A -> bool) : Prop := {
  swo_irrefl : forall x, less x x = false;
  swo_trans : forall x y z, less x y = true -> less y z = true -> less x z = true;
  swo_incomp : forall x y z, less x y = false -> less y z = false -> less x z = false
}.

Class Sorter : Type := {
  Slice : (string -> string -> bool) -> list string -> list string;
  Slice_perm : forall less l, Permutation (Slice less l) l;
  Slice_sorted : forall less l,
    StrictWeakOrder less ->
    StronglySorted (fun x y => less y x = false) (Slice less l)
}.

(** [insertionSortLessFunc] of the library: each element in turn is
    swapped leftwards while it is [less] than its left neighbour.
    [sortedRev] is the already sorted prefix, last element first. *)
Fixpoint sink {A} (less : A -> A -> bool) (x : A) (sortedRev : list A) : list A :=
  match sortedRev with
  | [] => [x]
  | y :: r => if less x y then y :: sink less x r else x :: y :: r
  end.

Definition insertionSort {A} (less : A -> A -> bool) (l : list A) : list A :=
  rev (fold_left (fun sortedRev x => sink less x sortedRev) l []).

End Sort.

(** ** Package [version]: resolving a partial version *)
Module Version.

(** The only error the resolver makes:
    [fmt.Errorf("no version matching %q found", input)]. *)
Inductive error : Type :=
| NoMatchingVersion (input : string).

(** The loop of [matchesPartial] over [partialParts], at index [i]. *)
Fixpoint matchesFrom (versionParts partialParts : list string) (i : nat) : bool :=
  match partialParts with
  | [] => true
  | partial :: rest =>
      match versionParts !! i with
      | None => false (* unreachable: guarded by the length test *)
      | Some vpart =>
          match Strconv.Atoi partial, Strconv.Atoi vpart with
          | Some partialNum, Some versionNum =>
              if (partialNum =? versionNum)%Z
              then matchesFrom versionParts rest (S i)
              else false
          | _, _ =>
              (* fall back to string comparison if not numeric *)
              if String.eqb partial vpart
              then matchesFrom versionParts rest (S i)
              else false
          end
      end
  end.

Definition matchesPartial (version : string) (partialParts : list string) : bool :=
  let version := Strings.TrimPrefix version "v" in
  let versionParts := Strings.Split version "." in
  if (length versionParts <? length partialParts)%nat then false
  else matchesFrom versionParts partialParts 0.

Definition isSeparator (c : ascii) : bool :=
  Ascii.eqb c "." || Ascii.eqb c "-".

(** [parseVersionParts]: the fields that parse as integers, in order;
    the others are dropped. *)
Definition parseVersionParts (version : string) : list Z :=
  let version := Strings.TrimPrefix version "v" in
  let parts := Strings.FieldsFunc version isSeparator in
  omap Strconv.Atoi parts.

(** The loop of [compareVersionStrings] at index [i], with [todo]
    iterations left; a missing component reads as the zero value. *)
Fixpoint compareFrom (aParts bParts : list Z) (i todo : nat) : Z :=
  match todo with
  | O => 0%Z
  | S todo' =>
      let aVal := nth i aParts 0%Z in
      let bVal := nth i bParts 0%Z in
      if (aVal =? bVal)%Z then compareFrom aParts bParts (S i) todo'
      else wrap64 (aVal - bVal)
  end.

Definition compareVersionStrings (a b : string) : Z :=
  let aParts := parseVersionParts a in
  let bParts := parseVersionParts b in
  let maxLen := Nat.max (length aParts) (length bParts) in
  compareFrom aParts bParts 0 maxLen.

(** The [less] closure given to [sort.Slice] by [sortVersionsDesc]. *)
Definition versionGreater (x y : string) : bool :=
  (0 <? compareVersionStrings x y)%Z.

Section WithSorter.
Context `{Sort.Sorter}.

Definition sortVersionsDesc (versions : list string) : list string :=
  Sort.Slice versionGreater versions.

Definition ResolvePartialVersion (input : string) (available : list string)
  : result error string :=
  let input := Strings.TrimPrefix input "v" in
  let inputParts := Strings.Split input "." in
  if (3 <=? length inputParts)%nat then Ok input
  else
    let matches := List.filter (fun v => matchesPartial v inputParts) available in
    match matches with
    | [] => Err (NoMatchingVersion input)
    | _ :: _ =>
        match sortVersionsDesc matches with
        | best :: _ => Ok best
        | [] => Err (NoMatchingVersion input) (* unreachable *)
        end
    end.
End WithSorter.

Definition IsPartialVersion (input : string) : bool :=
  let input := Strings.TrimPrefix input "v" in
  let parts := Strings.Split input "." in
  (length parts <? 3)%nat.

(** Notions used to state what the resolver computes. *)

(** The [j]-th numeric component of a version as the comparison reads it
    (0 when there is none). *)
Definition component (version : string) (j : nat) : Z :=
  nth j (parseVersionParts version) 0%Z.

(** Every number of the list is a non-negative [int]. *)
Definition inRange (l : list Z) : Prop :=
  List.Forall (fun z => (0 <= z <= maxInt64)%Z) l.

(** The leading [.]-separated components of [version] (its [v] stripped)
    are integers equal, one by one, to [nums]. *)
Definition leadingEqual (nums : list Z) (version : string) : Prop :=
  let versionParts := Strings.Split (Strings.TrimPrefix version "v") "." in
  forall i n, nums !! i = Some n ->
    exists vpart, versionParts !! i = Some vpart /\ Strconv.Atoi vpart = Some n.

End Version.

(** ** Package [manifest]: the memoised default source *)
Module Manifest.

(** A [Source] interface value: nil, or a pointer to a source object. *)
Definition Source : Type := option nat.

(** The source objects a process can hold. *)
Inductive SourceObj : Type :=
| HTTPSource (url : string)
| CachedSource (inner : Source) (cacheDir : string) (ttl : Z)
| EmbeddedSource
| FallbackSource (primary secondary : Source).

(** The part of the process state the package touches: the objects
    allocated so far (an address is an index) and the two package
    variables, [defaultSource] and the done flag of [defaultSourceOnce]. *)
Record Process : Type := {
  heap : list SourceObj;
  defaultSource : Source;
  defaultSourceOnce : bool
}.

(** A process at start-up: nothing allocated, [defaultSource] nil, the
    [sync.Once] not yet done. *)
Definition newProcess : Process :=
  {| heap := []; defaultSource := None; defaultSourceOnce := false |}.

(** Code running in the process. *)
Definition M (A : Type) : Type := Process -> A * Process.
Definition ret {A} (a : A) : M A := fun p => (a, p).
Definition bind {A B} (m : M A) (k : A -> M B) : M B :=
  fun p => let '(a, p') := m p in k a p'.
Notation "'let*' x := m 'in' k" := (bind m (fun x => k))
  (at level 10, x name, m at level 200, k at level 200).

Definition new (o : SourceObj) : M Source :=
  fun p => (Some (length (heap p)),
            {| heap := heap p ++ [o];
               defaultSource := defaultSource p;
               defaultSourceOnce := defaultSourceOnce p |}).

(** Modelled from the spec: [NewHTTPSource] is not among the sources; it
    builds the Remote source of an endpoint and returns a pointer to it. *)
Definition NewHTTPSource (url : string) : M Source := new (HTTPSource url).

(** Modelled from the spec: [NewCachedSource] is not among the sources; it
    builds a Cached source wrapping another source, with its cache
    directory and TTL, and returns a pointer to it. *)
Definition NewCachedSource (inner : Source) (cacheDir : string) (ttl : Z) : M Source :=
  new (CachedSource inner cacheDir ttl).

(** Modelled from the spec: [NewEmbeddedSource] is not among the sources;
    it builds the Embedded source and returns a pointer to it. *)
Definition NewEmbeddedSource : M Source := new EmbeddedSource.

(** Modelled from the spec: [NewFallbackSource] is not among the sources;
    it builds a Fallback source over a primary and a secondary source and
    returns a pointer to it. *)
Definition NewFallbackSource (primary secondary : Source) : M Source :=
  new (FallbackSource primary secondary).

(** The structure a source pointer stands for. *)
Inductive Chain : Type :=
| Remote (url : string)
| Cached (inner : Chain) (cacheDir : string) (ttl : Z)
| Embedded
| Fallback (primary secondary : Chain).

Fixpoint chainOf (fuel : nat) (h : list SourceObj) (s : Source) : option Chain :=
  match fuel with
  | O => None
  | S fuel' =>
      a ← s;
      o ← h !! a;
      match o with
      | HTTPSource url => Some (Remote url)
      | CachedSource inner dir ttl =>
          c ← chainOf fuel' h inner; Some (Cached c dir ttl)
      | EmbeddedSource => Some Embedded
      | FallbackSource primary secondary =>
          c1 ← chainOf fuel' h primary;
          c2 ← chainOf fuel' h secondary;
          Some (Fallback c1 c2)
      end
  end.

Section DefaultSource.
(** Constants and helpers declared elsewhere in the repository:
    [DefaultRemoteURL], [DefaultCacheTTL], the cache directory of
    [config.DefaultPaths()] and [filepath.Join]. *)
Variable DefaultRemoteURL : string.
Variable DefaultCacheTTL : Z.
Variable DefaultPaths_Cache : string.
Variable filepath_Join : string -> string -> string.

Definition createDefaultSource : M Source :=
  let cacheDir := filepath_Join DefaultPaths_Cache "manifests" in
  let* remote := NewHTTPSource DefaultRemoteURL in
  let* cached := NewCachedSource remote cacheDir DefaultCacheTTL in
  let* embedded := NewEmbeddedSource in
  NewFallbackSource cached embedded.

(** [defaultSourceOnce.Do(f)]: runs [f] unless an earlier [Do] completed,
    and marks the [Once] done. *)
Definition defaultSourceOnce_Do (f : M unit) : M unit :=
  fun p =>
    if defaultSourceOnce p then (tt, p)
    else
      let '(_, p') := f p in
      (tt, {| heap := heap p';
              defaultSource := defaultSource p';
              defaultSourceOnce := true |}).

Definition setDefaultSource (s : Source) : M unit :=
  fun p => (tt, {| heap := heap p;
                   defaultSource := s;
                   defaultSourceOnce := defaultSourceOnce p |}).

Definition DefaultSource : M Source :=
  let* _ := defaultSourceOnce_Do
              (let* s := createDefaultSource in setDefaultSource s) in
  fun p => (defaultSource p, p).

(** [ResetDefaultSource], the test helper: a fresh [Once], a nil source. *)
Definition ResetDefaultSource : M unit :=
  fun p => (tt, {| heap := heap p;
                   defaultSource := None;
                   defaultSourceOnce := false |}).

(** [n] calls of [DefaultSource] in a row, with what each returned. *)
Fixpoint DefaultSource_calls (n : nat) : M (list Source) :=
  match n with
  | O => ret []
  | S n' =>
      let* s := DefaultSource in
      let* rest := DefaultSource_calls n' in
      ret (s :: rest)
  end.

End DefaultSource.

End Manifest.

(** ** [scripts/mirror-binaries]: upstream fetching *)
Module Mirror.

(** [MirrorJob]: its declaration is not among the sources; the fields are
    those the sources fill in when they build a job. *)
Record MirrorJob : Type := {
  Runtime : string;
  Version : string;
  Platform : string;
  URL : string;
  UpstreamSHA256 : string;
  R2Key : string;
  MetaKey : string
}.

(** *** [httpGetWithRetry] *)

(** What one [httpClient.Get] gives: an error, or a response with its
    status code. *)
Inductive GetResult : Type :=
| GetError (err : string)
| Response (StatusCode : Z).

(** The world the function acts on: how many requests were sent, the
    durations slept (nanoseconds, in order) and the responses whose body
    was closed (by request number). *)
Record World : Type := {
  requests : nat;
  slept : list Z;
  closed : list nat
}.

Definition newWorld : World := {| requests := 0; slept := []; closed := [] |}.

(** [time.Second] in nanoseconds, the unit of [time.Duration]. *)
Definition Second : Z := 1000000000.

(** [time.Duration(attempt) * 2 * time.Second] in 64-bit arithmetic. *)
Definition backoff (attempt : Z) : Z := wrap64 (wrap64 (attempt * 2) * Second).

Definition Sleep (d : Z) (w : World) : World :=
  {| requests := requests w; slept := slept w ++ [d]; closed := closed w |}.

Definition Body_Close (w : World) : World :=
  {| requests := requests w; slept := slept w;
     closed := closed w ++ [requests w] |}.

(** The errors [httpGetWithRetry] keeps in [lastErr]: the one of
    [httpClient.Get], or [fmt.Errorf("HTTP %d", resp.StatusCode)]. *)
Inductive error : Type :=
| TransportError (err : string)
| HTTPStatus (StatusCode : Z).

Section Retry.
(** The network: the outcome of the [k]-th request (from 1) for a URL. *)
Variable network : string -> nat -> GetResult.

Definition httpClient_Get (url : string) (w : World) : GetResult * World :=
  let k := S (requests w) in
  (network url k, {| requests := k; slept := slept w; closed := closed w |}).

(** The loop of [httpGetWithRetry]; [None] when [fuel] runs out before the
    loop ends.  The pair returned is Go's response and error, nil being
    [None]; of a response only the status code is kept. *)
Fixpoint retryLoop (fuel : nat) (url : string) (maxRetries attempt : Z)
    (lastErr : option error) (w : World)
    : option ((option Z * option error) * World) :=
  if (attempt <=? maxRetries)%Z then
    match fuel with
    | O => None
    | S fuel' =>
        let '(r, w) := httpClient_Get url w in
        match r with
        | GetError err =>
            let lastErr := Some (TransportError err) in
            let w := if (attempt <? maxRetries)%Z then Sleep (backoff attempt) w else w in
            retryLoop fuel' url maxRetries (wrap64 (attempt + 1)) lastErr w
        | Response code =>
            if (500 <=? code)%Z then
              let w := Body_Close w in
              let lastErr := Some (HTTPStatus code) in
              let w := if (attempt <? maxRetries)%Z then Sleep (backoff attempt) w else w in
              retryLoop fuel' url maxRetries (wrap64 (attempt + 1)) lastErr w
            else Some ((Some code, None), w)
        end
    end
  else Some ((None, lastErr), w).

(** [httpGetWithRetry]: the loop from attempt 1.  The fuel is enough for
    every [maxRetries] below the largest [int]; at the largest one
    [attempt++] would wrap around and the loop of a network that always
    fails would not end. *)
Definition httpGetWithRetry (url : string) (maxRetries : Z) (w : World)
  : option ((option Z * option error) * World) :=
  retryLoop (Z.to_nat maxRetries) url maxRetries 1 None w.

(** A failure the function retries on. *)
Definition transient (r : GetResult) : bool :=
  match r with
  | GetError _ => true
  | Response code => (500 <=? code)%Z
  end.

(** The error kept in [lastErr] after a failed request. *)
Definition errorOf (r : GetResult) : error :=
  match r with
  | GetError err => TransportError err
  | Response code => HTTPStatus code
  end.

End Retry.

(** A network that fails twice, then answers 200. *)
Definition flakyNetwork (url : string) (k : nat) : GetResult :=
  match k with
  | 1 => GetError "connection reset"
  | 2 => Response 503
  | _ => Response 200
  end.

(** *** [fetchJobsFromUpstream] *)

(** The [UpstreamSource] interface.  [FetchVersions] talks to the network;
    what it returned is part of the value. *)
Record UpstreamSource : Type := {
  Name : string;
  FetchVersions : result string (list MirrorJob)
}.

(** [fmt.Sprintf("%s/%s", job.Version, job.Platform)]. *)
Definition jobKey (job : MirrorJob) : string :=
  Version job +:+ "/" +:+ Platform job.

(** [seen[key]] for a [map[string]bool]: false when the key is absent. *)
Definition seenAt (seen : gmap string bool) (key : string) : bool :=
  default false (seen !! key).

(** The inner loop: add the jobs whose key was not seen. *)
Fixpoint addJobs (jobs : list MirrorJob) (seen : gmap string bool)
    (allJobs : list MirrorJob) : gmap string bool * list MirrorJob :=
  match jobs with
  | [] => (seen, allJobs)
  | job :: rest =>
      let key := jobKey job in
      if negb (seenAt seen key)
      then addJobs rest (<[key := true]> seen) (allJobs ++ [job])
      else addJobs rest seen allJobs
  end.

(** The outer loop over the sources (the progress lines it prints are
    left out). *)
Fixpoint collectJobs (sources : list UpstreamSource) (seen : gmap string bool)
    (allJobs : list MirrorJob) : list MirrorJob :=
  match sources with
  | [] => allJobs
  | source :: rest =>
      match FetchVersions source with
      | Err _ => collectJobs rest seen allJobs
      | Ok jobs =>
          let '(seen, allJobs) := addJobs jobs seen allJobs in
          collectJobs rest seen allJobs
      end
  end.

(** Notions used to state what the loops compute. *)

(** The jobs a source contributed: none when its fetch failed. *)
Definition jobsOf (source : UpstreamSource) : list MirrorJob :=
  match FetchVersions source with
  | Ok jobs => jobs
  | Err _ => []
  end.

(** All the jobs fetched, in the order of the sources. *)
Definition fetchedJobs (sources : list UpstreamSource) : list MirrorJob :=
  flat_map jobsOf sources.

(** The first job of every key not among [seenKeys], in order. *)
Fixpoint firstOfEachKey (seenKeys : list string) (jobs : list MirrorJob)
  : list MirrorJob :=
  match jobs with
  | [] => []
  | job :: rest =>
      if decide (jobKey job ∈ seenKeys) then firstOfEachKey seenKeys rest
      else job :: firstOfEachKey (jobKey job :: seenKeys) rest
  end.

(** [seen] holds exactly the keys of [keys]. *)
Definition seenIs (seen : gmap string bool) (keys : list string) : Prop :=
  forall key, seenAt seen key = true <-> key ∈ keys.

(** The keys seen once [jobs] went through the inner loop. *)
Definition keysAfter (keys : list string) (jobs : list MirrorJob) : list string :=
  rev (jobKey <$> firstOfEachKey keys jobs) ++ keys.

(** The concrete sources of the script. *)
Inductive SourceImpl : Type :=
| NodeOfficialSource
| PythonStandaloneSource
| PythonOfficialSource
| RubyInstallerSource
| RubyBuilderSource.

Definition SourceImpl_Name (s : SourceImpl) : string :=
  match s with
  | NodeOfficialSource => "nodejs.org"
  | PythonStandaloneSource => "python-build-standalone"
  | PythonOfficialSource => "python.org"
  | RubyInstallerSource => "rubyinstaller2"
  | RubyBuilderSource => "ruby-builder"
  end.

Section Upstream.
(** What each source's [FetchVersions] returns in the current world. *)
Variable fetched : SourceImpl -> result string (list MirrorJob).

Definition source (s : SourceImpl) : UpstreamSource :=
  {| Name := SourceImpl_Name s; FetchVersions := fetched s |}.

Definition getUpstreamSources (runtime : string) : result string (list UpstreamSource) :=
  if String.eqb runtime "node" then Ok [source NodeOfficialSource]
  else if String.eqb runtime "python" then
    Ok [source PythonStandaloneSource; source PythonOfficialSource]
  else if String.eqb runtime "ruby" then
    Ok [source RubyInstallerSource; source RubyBuilderSource]
  else Err ("unknown runtime: " +:+ runtime).

Definition fetchJobsFromUpstream (runtime : string) : result string (list MirrorJob) :=
  match getUpstreamSources runtime with
  | Err err => Err err
  | Ok sources => Ok (collectJobs sources ∅ [])
  end.

End Upstream.

End Mirror.

(** ** Package [config]: settings *)
Module Config.

Definition InstallType : Type := string.
Definition InstallTypeSystem : InstallType := "system".
Definition InstallTypeUser : InstallType := "user".

Record Settings : Type := { installType : InstallType }.

(** The error of [os.ReadFile], as far as [errors.Is(err, os.ErrNotExist)]
    tells them apart. *)
Inductive ReadError : Type :=
| ErrNotExist
| ErrOther (msg : string).

Inductive error : Type :=
| ReadFailed (e : ReadError)
| UnmarshalFailed (msg : string).

Section Load.
(** [json.Unmarshal(data, &settings)] on a zero [Settings]: the decoded
    value or the decoder's error. *)
Variable json_Unmarshal : string -> result string Settings.

(** [file] is what [os.ReadFile(settingsPath)] returns. *)
Definition LoadSettings (file : result ReadError string) : result error Settings :=
  match file with
  | Err ErrNotExist => Ok {| installType := InstallTypeSystem |}
  | Err e => Err (ReadFailed e)
  | Ok data =>
      match json_Unmarshal data with
      | Err msg => Err (UnmarshalFailed msg)
      | Ok settings =>
          if negb (String.eqb (installType settings) InstallTypeSystem)
             && negb (String.eqb (installType settings) InstallTypeUser)
          then Ok {| installType := InstallTypeSystem |}
          else Ok settings
      end
  end.

Definition IsUserInstall (file : result ReadError string) : bool :=
  match LoadSettings file with
  | Err _ => false
  | Ok settings => String.eqb (installType settings) InstallTypeUser
  end.

End Load.

(** A decoder to run the model with: the file holds the install type
    itself, and the text [malformed] does not decode. *)
Definition plainDecoder (data : string) : result string Settings :=
  if String.eqb data "malformed" then Err "invalid character"
  else Ok {| installType := data |}.

End Config.

(** ** Package [path] (Windows): the user PATH installer *)
Module Path.

(** [strings.TrimSpace] and [strings.EqualFold] work on Unicode code
    points.  The installer needs two facts about them: [EqualFold] relates
    every string to itself, and [TrimSpace] returns a substring of its
    argument. *)
Class Unicode : Type := {
  TrimSpace : string -> string;
  EqualFold : string -> string -> bool;
  EqualFold_refl : forall s, EqualFold s s = true;
  TrimSpace_sub : forall s, exists a b, s = a +:+ TrimSpace s +:+ b
}.

(** The ASCII part of the two functions, used to run the model. *)
Definition isSpace (c : ascii) : bool :=
  let n := nat_of_ascii c in
  (n =? 32)%nat || ((9 <=? n)%nat && (n <=? 13)%nat).

Fixpoint trimLeft (s : string) : string :=
  match s with
  | EmptyString => EmptyString
  | String c s' => if isSpace c then trimLeft s' else s
  end.

Fixpoint trimRight (s : string) : string :=
  match s with
  | EmptyString => EmptyString
  | String c s' =>
      match trimRight s' with
      | EmptyString => if isSpace c then EmptyString else String c EmptyString
      | r => String c r
      end
  end.

Definition asciiTrimSpace (s : string) : string := trimRight (trimLeft s).

Definition toLower (c : ascii) : ascii :=
  let n := nat_of_ascii c in
  if ((65 <=? n)%nat && (n <=? 90)%nat) then ascii_of_nat (n + 32) else c.

Fixpoint asciiEqualFold (s t : string) : bool :=
  match s, t with
  | EmptyString, EmptyString => true
  | String a s', String b t' => Ascii.eqb (toLower a) (toLower b) && asciiEqualFold s' t'
  | _, _ => false
  end.

(** The value "Path" of the registry key [HKCU\Environment]: [None] when
    the value does not exist ([registry.ErrNotExist]).  Opening the key and
    reading or writing the value are taken to succeed. *)
Definition Registry : Type := option string.

Definition pathActionMove : string := "move".

Section Installer.
Context `{Unicode}.

(** The search loop of [checkUserPath]: the index of the first entry that
    is the shims directory, [-1] when there is none. *)
Fixpoint findShims (shimsDir : string) (paths : list string) (i : Z) : Z :=
  match paths with
  | [] => (-1)%Z
  | p :: rest =>
      let trimmed := TrimSpace p in
      if EqualFold trimmed shimsDir then i
      else findShims shimsDir rest (i + 1)%Z
  end.

(** [checkUserPath]: [(needsUpdate, action)]. *)
Definition checkUserPath (shimsDir : string) (reg : Registry) : bool * string :=
  match reg with
  | None => (true, "add")
  | Some currentPath =>
      if String.eqb currentPath "" then (true, "add")
      else
        let paths := Strings.Split currentPath ";" in
        let foundAt := findShims shimsDir paths 0 in
        if (foundAt =? 0)%Z then (false, "")
        else if (0 <? foundAt)%Z then (true, pathActionMove)
        else (true, "add")
  end.

(** The filter loop of [modifyUserPath]. *)
Fixpoint filterPaths (shimsDir : string) (paths : list string) : list string :=
  match paths with
  | [] => []
  | p :: rest =>
      let trimmed := TrimSpace p in
      if String.eqb trimmed "" then filterPaths shimsDir rest
      else if EqualFold trimmed shimsDir then filterPaths shimsDir rest
      else trimmed :: filterPaths shimsDir rest
  end.

(** [modifyUserPath]: the registry afterwards and the message shown. *)
Definition modifyUserPath (shimsDir action : string) (reg : Registry)
  : Registry * string :=
  let currentPath := match reg with Some p => p | None => "" end in
  let filteredPaths :=
    if negb (String.eqb currentPath "")
    then filterPaths shimsDir (Strings.Split currentPath ";")
    else [] in
  let newPath :=
    match filteredPaths with
    | [] => shimsDir
    | _ :: _ => shimsDir +:+ ";" +:+ Strings.Join filteredPaths ";"
    end in
  (Some newPath,
   if String.eqb action pathActionMove
   then "Moved " +:+ shimsDir +:+ " to the beginning of your User PATH"
   else "Added " +:+ shimsDir +:+ " to your User PATH").

(** [addToUserPath] once the check for conflicting system runtimes let it
    continue: check, then modify when an update is needed. *)
Definition addToUserPath (shimsDir : string) (reg : Registry) : Registry * string :=
  let '(needsUpdate, action) := checkUserPath shimsDir reg in
  if negb needsUpdate
  then (reg, shimsDir +:+ " is already at the beginning of your User PATH")
  else modifyUserPath shimsDir action reg.

(** Notions used to state what the installer does. *)

(** The entries of a PATH value: its [;]-separated parts; an absent or
    empty value has none. *)
Definition entries (reg : Registry) : list string :=
  match reg with
  | None => []
  | Some p => if String.eqb p "" then [] else Strings.Split p ";"
  end.

(** The entries other than the shims directory, as the installer keeps
    them: trimmed, the empty ones dropped. *)
Definition otherEntries (shimsDir : string) (reg : Registry) : list string :=
  List.filter (fun e => negb (EqualFold e shimsDir))
    (List.filter (fun e => negb (String.eqb e ""))
       (map TrimSpace (entries reg))).

(** [reg'] is [reg] updated: the shims directory first and only there,
    then the other entries. *)
Definition updatedPath (shimsDir : string) (reg reg' : Registry) : Prop :=
  entries reg' = shimsDir :: otherEntries shimsDir reg /\
  List.filter (fun e => EqualFold e shimsDir) (entries reg') = [shimsDir].

End Installer.

End Path.

(** ** Package [cmd]: listing installed versions *)
Module Cmd.

Definition globalIndicator : string := "🌐".
Definition localIndicator : string := "📍".

(** Modelled from the spec: [ui.ActiveVersion] is not among the sources;
    it marks a version as the active one.  A printed version is either
    marked or plain. *)
Inductive Shown : Type :=
| ActiveVersion (version : string)
| Plain (version : string).

(** The line [printVersionLine] prints: the version, marked or not, and
    the indicators after it. *)
Definition printVersionLine (version globalVersion localVersion : string)
  : Shown * string :=
  let isGlobal := String.eqb version globalVersion in
  let isLocal := String.eqb version localVersion in
  let isActive := isLocal || (isGlobal && String.eqb localVersion "") in
  let indicators := "" in
  let indicators := if isLocal then indicators +:+ " " +:+ localIndicator else indicators in
  let indicators := if isGlobal then indicators +:+ " " +:+ globalIndicator else indicators in
  if isActive then (ActiveVersion version, indicators)
  else (Plain version, indicators).

End Cmd.

(** ** Notions used to state more about the retries *)
Module RetryNotions.
Import Mirror.

(** A response the function discards: status 500 or more. *)
Definition serverError (r : GetResult) : bool :=
  match r with
  | GetError _ => false
  | Response code => (500 <=? code)%Z
  end.

(** The sum of a list of durations. *)
Definition total (durations : list Z) : Z := fold_right Z.add 0%Z durations.

End RetryNotions.

(** ** [scripts/mirror-binaries/node.go]: the nodejs.org source *)
Module Node.

(** An entry of [nodejs.org/dist/index.json]; [LTS] is a string or
    [false], here [None]. *)
Record nodeIndexEntry : Type := {
  Version : string;
  Date : string;
  Files : list string;
  LTS : option string;
  Shasums : string
}.

(** [mapFileToPlatform]: the platform and the archive extension of a file
    type, both empty for the types that are skipped. *)
Definition mapFileToPlatform (file : string) : string * string :=
  if String.eqb file "linux-x64" then ("linux-amd64", ".tar.gz")
  else if String.eqb file "linux-arm64" then ("linux-arm64", ".tar.gz")
  else if String.eqb file "linux-armv7l" then ("linux-armv7", ".tar.gz")
  else if String.eqb file "darwin-x64" then ("darwin-amd64", ".tar.gz")
  else if String.eqb file "darwin-arm64" then ("darwin-arm64", ".tar.gz")
  else if String.eqb file "win-x64-zip" then ("windows-amd64", ".zip")
  else if String.eqb file "win-arm64-zip" then ("windows-arm64", ".zip")
  else if String.eqb file "win-x86-zip" then ("windows-386", ".zip")
  else ("", "").

(** [getArchiveName]: the archive's file name for a version and a file
    type, empty for the other types. *)
Definition getArchiveName (version file : string) : string :=
  if String.eqb file "linux-x64" then "node-" +:+ version +:+ "-linux-x64.tar.gz"
  else if String.eqb file "linux-arm64" then "node-" +:+ version +:+ "-linux-arm64.tar.gz"
  else if String.eqb file "linux-armv7l" then "node-" +:+ version +:+ "-linux-armv7l.tar.gz"
  else if String.eqb file "darwin-x64" then "node-" +:+ version +:+ "-darwin-x64.tar.gz"
  else if String.eqb file "darwin-arm64" then "node-" +:+ version +:+ "-darwin-arm64.tar.gz"
  else if String.eqb file "win-x64-zip" then "node-" +:+ version +:+ "-win-x64.zip"
  else if String.eqb file "win-arm64-zip" then "node-" +:+ version +:+ "-win-arm64.zip"
  else if String.eqb file "win-x86-zip" then "node-" +:+ version +:+ "-win-x86.zip"
  else "".

(** The body of the loop of [FetchVersions] over the files of an entry:
    the job of one file type, none for a skipped type.  [shasums] is [None]
    when the checksums could not be fetched. *)
Definition fileJob (entry : nodeIndexEntry) (shasums : option (gmap string string))
    (file : string) : option Mirror.MirrorJob :=
  let version := Strings.TrimPrefix (Version entry) "v" in
  let '(platform, ext) := mapFileToPlatform file in
  if String.eqb platform "" then None
  else
    let archiveName := getArchiveName (Version entry) file in
    let url := "https://nodejs.org/dist/" +:+ Version entry +:+ "/" +:+ archiveName in
    let sha256 :=
      match shasums with
      | Some sums => default "" (sums !! archiveName)
      | None => ""
      end in
    let r2Key := "node/" +:+ version +:+ "/" +:+ platform +:+ ext in
    let metaKey := "node/" +:+ version +:+ "/" +:+ platform +:+ ".meta.json" in
    Some {| Mirror.Runtime := "node";
            Mirror.Version := version;
            Mirror.Platform := platform;
            Mirror.URL := url;
            Mirror.UpstreamSHA256 := sha256;
            Mirror.R2Key := r2Key;
            Mirror.MetaKey := metaKey |}.

(** The jobs of one entry, in the order of its files. *)
Definition entryJobs (entry : nodeIndexEntry) (shasums : option (gmap string string))
  : list Mirror.MirrorJob :=
  omap (fileJob entry shasums) (Files entry).

(** The loop of [FetchVersions] over the entries; [fetchShasums] gives the
    checksums of a version, [None] when fetching them failed. *)
Definition indexJobs (fetchShasums : string -> option (gmap string string))
    (entries : list nodeIndexEntry) : list Mirror.MirrorJob :=
  flat_map (fun entry => entryJobs entry (fetchShasums (Version entry))) entries.

(** An entry as nodejs.org lists them, with a file type that is skipped. *)
Definition sampleEntry : nodeIndexEntry :=
  {| Version := "v20.1.0"; Date := "2023-05-03";
     Files := ["linux-x64"; "src"; "win-x64-zip"];
     LTS := None; Shasums := "" |}.

End Node.

(** ** [scripts/detect-ruby-gaps/main.go]: the build matrix of missing
    Ruby binaries *)
Module RubyGaps.

(** [strings.SplitN(s, sep, n)] for a one-byte separator and [n >= 0]: at
    most [n] substrings, the last one the unsplit remainder. *)
Fixpoint SplitN (s : string) (sep : ascii) (n : nat) {struct s} : list string :=
  match n with
  | 0%nat => []
  | 1%nat => [s]
  | S m =>
      match s with
      | EmptyString => [EmptyString]
      | String c rest =>
          if Ascii.eqb c sep then EmptyString :: SplitN rest sep m
          else
            match SplitN rest sep n with
            | w :: ws => String c w :: ws
            | [] => [String c EmptyString] (* unreachable: [n] is not 0 *)
            end
      end
  end.

(** Iterating over a Go map visits every key once, in an order the
    language leaves open. *)
Class MapRange : Type := {
  rangeKeys : gmap string bool -> list string;
  rangeKeys_perm : forall m, Permutation (rangeKeys m) (map_to_list m).*1
}.

Record Platform : Type := {
  Name : string;
  Runner : string;
  BuildOS : string;
  Arch : string
}.

(** The fields of [MatrixEntry] share names with those of [Platform] in
    the source; here they carry the prefix [entry_]. *)
Record MatrixEntry : Type := {
  entry_Version : string;
  entry_Platform : string;
  entry_Runner : string;
  entry_BuildOS : string;
  entry_Arch : string
}.

Record MatrixOutput : Type := {
  Include : list MatrixEntry
}.

Definition allPlatforms : list Platform := [
  {| Name := "linux-amd64"; Runner := "ubuntu-latest"; BuildOS := "linux"; Arch := "amd64" |};
  {| Name := "linux-arm64"; Runner := "ubuntu-24.04-arm"; BuildOS := "linux"; Arch := "arm64" |};
  {| Name := "darwin-amd64"; Runner := "macos-13"; BuildOS := "darwin"; Arch := "amd64" |};
  {| Name := "darwin-arm64"; Runner := "macos-latest"; BuildOS := "darwin"; Arch := "arm64" |};
  {| Name := "windows-amd64"; Runner := "windows-latest"; BuildOS := "windows"; Arch := "amd64" |};
  {| Name := "windows-386"; Runner := "windows-latest"; BuildOS := "windows"; Arch := "386" |}
].

(** [existingMeta[key]] for a [map[string]bool]: false when absent. *)
Definition metaAt (existingMeta : gmap string bool) (key : string) : bool :=
  default false (existingMeta !! key).

(** [isPreRelease]: [strings.Contains(version, "-")]. *)
Definition isPreRelease (version : string) : bool :=
  Strings.ContainsByte version "-".

Section WithScanner.

(** [Sscanf_d s] is the [int] that [fmt.Sscanf(s, "%d", &x)] leaves in a
    variable [x] that was 0: the number scanned, or 0 when the scan fails.
    The source ignores the count and the error that [Sscanf] returns. *)
Variable Sscanf_d : string -> Z.

Definition supportsARM64Darwin (version : string) : bool :=
  let parts := SplitN version "." 3 in
  if (length parts <? 2)%nat then false
  else
    let major := Sscanf_d (nth 0 parts EmptyString) in
    let minor := Sscanf_d (nth 1 parts EmptyString) in
    if (major >? 3)%Z then true
    else if (major =? 3)%Z && (minor >=? 1)%Z then true
    else false.

Definition isAtLeast270 (version : string) : bool :=
  let parts := SplitN version "." 3 in
  if (length parts <? 2)%nat then false
  else
    let major := Sscanf_d (nth 0 parts EmptyString) in
    let minor := Sscanf_d (nth 1 parts EmptyString) in
    if (major >? 2)%Z then true
    else if (major =? 2)%Z && (minor >=? 7)%Z then true
    else false.

(** The entry appended for a version and a platform. *)
Definition entryFor (version : string) (p : Platform) : MatrixEntry :=
  {| entry_Version := version;
     entry_Platform := Name p;
     entry_Runner := Runner p;
     entry_BuildOS := BuildOS p;
     entry_Arch := Arch p |}.

(** The [continue] of both loops: [darwin-arm64] is left out for the
    versions that do not support it. *)
Definition excluded (version : string) (p : Platform) : bool :=
  String.eqb (Name p) "darwin-arm64" && negb (supportsARM64Darwin version).

Definition buildMatrixForVersion (version : string) : MatrixOutput :=
  {| Include :=
       fold_left
         (fun include p =>
            if excluded version p then include
            else include ++ [entryFor version p])
         allPlatforms [] |}.

Definition metaKey (version : string) (p : Platform) : string :=
  "ruby/" +:+ version +:+ "/" +:+ Name p +:+ ".meta.json".

(** Whether the inner loop of [computeGaps] appends an entry for the
    platform. *)
Definition missing (existingMeta : gmap string bool) (version : string) (p : Platform)
  : bool :=
  negb (excluded version p) && negb (metaAt existingMeta (metaKey version p)).

Definition computeGaps (versions : list string) (existingMeta : gmap string bool)
  : MatrixOutput :=
  {| Include :=
       fold_left
         (fun include version =>
            fold_left
              (fun include p =>
                 if excluded version p then include
                 else if negb (metaAt existingMeta (metaKey version p))
                 then include ++ [entryFor version p]
                 else include)
              allPlatforms include)
         versions [] |}.

(** [fetchKnownVersions], given what the two upstream queries returned
    ([None] for an error, which is only reported): the union of the
    versions as a set, filtered and sorted.  The function never fails.
    [sort.Strings] orders by [<] on strings, the byte order [String.ltb],
    under the contract of [Sort.Sorter]. *)
Definition fetchKnownVersions `{MapRange} `{Sort.Sorter}
    (installerVersions builderVersions : option (list string)) : list string :=
  let versionSet : gmap string bool := ∅ in
  let versionSet :=
    match installerVersions with
    | None => versionSet
    | Some vs => fold_left (fun set v => <[v := true]> set) vs versionSet
    end in
  let versionSet :=
    match builderVersions with
    | None => versionSet
    | Some vs => fold_left (fun set v => <[v := true]> set) vs versionSet
    end in
  let versions :=
    fold_left
      (fun versions v =>
         if isPreRelease v then versions
         else if negb (isAtLeast270 v) then versions
         else versions ++ [v])
      (rangeKeys versionSet) [] in
  Sort.Slice String.ltb versions.

End WithScanner.

(** A scanner to run the model with: the value of the leading decimal
    digits, 0 when there are none. *)
Fixpoint leadingDigits (s : string) (acc : Z) : Z :=
  match s with
  | EmptyString => acc
  | String c rest =>
      match Strconv.digitVal c with
      | Some d => leadingDigits rest (acc * 10 + d)%Z
      | None => acc
      end
  end.

Definition sampleScanner (s : string) : Z := leadingDigits s 0.

End RubyGaps.

(** ** Package [path] (Windows): the System PATH, the conflicting
    runtimes and [AddToPath] *)
Module PathInstall.
Import Path.

(** The two "Path" values of the registry: the one of the machine
    ([HKLM\...\Session Manager\Environment]) and the one of the user
    ([HKCU\Environment]). *)
Record Machine : Type := {
  systemPath : Registry;
  userPath : Registry
}.

Record RuntimeConflict : Type := {
  Name : string;
  Path : string
}.

(** How [AddToPath] ends.  All but an error of [relaunchElevated], which
    is returned as it is, end with a nil error. *)
Inductive Outcome : Type :=
| Message (text : string) (* [ui.Success]: already first, moved or added *)
| Relaunched              (* [return relaunchElevated()] *)
| NotModified             (* elevation declined: "PATH not modified" *)
| Cancelled.              (* user install declined: "User install cancelled" *)

Definition runtimeChecks : list (string * string) :=
  [("node", "Node.js"); ("python", "Python"); ("ruby", "Ruby")].

Section Installer.
Context `{Unicode}.

(** An entry is the shims directory: trimmed, compared without case. *)
Definition isShims (shimsDir entry : string) : bool :=
  EqualFold (TrimSpace entry) shimsDir.

(** [strings.ToLower], on Unicode code points. *)
Variable ToLower : string -> string.
(** [constants.ResponseY] and [constants.ResponseYes]. *)
Variables ResponseY ResponseYes : string.
(** [ShimsDir()], the shims directory of the installation. *)
Variable ShimsDir : string.
(** [os.Stat(path)] succeeds and the file is not a directory. *)
Variable isFile : string -> bool.
(** [filepath.Join(dir, name)]. *)
Variable filepath_Join : string -> string -> string.
(** [isAdmin()]. *)
Variable isAdmin : bool.
(** The line [fmt.Scanln] reads at a prompt. *)
Variable response : string.

(** [checkSystemPath]: [(needsUpdate, action)]; a missing value reads as
    the empty string. *)
Definition checkSystemPath (shimsDir : string) (reg : Registry) : bool * string :=
  let currentPath := match reg with Some p => p | None => "" end in
  let paths := Strings.Split currentPath ";" in
  let foundAt := findShims shimsDir paths 0 in
  if (foundAt =? 0)%Z then (false, "")
  else if (0 <? foundAt)%Z then (true, pathActionMove)
  else (true, "add").

(** [modifySystemPath]: the registry value afterwards and the message
    shown. *)
Definition modifySystemPath (shimsDir action : string) (reg : Registry)
  : Registry * string :=
  let currentPath := match reg with Some p => p | None => "" end in
  let filteredPaths := filterPaths shimsDir (Strings.Split currentPath ";") in
  let newPath :=
    match filteredPaths with
    | [] => shimsDir
    | _ :: _ => shimsDir +:+ ";" +:+ Strings.Join filteredPaths ";"
    end in
  (Some newPath,
   if String.eqb action pathActionMove
   then "Moved " +:+ shimsDir +:+ " to the beginning of your System PATH"
   else "Added " +:+ shimsDir +:+ " to your System PATH").

(** [promptForElevation]: unless confirmation is skipped, any answer other
    than an empty one, [ResponseY] or [ResponseYes] declines.  The
    directory and the action only choose the text shown. *)
Definition promptForElevation (shimsDir action : string) (skipConfirmation : bool)
  : Outcome :=
  if negb skipConfirmation then
    let response := ToLower (TrimSpace response) in
    if negb (String.eqb response "") && negb (String.eqb response ResponseY)
       && negb (String.eqb response ResponseYes)
    then NotModified
    else Relaunched
  else Relaunched.

Definition addToSystemPath (shimsDir : string) (skipConfirmation : bool) (m : Machine)
  : Machine * Outcome :=
  let '(needsUpdate, action) := checkSystemPath shimsDir (systemPath m) in
  if negb needsUpdate
  then (m, Message (shimsDir +:+ " is already at the beginning of your System PATH"))
  else if negb isAdmin
  then (m, promptForElevation shimsDir action skipConfirmation)
  else
    let '(reg, text) := modifySystemPath shimsDir action (systemPath m) in
    ({| systemPath := reg; userPath := userPath m |}, Message text).

(** [getSystemPathOnly]: the value, empty when it cannot be read. *)
Definition getSystemPathOnly (m : Machine) : string :=
  match systemPath m with Some p => p | None => "" end.

(** The inner loop of [detectSystemRuntimeConflicts]: the first directory
    of the System PATH, other than the shims directory, that holds the
    executable. *)
Fixpoint findRuntime (execName displayName : string) (pathDirs : list string)
  : option RuntimeConflict :=
  match pathDirs with
  | [] => None
  | dir :: rest =>
      let dir := TrimSpace dir in
      if String.eqb dir "" then findRuntime execName displayName rest
      else if EqualFold dir ShimsDir then findRuntime execName displayName rest
      else
        let execPath := filepath_Join dir (execName +:+ ".exe") in
        if isFile execPath
        then Some {| Name := displayName; Path := execPath |}
        else findRuntime execName displayName rest
  end.

Definition detectSystemRuntimeConflicts (m : Machine) : list RuntimeConflict :=
  let systemPath := getSystemPathOnly m in
  if String.eqb systemPath "" then []
  else
    let pathDirs := Strings.Split systemPath ";" in
    fold_left
      (fun conflicts '(execName, displayName) =>
         match findRuntime execName displayName pathDirs with
         | Some conflict => conflicts ++ [conflict]
         | None => conflicts
         end)
      runtimeChecks [].

(** [warnAboutSystemConflicts]: whether to continue with the user
    install. *)
Definition warnAboutSystemConflicts (conflicts : list RuntimeConflict)
    (skipConfirmation : bool) : bool :=
  if skipConfirmation then true
  else
    let response := ToLower (TrimSpace response) in
    String.eqb response ResponseY || String.eqb response ResponseYes.

(** [addToUserPath], with its check for conflicting system runtimes. *)
Definition addToUserPath (shimsDir : string) (skipConfirmation : bool) (m : Machine)
  : Machine * Outcome :=
  let conflicts := detectSystemRuntimeConflicts m in
  if (0 <? length conflicts)%nat && negb (warnAboutSystemConflicts conflicts skipConfirmation)
  then (m, Cancelled)
  else
    let '(reg, text) := Path.addToUserPath shimsDir (userPath m) in
    ({| systemPath := systemPath m; userPath := reg |}, Message text).

Definition AddToPath (shimsDir : string) (skipConfirmation userInstall : bool)
    (m : Machine) : Machine * Outcome :=
  if userInstall then addToUserPath shimsDir skipConfirmation m
  else addToSystemPath shimsDir skipConfirmation m.

End Installer.

End PathInstall.

(** ** [config.SaveSettings] and [src/cmd/init.go]: the [init] command *)
Module InitCmd.
Import Config.

(** What [os.ReadFile(settingsPath)] would return: the state of the
    settings file. *)
Definition SettingsFile : Type := result ReadError string.

(** How [Run] ends. *)
Inductive RunResult : Type :=
| DirectoriesFailed          (* [config.EnsureDirectories] failed *)
| PathFailed                 (* [path.AddToPath] failed *)
| Initialized (saved : bool). (* [saved]: [config.SaveSettings] returned nil *)

Section Run.
Variable json_Unmarshal : string -> result string Settings.
(** [json.MarshalIndent(settings, "", "  ")]. *)
Variable json_MarshalIndent : Settings -> result string string.
(** [os.MkdirAll(configDir, 0755)]: its error, if any. *)
Variable MkdirAll : option string.
(** [os.WriteFile(settingsPath, data, 0644)]: [None] when it succeeds and
    the file holds [data]; otherwise its error and the state it leaves the
    file in. *)
Variable WriteFile : string -> option (string * SettingsFile).
(** [config.EnsureDirectories()] returned nil. *)
Variable EnsureDirectories_ok : bool.
(** [path.AddToPath(shimsDir, initYes, userInstall)] returned nil. *)
Variable AddToPath_ok : bool -> bool -> bool.
(** [runtime.GOOS == constants.OSWindows]. *)
Variable onWindows : bool.

(** [SaveSettings]: the settings file afterwards and the error returned. *)
Definition SaveSettings (settings : Settings) (file : SettingsFile)
  : SettingsFile * option string :=
  match MkdirAll with
  | Some err => (file, Some err)
  | None =>
      match json_MarshalIndent settings with
      | Err err => (file, Some err)
      | Ok data =>
          match WriteFile data with
          | None => (Ok data, None)
          | Some (err, file') => (file', Some err)
          end
      end
  end.

(** [determineInstallType]: [changed] is [cmd.Flags().Changed("user")]. *)
Definition determineInstallType (changed initUser : bool) (file : SettingsFile) : bool :=
  if changed then initUser
  else
    match LoadSettings json_Unmarshal file with
    | Ok settings =>
        if String.eqb (installType settings) InstallTypeUser then true else false
    | Err _ => false
    end.

(** The test [isSwitching] of [Run]; [previousSettings] is nil when
    [LoadSettings] fails. *)
Definition isSwitching (changed userInstall : bool) (file : SettingsFile) : bool :=
  let previousSettings :=
    match LoadSettings json_Unmarshal file with
    | Ok settings => Some settings
    | Err _ => None
    end in
  changed &&
  match previousSettings with
  | None => false
  | Some previousSettings =>
      (userInstall && String.eqb (installType previousSettings) InstallTypeSystem)
      || (negb userInstall && String.eqb (installType previousSettings) InstallTypeUser)
  end.

(** [Run] of the [init] command: whether the switch warning was shown,
    the settings file afterwards and how the command ended. *)
Definition Run (changed initUser initYes : bool) (file : SettingsFile)
  : bool * SettingsFile * RunResult :=
  if negb EnsureDirectories_ok then (false, file, DirectoriesFailed)
  else
    let userInstall := determineInstallType changed initUser file in
    let warned := isSwitching changed userInstall file && onWindows in
    if negb (AddToPath_ok initYes userInstall) then (warned, file, PathFailed)
    else
      let installType := if userInstall then InstallTypeUser else InstallTypeSystem in
      let settings := {| installType := installType |} in
      match SaveSettings settings file with
      | (file', Some _) => (warned, file', Initialized false)
      | (file', None) => (warned, file', Initialized true)
      end.

End Run.

(** An encoder to run the model with, the inverse of
    [Config.plainDecoder]. *)
Definition plainEncoder (settings : Settings) : result string string :=
  if String.eqb (installType settings) "malformed" then Err "unsupported value"
  else Ok (installType settings).

End InitCmd.

(** ** [src/cmd]: the [list] command *)
Module CmdList.
Import Cmd.

(** What the command needs of a runtime provider.  The errors of
    [GlobalVersion] and of [config.LocalVersion] are ignored by the
    command; the version is then the empty string. *)
Record Provider : Type := {
  Name : string;
  DisplayName : string;
  ListInstalled : result string (list string);
  GlobalVersion : string
}.

(** What is written to the terminal, by the function of package [ui]
    that writes it. *)
Inductive Output : Type :=
| Header (text : string)
| Info (text : string)
| Error (text : string)
| Title (displayName : string)               (* [ui.Printf("  %s:\n", ...)] *)
| Line (shown : Shown) (indicators : string). (* [printVersionLine] *)

Section List.
(** [config.LocalVersion(runtimeName)]. *)
Variable LocalVersion : string -> string.

(** The loop over the installed versions, shared by both listings. *)
Definition printVersions (versions : list string) (globalVersion localVersion : string)
  : list Output :=
  map (fun v =>
         let '(shown, indicators) := printVersionLine v globalVersion localVersion in
         Line shown indicators)
      versions.

(** [listSingleRuntime]; [provider] is what [runtime.Get(runtimeName)]
    returns and [available] what [runtime.List()] prints as. *)
Definition listSingleRuntime (runtimeName : string) (provider : result string Provider)
    (available : string) : list Output :=
  match provider with
  | Err err => [Error err; Info ("Available runtimes: " +:+ available)]
  | Ok provider =>
      Header ("Installed " +:+ DisplayName provider +:+ " versions:") ::
      match ListInstalled provider with
      | Err err => [Error err]
      | Ok [] => [Info "No versions installed"]
      | Ok versions =>
          let globalVersion := GlobalVersion provider in
          let localVersion := LocalVersion runtimeName in
          printVersions versions globalVersion localVersion
      end
  end.

(** The loop of [listAllRuntimes] over the providers: the output and
    [hasAny]. *)
Fixpoint listProviders (providers : list Provider) (hasAny : bool)
  : list Output * bool :=
  match providers with
  | [] => ([], hasAny)
  | provider :: rest =>
      match ListInstalled provider with
      | Err err =>
          let '(out, hasAny) := listProviders rest hasAny in
          (Error ("  " +:+ DisplayName provider +:+ ": " +:+ err) :: out, hasAny)
      | Ok [] => listProviders rest hasAny
      | Ok versions =>
          let runtimeName := Name provider in
          let globalVersion := GlobalVersion provider in
          let localVersion := LocalVersion runtimeName in
          let '(out, hasAny) := listProviders rest true in
          (Title (DisplayName provider)
             :: printVersions versions globalVersion localVersion ++ out,
           hasAny)
      end
  end.

Definition listAllRuntimes (providers : list Provider) : list Output :=
  match providers with
  | [] => [Info "No runtime providers registered"]
  | _ :: _ =>
      let '(out, hasAny) := listProviders providers false in
      Header "Installed versions:" :: out
        ++ (if negb hasAny then [Info "No versions installed"] else [])
  end.

(** The versions shown as active among the output. *)
Definition activeVersions (out : list Output) : list string :=
  omap (fun o => match o with
                 | Line (ActiveVersion v) _ => Some v
                 | _ => None
                 end) out.

End List.

(** The selection in force: the local one when set, else the global
    one. *)
Definition selected (globalVersion localVersion : string) : string :=
  if String.eqb localVersion "" then globalVersion else localVersion.

End CmdList.

(** ** What "first source wins" says, by version and platform *)
Module MirrorNotions.
Import Mirror.

(** The version and the platform of a job, the key by which jobs are
    told apart. *)
Definition pairOf (job : MirrorJob) : string * string :=
  (Version job, Platform job).

(** [out] is what the sources give when the first source wins:
    - no two jobs of [out] have the same version and platform;
    - every job of [out] stands in the list of a source that fetched, and
      neither before it in that list nor in what the sources before
      fetched is there a job of its version and platform;
    - every fetched job has a job in [out] that reads the same as
      [version/platform], and so one of its version and platform when no
      fetched version holds a [/];
    - [out] keeps the order of the sources and of their jobs. *)
Definition firstSourceWins (sources : list UpstreamSource) (out : list MirrorJob)
  : Prop :=
  NoDup (pairOf <$> out) /\
  (forall job, job ∈ out ->
     exists before source after jobs m1 m2,
       sources = before ++ source :: after /\
       FetchVersions source = Ok jobs /\
       jobs = m1 ++ job :: m2 /\
       forall job', job' ∈ fetchedJobs before ++ m1 -> pairOf job' <> pairOf job) /\
  (forall job, job ∈ fetchedJobs sources ->
     exists kept, kept ∈ out /\
       Version kept +:+ "/" +:+ Platform kept = Version job +:+ "/" +:+ Platform job) /\
  ((forall job, job ∈ fetchedJobs sources ->
      Strings.ContainsByte (Version job) "/" = false) ->
   forall job, job ∈ fetchedJobs sources ->
     exists kept, kept ∈ out /\ pairOf kept = pairOf job) /\
  sublist out (fetchedJobs sources).

(** A failed fetch read as a fetch that found nothing. *)
Definition failuresAsEmpty (fetched : SourceImpl -> result string (list MirrorJob))
    (s : SourceImpl) : result string (list MirrorJob) :=
  match fetched s with
  | Ok jobs => Ok jobs
  | Err _ => Ok []
  end.

End MirrorNotions.

(** * Properties *)

#[global] Arguments Ascii.eqb : simpl never.
#[global] Arguments String.eqb : simpl never.

(** ** Insertion sort meets the contract of [sort.Slice] *)
Module SortFacts.
Import Sort.

Lemma sink_perm {A} (less : A -> A -> bool) x r :
  Permutation (sink less x r) (x :: r).
Proof.
  induction r as [|y r IH]; simpl; [reflexivity|].
  destruct (less x y); [|reflexivity].
  rewrite IH. apply perm_swap.
Qed.

Lemma fold_sink_perm {A} (less : A -> A -> bool) l acc :
  Permutation (fold_left (fun sortedRev x => sink less x sortedRev) l acc)
              (rev l ++ acc).
Proof.
  revert acc. induction l as [|x l IH]; intros acc; simpl; [reflexivity|].
  rewrite IH, sink_perm, <- app_assoc. reflexivity.
Qed.

Lemma insertionSort_perm {A} (less : A -> A -> bool) l :
  Permutation (insertionSort less l) l.
Proof.
  unfold insertionSort. rewrite <- Permutation_rev, fold_sink_perm, app_nil_r.
  symmetry. apply Permutation_rev.
Qed.

Lemma swo_asym {A} (less : A -> A -> bool) :
  StrictWeakOrder less -> forall x y, less x y = true -> less y x = false.
Proof.
  intros W x y Hxy. destruct (less y x) eqn:Hyx; [|reflexivity].
  pose proof (swo_trans less W _ _ _ Hxy Hyx) as Hxx.
  rewrite (swo_irrefl less W) in Hxx. discriminate.
Qed.

Lemma sink_sorted {A} (less : A -> A -> bool) x r :
  StrictWeakOrder less ->
  StronglySorted (fun later earlier => less later earlier = false) r ->
  StronglySorted (fun later earlier => less later earlier = false) (sink less x r).
Proof.
  intros W. induction r as [|y r IH]; intros Hs; simpl.
  - repeat constructor.
  - apply StronglySorted_inv in Hs as [Hr Hy].
    destruct (less x y) eqn:Hxy.
    + constructor; [auto|].
      rewrite sink_perm.
      constructor; [eapply swo_asym; eauto | exact Hy].
    + constructor; [constructor; assumption|].
      constructor; [exact Hxy|].
      rewrite List.Forall_forall in *. intros z Hz.
      eapply swo_incomp; eauto.
Qed.

Lemma fold_sink_sorted {A} (less : A -> A -> bool) l acc :
  StrictWeakOrder less ->
  StronglySorted (fun later earlier => less later earlier = false) acc ->
  StronglySorted (fun later earlier => less later earlier = false)
    (fold_left (fun sortedRev x => sink less x sortedRev) l acc).
Proof.
  intros W. revert acc. induction l as [|x l IH]; intros acc Hacc; simpl; [exact Hacc|].
  apply IH, sink_sorted; assumption.
Qed.

Lemma StronglySorted_snoc {A} (R : A -> A -> Prop) l x :
  StronglySorted R l -> List.Forall (fun y => R y x) l -> StronglySorted R (l ++ [x]).
Proof.
  induction l as [|y l IH]; intros Hs Hall; simpl.
  - repeat constructor.
  - apply StronglySorted_inv in Hs as [Hl Hy].
    apply List.Forall_cons_iff in Hall as [Hyx Hall].
    constructor; [auto|].
    apply List.Forall_app. split; [exact Hy | repeat constructor; exact Hyx].
Qed.

Lemma StronglySorted_rev {A} (R : A -> A -> Prop) l :
  StronglySorted R l -> StronglySorted (fun x y => R y x) (rev l).
Proof.
  induction l as [|x l IH]; intros Hs; simpl; [constructor|].
  apply StronglySorted_inv in Hs as [Hl Hx].
  apply StronglySorted_snoc; [auto|].
  apply List.Forall_rev. exact Hx.
Qed.

Lemma insertionSort_sorted {A} (less : A -> A -> bool) l :
  StrictWeakOrder less ->
  StronglySorted (fun x y => less y x = false) (insertionSort less l).
Proof.
  intros W. unfold insertionSort.
  apply (StronglySorted_rev (fun later earlier => less later earlier = false)).
  apply fold_sink_sorted; [exact W | constructor].
Qed.

(** The sorter used to run the model: the library's insertion sort. *)
#[export] Instance insertionSorter : Sorter := {|
  Slice := insertionSort;
  Slice_perm := insertionSort_perm;
  Slice_sorted := insertionSort_sorted
|}.

(** What the callers use: the first element of a sorted slice is one of its
    elements and none of them is [less] than it. *)
Lemma Slice_head_max `{Sorter} less l best rest :
  StrictWeakOrder less ->
  Slice less l = best :: rest ->
  In best l /\ forall x, In x l -> less x best = false.
Proof.
  intros W E.
  pose proof (Slice_perm less l) as P.
  pose proof (Slice_sorted less l W) as S.
  rewrite E in P, S.
  apply StronglySorted_inv in S as [_ Hbest].
  split.
  - eapply Permutation_in; [exact P | left; reflexivity].
  - intros x Hx.
    apply (Permutation_in x (Permutation_sym P)) in Hx as [<-|Hx].
    + apply (swo_irrefl less W).
    + rewrite List.Forall_forall in Hbest. auto.
Qed.

End SortFacts.

(** ** Facts about the string and number helpers *)
Module StringFacts.
Import Strings Strconv.

Lemma TrimPrefix_v (s : string) :
  TrimPrefix s "v" = match s with
                     | String c rest => if Ascii.eqb "v" c then rest else s
                     | EmptyString => s
                     end.
Proof.
  unfold TrimPrefix. destruct s as [|c rest]; simpl; [reflexivity|].
  destruct (Ascii.eqb "v" c); reflexivity.
Qed.

Lemma Split_not_nil (s : string) (sep : ascii) : Split s sep <> [].
Proof.
  destruct s as [|c s]; simpl; [discriminate|].
  destruct (Ascii.eqb c sep); [discriminate|].
  destruct (Split s sep); discriminate.
Qed.

Lemma Split_cons_length (c : ascii) (s : string) (sep : ascii) :
  Ascii.eqb c sep = false ->
  length (Split (String c s) sep) = length (Split s sep).
Proof.
  intros Hc. simpl. rewrite Hc.
  pose proof (Split_not_nil s sep).
  destruct (Split s sep); [congruence | reflexivity].
Qed.

(** Stripping the [v] does not change the number of components. *)
Lemma Split_TrimPrefix_length (s : string) :
  length (Split (TrimPrefix s "v") ".") = length (Split s ".").
Proof.
  rewrite TrimPrefix_v. destruct s as [|c rest]; [reflexivity|].
  destruct (Ascii.eqb_spec "v" c) as [<-|Hc]; [|reflexivity].
  symmetry. apply Split_cons_length. reflexivity.
Qed.

Lemma TrimPrefix_v_append (rel tag : string) :
  TrimPrefix (rel +:+ "-" +:+ tag) "v" = TrimPrefix rel "v" +:+ "-" +:+ tag.
Proof.
  rewrite !TrimPrefix_v. destruct rel as [|c rest]; simpl; [reflexivity|].
  destruct (Ascii.eqb "v" c); reflexivity.
Qed.

Lemma FieldsFunc_scan_sep f (s1 s2 : string) (c : ascii) cur :
  f c = true ->
  FieldsFunc_scan f (s1 +:+ String c s2) cur
  = FieldsFunc_scan f s1 cur ++ FieldsFunc_scan f s2 None.
Proof.
  intros Hc. revert cur. induction s1 as [|x s1 IH]; intros cur; simpl.
  - rewrite Hc. destruct cur; reflexivity.
  - destruct (f x).
    + destruct cur; simpl; rewrite IH; reflexivity.
    + apply IH.
Qed.

Lemma startsNot_append c (w : string) x :
  w <> EmptyString -> startsNot c w -> startsNot c (w +:+ String x EmptyString).
Proof. destruct w; simpl; [congruence | auto]. Qed.

Lemma append_not_empty (w : string) x : w +:+ String x EmptyString <> EmptyString.
Proof. destruct w; discriminate. Qed.

(** No field found by the scan starts with a separator. *)
Lemma FieldsFunc_scan_starts f (s : string) cur c :
  f c = true ->
  match cur with Some w => w <> EmptyString /\ startsNot c w | None => True end ->
  List.Forall (startsNot c) (FieldsFunc_scan f s cur).
Proof.
  intros Hc. revert cur. induction s as [|x s IH]; intros cur Hcur; simpl.
  - destruct cur as [w|]; [|constructor].
    constructor; [apply Hcur | constructor].
  - destruct (f x) eqn:Hx.
    + destruct cur as [w|]; [constructor; [apply Hcur|]|]; apply IH; exact I.
    + apply IH. destruct cur as [w|].
      * destruct Hcur as [Hne Hst]. split; [apply append_not_empty|].
        apply startsNot_append; assumption.
      * split; [discriminate|]. simpl. intros ->. congruence.
Qed.

Lemma parseDigits_nonneg (s : string) (acc n : Z) :
  (0 <= acc)%Z -> parseDigits s acc = Some n -> (0 <= n)%Z.
Proof.
  revert acc. induction s as [|c s IH]; intros acc Hacc; simpl.
  - intros [= <-]. exact Hacc.
  - unfold digitVal.
    destruct ((48 <=? Z.of_nat (nat_of_ascii c)) && (Z.of_nat (nat_of_ascii c) <=? 57))%Z eqn:Hd;
      [|discriminate].
    apply IH. lia.
Qed.

(** [Atoi] only returns numbers that fit [int]. *)
Lemma Atoi_range (s : string) (n : Z) :
  Atoi s = Some n -> (minInt64 <= n <= maxInt64)%Z.
Proof.
  unfold Atoi. destruct s as [|c rest]; [discriminate|].
  destruct (if Ascii.eqb c "-" then (true, rest)
            else if Ascii.eqb c "+" then (false, rest) else (false, String c rest))
    as [neg body].
  destruct body as [|b body]; [discriminate|].
  destruct (parseDigits (String b body) 0) as [m|]; [|discriminate].
  destruct ((minInt64 <=? (if neg then (- m)%Z else m))
            && ((if neg then (- m)%Z else m) <=? maxInt64))%Z eqn:Hr; [|discriminate].
  intros [= <-]. lia.
Qed.

(** Without a leading minus sign the number is not negative. *)
Lemma Atoi_nonneg (s : string) (n : Z) :
  startsNot "-" s -> Atoi s = Some n -> (0 <= n)%Z.
Proof.
  unfold Atoi. destruct s as [|c rest]; [discriminate|]. simpl. intros Hc.
  destruct (Ascii.eqb_spec c "-") as [->|_]; [congruence|].
  assert (Hbody : forall body,
    match body with
    | EmptyString => None
    | String _ _ =>
        match parseDigits body 0 with
        | Some m => if ((minInt64 <=? m) && (m <=? maxInt64))%Z then Some m else None
        | None => None
        end
    end = Some n -> (0 <= n)%Z).
  { intros body. destruct body as [|b body]; [discriminate|].
    destruct (parseDigits (String b body) 0) as [m|] eqn:Hm; [|discriminate].
    destruct ((minInt64 <=? m) && (m <=? maxInt64))%Z; [|discriminate].
    intros [= <-]. eapply parseDigits_nonneg; [|exact Hm]. lia. }
  destruct (Ascii.eqb c "+"); [apply Hbody | apply (Hbody (String c rest))].
Qed.

End StringFacts.

(** ** The version comparison *)
Module VersionFacts.
Import Strings Strconv Sort Version StringFacts SortFacts.
Local Open Scope Z_scope.

Lemma wrap64_small (z : Z) : - 2 ^ 63 <= z < 2 ^ 63 -> wrap64 z = z.
Proof.
  intros Hz. unfold wrap64.
  rewrite Z.mod_small by lia. lia.
Qed.

Lemma omap_Atoi_range (fields : list string) :
  List.Forall (startsNot "-") fields -> inRange (omap Atoi fields).
Proof.
  induction 1 as [|w fields Hw _ IH]; simpl; [constructor|].
  destruct (Atoi w) as [n|] eqn:Hn; [|exact IH].
  constructor; [|exact IH].
  pose proof (Atoi_range _ _ Hn). pose proof (Atoi_nonneg _ _ Hw Hn). lia.
Qed.

(** Every parsed component is a non-negative [int]. *)
Lemma parseVersionParts_range (v : string) : inRange (parseVersionParts v).
Proof.
  unfold parseVersionParts. apply omap_Atoi_range.
  apply FieldsFunc_scan_starts; [reflexivity | exact I].
Qed.

Lemma nth_inRange (l : list Z) (j : nat) :
  inRange l -> 0 <= nth j l 0 <= maxInt64.
Proof.
  intros Hl. destruct (Nat.lt_ge_cases j (length l)) as [Hj|Hj].
  - unfold inRange in Hl. rewrite List.Forall_forall in Hl.
    apply Hl, nth_In, Hj.
  - rewrite nth_overflow by exact Hj. unfold maxInt64. lia.
Qed.

Lemma compareFrom_antisym (a b : list Z) (i n : nat) :
  inRange a -> inRange b ->
  compareFrom b a i n = - compareFrom a b i n.
Proof.
  intros Ha Hb. revert i. induction n as [|n IH]; intros i; simpl; [reflexivity|].
  rewrite (Z.eqb_sym (nth i b 0)).
  destruct (nth i a 0 =? nth i b 0); [apply IH|].
  pose proof (nth_inRange a i Ha). pose proof (nth_inRange b i Hb).
  unfold maxInt64 in *. rewrite !wrap64_small by lia. lia.
Qed.

Lemma compareFrom_pos (a b : list Z) (i n : nat) :
  inRange a -> inRange b ->
  0 < compareFrom a b i n <->
  exists j, (i <= j < i + n)%nat /\
            (forall k, (i <= k < j)%nat -> nth k a 0 = nth k b 0) /\
            nth j b 0 < nth j a 0.
Proof.
  intros Ha Hb. revert i. induction n as [|n IH]; intros i; simpl.
  - split; [lia | intros (j & Hj & _); lia].
  - destruct (Z.eqb_spec (nth i a 0) (nth i b 0)) as [E|E].
    + rewrite IH. split.
      * intros (j & Hj & Heq & Hlt). exists j. repeat split; [lia|lia| |exact Hlt].
        intros k Hk. destruct (Nat.eq_dec k i) as [->|]; [exact E | apply Heq; lia].
      * intros (j & Hj & Heq & Hlt). exists j.
        assert (j <> i) by (intros ->; lia).
        repeat split; [lia|lia| |exact Hlt].
        intros k Hk. apply Heq. lia.
    + pose proof (nth_inRange a i Ha). pose proof (nth_inRange b i Hb).
      unfold maxInt64 in *. rewrite wrap64_small by lia. split.
      * intros Hpos. exists i. repeat split; [lia|lia| |lia]. intros k Hk; lia.
      * intros (j & Hj & Heq & Hlt).
        destruct (Nat.eq_dec j i) as [->|]; [lia|].
        exfalso. apply E, Heq. lia.
Qed.

Lemma compareFrom_zero (a b : list Z) (i n : nat) :
  inRange a -> inRange b ->
  compareFrom a b i n = 0 <->
  forall j, (i <= j < i + n)%nat -> nth j a 0 = nth j b 0.
Proof.
  intros Ha Hb. revert i. induction n as [|n IH]; intros i; simpl.
  - split; [intros _ j Hj; lia | reflexivity].
  - destruct (Z.eqb_spec (nth i a 0) (nth i b 0)) as [E|E].
    + rewrite IH. split; intros Heq j Hj.
      * destruct (Nat.eq_dec j i) as [->|]; [exact E | apply Heq; lia].
      * apply Heq. lia.
    + pose proof (nth_inRange a i Ha). pose proof (nth_inRange b i Hb).
      unfold maxInt64 in *. rewrite wrap64_small by lia. split.
      * intros Hz. lia.
      * intros Heq. exfalso. apply E, Heq. lia.
Qed.

Lemma component_beyond (a b : string) (j : nat) :
  (Nat.max (length (parseVersionParts a)) (length (parseVersionParts b)) <= j)%nat ->
  component a j = component b j.
Proof.
  intros Hj. unfold component. rewrite !nth_overflow by lia. reflexivity.
Qed.

(** [a] compares above [b] exactly when, at the first component where
    they differ, [a] has the larger number. *)
Lemma compare_pos (a b : string) :
  0 < compareVersionStrings a b <->
  exists j, (forall k, (k < j)%nat -> component a k = component b k) /\
            component b j < component a j.
Proof.
  unfold compareVersionStrings.
  rewrite compareFrom_pos by apply parseVersionParts_range. split.
  - intros (j & Hj & Heq & Hlt). exists j. split; [|exact Hlt].
    intros k Hk. apply Heq. lia.
  - intros (j & Heq & Hlt). exists j. repeat split; [lia| |intros k Hk; apply Heq; lia|exact Hlt].
    simpl. destruct (Nat.lt_ge_cases j
      (Nat.max (length (parseVersionParts a)) (length (parseVersionParts b)))) as [Hj|Hj];
      [exact Hj|].
    pose proof (component_beyond a b j Hj). lia.
Qed.

Lemma compare_zero (a b : string) :
  compareVersionStrings a b = 0 <-> forall j, component a j = component b j.
Proof.
  unfold compareVersionStrings.
  rewrite compareFrom_zero by apply parseVersionParts_range. split.
  - intros Heq j.
    destruct (Nat.lt_ge_cases j
      (Nat.max (length (parseVersionParts a)) (length (parseVersionParts b)))) as [Hj|Hj].
    + apply Heq. lia.
    + apply component_beyond, Hj.
  - intros Heq j _. apply Heq.
Qed.

Lemma compare_antisym (a b : string) :
  compareVersionStrings b a = - compareVersionStrings a b.
Proof.
  unfold compareVersionStrings. rewrite Nat.max_comm.
  apply compareFrom_antisym; apply parseVersionParts_range.
Qed.

Lemma compare_neg (a b : string) :
  compareVersionStrings a b < 0 <->
  exists j, (forall k, (k < j)%nat -> component a k = component b k) /\
            component a j < component b j.
Proof.
  rewrite <- (Z.opp_involutive (compareVersionStrings a b)), <- compare_antisym.
  rewrite Z.opp_neg_pos, compare_pos.
  split; intros (j & Heq & Hlt); exists j; (split; [|exact Hlt]);
    intros k Hk; symmetry; apply Heq, Hk.
Qed.

Lemma compare_pos_trans (x y z : string) :
  0 < compareVersionStrings x y -> 0 < compareVersionStrings y z ->
  0 < compareVersionStrings x z.
Proof.
  rewrite !compare_pos. intros (j1 & E1 & L1) (j2 & E2 & L2).
  destruct (lt_eq_lt_dec j1 j2) as [[Hlt | ->] | Hgt].
  - exists j1. split.
    + intros k Hk. rewrite E1 by exact Hk. apply E2. lia.
    + rewrite <- (E2 j1 Hlt). exact L1.
  - exists j2. split.
    + intros k Hk. rewrite E1 by exact Hk. apply E2, Hk.
    + lia.
  - exists j2. split.
    + intros k Hk. rewrite E1 by lia. apply E2, Hk.
    + rewrite (E1 j2 Hgt). exact L2.
Qed.

Lemma compare_zero_pos (x y z : string) :
  compareVersionStrings x y = 0 -> 0 < compareVersionStrings x z ->
  0 < compareVersionStrings y z.
Proof.
  rewrite compare_zero, !compare_pos. intros E (j & Ej & Lj).
  exists j. split.
  - intros k Hk. rewrite <- E. apply Ej, Hk.
  - rewrite <- E. exact Lj.
Qed.

(** The closure given to [sort.Slice] is a strict weak order, as
    [sort.Slice] requires. *)
Lemma versionGreater_swo : StrictWeakOrder versionGreater.
Proof.
  unfold versionGreater. constructor.
  - intros x. apply Z.ltb_ge.
    pose proof (proj2 (compare_zero x x) (fun _ => eq_refl)) as E.
    rewrite E. lia.
  - intros x y z Hxy Hyz. apply Z.ltb_lt in Hxy, Hyz. apply Z.ltb_lt.
    eapply compare_pos_trans; eassumption.
  - intros x y z Hxy Hyz. apply Z.ltb_ge in Hxy, Hyz. apply Z.ltb_ge.
    destruct (Z.lt_ge_cases 0 (compareVersionStrings x z)) as [Hxz|Hxz]; [|lia].
    exfalso.
    destruct (Z.eq_dec (compareVersionStrings x y) 0) as [E|E].
    + pose proof (compare_zero_pos x y z E Hxz). lia.
    + assert (0 < compareVersionStrings y x) as Hyx
        by (rewrite compare_antisym; lia).
      pose proof (compare_pos_trans y x z Hyx Hxz). lia.
Qed.

End VersionFacts.

(** ** The resolver *)
Module ResolverFacts.
Import Strings Strconv Sort Version StringFacts SortFacts VersionFacts.

Lemma matchesFrom_numeric (versionParts partialParts : list string)
    (nums : list Z) (i : nat) :
  Forall2 (fun part n => Atoi part = Some n) partialParts nums ->
  matchesFrom versionParts partialParts i = true <->
  forall k n, nums !! k = Some n ->
    exists vpart, versionParts !! (i + k)%nat = Some vpart /\ Atoi vpart = Some n.
Proof.
  intros Hnum. revert i.
  induction Hnum as [|part n parts nums Hpart _ IH]; intros i; simpl.
  - split; [intros _ k n Hk; discriminate | reflexivity].
  - rewrite Hpart.
    destruct (versionParts !! i) as [vpart|] eqn:Hv.
    + destruct (Atoi vpart) as [vn|] eqn:Hvn.
      * destruct (Z.eqb_spec n vn) as [<-|Hne].
        -- rewrite IH. split.
           ++ intros Hrest [|k] m Hk; simpl in Hk.
              ** injection Hk as <-. exists vpart. rewrite Nat.add_0_r. auto.
              ** replace (i + S k)%nat with (S i + k)%nat by lia. auto.
           ++ intros Hall k m Hk.
              replace (S i + k)%nat with (i + S k)%nat by lia. apply Hall. exact Hk.
        -- split; [discriminate|]. intros Hall.
           destruct (Hall 0%nat n eq_refl) as (vp & Hvp & Hn).
           rewrite Nat.add_0_r in Hvp. congruence.
      * destruct (String.eqb_spec part vpart) as [->|Hne]; [congruence|].
        split; [discriminate|]. intros Hall.
        destruct (Hall 0%nat n eq_refl) as (vp & Hvp & Hn).
        rewrite Nat.add_0_r in Hvp. congruence.
    + split; [discriminate|]. intros Hall.
      destruct (Hall 0%nat n eq_refl) as (vp & Hvp & _).
      rewrite Nat.add_0_r in Hvp. congruence.
Qed.

(** For a partial whose components are integers, [matchesPartial] decides
    numeric equality of the leading components. *)
Lemma matchesPartial_numeric (version : string) (partialParts : list string)
    (nums : list Z) :
  Forall2 (fun part n => Atoi part = Some n) partialParts nums ->
  matchesPartial version partialParts = true <-> leadingEqual nums version.
Proof.
  intros Hnum. unfold matchesPartial, leadingEqual.
  pose proof (Forall2_length _ _ _ Hnum) as Hlen.
  destruct (Nat.ltb_spec (length (Split (TrimPrefix version "v") "."))
                         (length partialParts)) as [Hshort|Hlong].
  - split; [discriminate|]. intros Hall.
    destruct (lookup_lt_is_Some_2 nums (length (Split (TrimPrefix version "v") ".")))
      as [n Hn]; [lia|].
    destruct (Hall _ _ Hn) as (vp & Hvp & _).
    apply lookup_lt_Some in Hvp. lia.
  - rewrite (matchesFrom_numeric _ _ nums 0 Hnum). reflexivity.
Qed.

Section WithSorter.
Context `{Sorter}.

Lemma Resolve_unfold_partial (input : string) (available : list string) :
  IsPartialVersion input = true ->
  ResolvePartialVersion input available =
    match sortVersionsDesc
            (List.filter (fun v => matchesPartial v (Split (TrimPrefix input "v") "."))
                         available) with
    | best :: _ => Ok best
    | [] => Err (NoMatchingVersion (TrimPrefix input "v"))
    end.
Proof.
  unfold IsPartialVersion, ResolvePartialVersion. intros Hp.
  apply Nat.ltb_lt in Hp.
  destruct (Nat.leb_spec 3 (length (Split (TrimPrefix input "v") "."))) as [Hge|_]; [lia|].
  destruct (List.filter _ available) as [|m ms] eqn:Hm; [|reflexivity].
  unfold sortVersionsDesc.
  pose proof (Slice_perm versionGreater []) as P.
  apply Permutation_nil_r in P. rewrite P. reflexivity.
Qed.

(** What the resolver returns, in terms of its own comparison: for a
    partial input whose one or two components are integers, a candidate
    whose leading components are numerically equal to the input's and that
    no such candidate exceeds under [compareVersionStrings]; it fails, with
    the no-match error, exactly when no candidate has those leading
    components. *)
Theorem ResolvePartialVersion_picks_greatest
    (input : string) (available : list string) (nums : list Z) :
  IsPartialVersion input = true ->
  Forall2 (fun part n => Atoi part = Some n) (Split (TrimPrefix input "v") ".") nums ->
  match ResolvePartialVersion input available with
  | Ok best =>
      In best available /\ leadingEqual nums best /\
      forall v, In v available -> leadingEqual nums v ->
                (0 <= compareVersionStrings best v)%Z
  | Err e =>
      e = NoMatchingVersion (TrimPrefix input "v") /\
      forall v, In v available -> ~ leadingEqual nums v
  end.
Proof.
  intros Hp Hnum. rewrite (Resolve_unfold_partial _ _ Hp).
  set (parts := Split (TrimPrefix input "v") ".") in *.
  set (matches := List.filter (fun v => matchesPartial v parts) available).
  assert (Hin : forall v, In v matches <-> In v available /\ leadingEqual nums v).
  { intros v. unfold matches. rewrite List.filter_In.
    rewrite (matchesPartial_numeric v parts nums Hnum). reflexivity. }
  unfold sortVersionsDesc.
  destruct (Slice versionGreater matches) as [|best rest] eqn:Hs.
  - split; [reflexivity|]. intros v Hv Hm.
    pose proof (Slice_perm versionGreater matches) as P. rewrite Hs in P.
    apply Permutation_nil in P.
    assert (In v matches) as Hvm by (apply Hin; auto).
    rewrite P in Hvm. destruct Hvm.
  - destruct (Slice_head_max versionGreater matches best rest versionGreater_swo Hs)
      as [Hbest Hmax].
    apply Hin in Hbest as [Hb1 Hb2]. repeat split; [exact Hb1 | exact Hb2 |].
    intros v Hv Hm.
    assert (In v matches) as Hvm by (apply Hin; auto).
    specialize (Hmax v Hvm). unfold versionGreater in Hmax.
    apply Z.ltb_ge in Hmax. rewrite compare_antisym. lia.
Qed.

(** C2: an input of three or more components is returned as it is, its
    leading [v] stripped, whatever the candidates. *)
Theorem ResolvePartialVersion_full_passthrough
    (input : string) (available : list string) :
  3 <= length (Split input ".") ->
  ResolvePartialVersion input available = Ok (TrimPrefix input "v").
Proof.
  intros Hlen. unfold ResolvePartialVersion.
  rewrite Split_TrimPrefix_length.
  destruct (Nat.leb_spec 3 (length (Split input "."))) as [_|Hlt]; [reflexivity | lia].
Qed.

(** C5 (amended): a partial input resolved against an empty candidate list
    fails with the no-match error, and so does one no candidate matches:
    the two failures are the same error. *)
Theorem ResolvePartialVersion_no_candidates
    (input : string) (available : list string) :
  IsPartialVersion input = true ->
  ResolvePartialVersion input [] = Err (NoMatchingVersion (TrimPrefix input "v")) /\
  ((forall v, In v available ->
      matchesPartial v (Split (TrimPrefix input "v") ".") = false) ->
   ResolvePartialVersion input available = ResolvePartialVersion input []).
Proof.
  intros Hp. rewrite !(Resolve_unfold_partial _ _ Hp). simpl.
  assert (E : sortVersionsDesc [] = []).
  { unfold sortVersionsDesc.
    pose proof (Slice_perm versionGreater []) as P.
    apply Permutation_nil_r in P. exact P. }
  rewrite E. split; [reflexivity|].
  intros Hnone.
  assert (List.filter (fun v => matchesPartial v (Split (TrimPrefix input "v") "."))
            available = []) as ->.
  { induction available as [|v vs IH]; [reflexivity|]. simpl.
    rewrite (Hnone v) by (left; reflexivity).
    apply IH. intros w Hw. apply Hnone. right. exact Hw. }
  rewrite E. reflexivity.
Qed.

End WithSorter.

(** What the comparison computes, in terms of the fields
    [parseVersionParts] reads: the sign is that of the first differing
    numeric field, a missing one counting as 0; so a tag added after a [-]
    never puts a version below the version without it, and a tag without an
    integer field leaves the two equal. *)
Theorem compareVersionStrings_by_components (a b tag : string) :
  ((0 < compareVersionStrings a b)%Z <->
     exists j, (forall k, k < j -> component a k = component b k) /\
               (component b j < component a j)%Z) /\
  (compareVersionStrings a b = 0%Z <-> forall j, component a j = component b j) /\
  ((compareVersionStrings a b < 0)%Z <->
     exists j, (forall k, k < j -> component a k = component b k) /\
               (component a j < component b j)%Z) /\
  (0 <= compareVersionStrings (a +:+ "-" +:+ tag) a)%Z /\
  (omap Atoi (FieldsFunc tag isSeparator) = [] ->
   compareVersionStrings (a +:+ "-" +:+ tag) a = 0%Z).
Proof.
  split; [apply compare_pos|]. split; [apply compare_zero|].
  split; [apply compare_neg|].
  assert (E : parseVersionParts (a +:+ "-" +:+ tag)
              = parseVersionParts a ++ omap Atoi (FieldsFunc tag isSeparator)).
  { unfold parseVersionParts, FieldsFunc. rewrite TrimPrefix_v_append.
    change ("-" +:+ tag) with (String "-" tag).
    rewrite FieldsFunc_scan_sep by reflexivity.
    apply omap_app. }
  split; cycle 1.
  { intros Hnone. apply compare_zero. intros j. unfold component.
    rewrite E, Hnone, app_nil_r. reflexivity. }
  destruct (Z.lt_ge_cases (compareVersionStrings (a +:+ "-" +:+ tag) a) 0)
    as [Hneg|Hge]; [|lia].
  exfalso. apply compare_neg in Hneg as (j & _ & Hlt).
  unfold component in Hlt.
  pose proof (parseVersionParts_range (a +:+ "-" +:+ tag)) as Hr.
  pose proof (nth_inRange _ j Hr) as Hj.
  rewrite E in Hlt, Hj.
  destruct (Nat.lt_ge_cases j (length (parseVersionParts a))) as [Hin|Hout].
  - rewrite app_nth1 in Hlt by exact Hin. lia.
  - rewrite (nth_overflow (parseVersionParts a)) in Hlt by exact Hout. lia.
Qed.

End ResolverFacts.

(** ** The resolver on concrete inputs *)
Module ResolverExamples.
Import Strings Strconv Sort Version SortFacts ResolverFacts.
Local Open Scope string_scope.

(** The cases of the repository's tests. *)
Example resolve_major_only :
  ResolvePartialVersion "22"
    ["22.0.0"; "22.5.0"; "22.15.0"; "22.15.1"; "21.0.0"; "20.10.0"] = Ok "22.15.1"
  /\ ResolvePartialVersion "v22"
    ["22.0.0"; "22.5.0"; "22.15.0"; "22.15.1"; "21.0.0"; "20.10.0"] = Ok "22.15.1"
  /\ ResolvePartialVersion "20"
    ["22.0.0"; "22.5.0"; "22.15.0"; "22.15.1"; "21.0.0"; "20.10.0"] = Ok "20.10.0".
Proof. vm_compute. auto. Qed.

Example resolve_major_minor :
  ResolvePartialVersion "14.21" ["14.21.0"; "14.21.3"; "14.20.0"; "14.20.1"; "14.19.0"]
    = Ok "14.21.3"
  /\ ResolvePartialVersion "3.9"
       ["3.9.0"; "3.9.18"; "3.10.0"; "3.10.13"; "3.11.0"; "3.11.7"; "3.12.0"; "3.12.1"]
    = Ok "3.9.18".
Proof. vm_compute. auto. Qed.

Example resolve_no_match :
  ResolvePartialVersion "99" ["22.0.0"; "21.0.0"] = Err (NoMatchingVersion "99")
  /\ ResolvePartialVersion "22.99" ["22.0.0"; "21.0.0"] = Err (NoMatchingVersion "22.99").
Proof. vm_compute. auto. Qed.

Example sortVersionsDesc_test :
  sortVersionsDesc ["22.0.0"; "22.15.1"; "21.0.0"; "22.15.0"; "22.5.0"]
  = ["22.15.1"; "22.15.0"; "22.5.0"; "22.0.0"; "21.0.0"].
Proof. vm_compute. reflexivity. Qed.

Example compareVersionStrings_test :
  (compareVersionStrings "22.15.1" "22.15.0" = 1
   /\ compareVersionStrings "22.15.0" "22.5.0" = 10
   /\ compareVersionStrings "3.10.0" "3.9.0" = 1
   /\ compareVersionStrings "22.0.0" "21.99.99" = 1
   /\ compareVersionStrings "22.15.0" "22.15.0" = 0)%Z.
Proof. vm_compute. auto. Qed.

Example parseVersionParts_test :
  parseVersionParts "v22.15.0" = [22; 15; 0]%Z
  /\ parseVersionParts "3.2.2-1" = [3; 2; 2; 1]%Z
  /\ parseVersionParts "3.4.0-preview1" = [3; 4; 0]%Z.
Proof. vm_compute. auto. Qed.

(** A candidate list holding a release and a release candidate of it:
    both match ["22"], and the resolver returns the release candidate. *)
Lemma ResolvePartialVersion_prefers_prerelease :
  ResolvePartialVersion "22" ["22.0.0"; "22.0.0-rc.1"] = Ok "22.0.0-rc.1"
  /\ matchesPartial "22.0.0" (Split "22" ".") = true
  /\ matchesPartial "22.0.0-rc.1" (Split "22" ".") = true
  /\ "22.0.0-rc.1" = "22.0.0" +:+ "-" +:+ "rc.1".
Proof. vm_compute. auto. Qed.

Lemma ResolvePartialVersion_picks_greatest_witness :
  IsPartialVersion "v22" = true /\
  Forall2 (fun part n => Atoi part = Some n) (Split (TrimPrefix "v22" "v") ".") [22%Z] /\
  match ResolvePartialVersion "v22"
          ["22.0.0"; "22.5.0"; "22.15.0"; "22.15.1"; "21.0.0"; "20.10.0"] with
  | Ok best =>
      In best ["22.0.0"; "22.5.0"; "22.15.0"; "22.15.1"; "21.0.0"; "20.10.0"] /\
      leadingEqual [22%Z] best /\
      forall v, In v ["22.0.0"; "22.5.0"; "22.15.0"; "22.15.1"; "21.0.0"; "20.10.0"] ->
                leadingEqual [22%Z] v -> (0 <= compareVersionStrings best v)%Z
  | Err e =>
      e = NoMatchingVersion (TrimPrefix "v22" "v") /\
      forall v, In v ["22.0.0"; "22.5.0"; "22.15.0"; "22.15.1"; "21.0.0"; "20.10.0"] ->
                ~ leadingEqual [22%Z] v
  end.
Proof.
  split; [reflexivity|]. split; [repeat constructor|].
  apply ResolvePartialVersion_picks_greatest; [reflexivity|].
  repeat constructor.
Defined.

Lemma ResolvePartialVersion_full_passthrough_witness :
  3 <= length (Split "v22.15.0" ".") /\
  ResolvePartialVersion "v22.15.0" ["22.15.1"] = Ok "22.15.0".
Proof.
  split; [vm_compute; lia|].
  apply (ResolvePartialVersion_full_passthrough "v22.15.0" ["22.15.1"]).
  vm_compute; lia.
Defined.

(** A pre-release tag without a numeric field compares equal to the
    release, one with a numeric field compares above it. *)
Lemma compareVersionStrings_prerelease_not_below :
  compareVersionStrings "22.0.0-rc1" "22.0.0" = 0%Z
  /\ compareVersionStrings "22.0.0-rc.1" "22.0.0" = 1%Z.
Proof. vm_compute. auto. Qed.

Example prerelease_tag_without_integer_field :
  omap Atoi (FieldsFunc "rc1" isSeparator) = []
  /\ omap Atoi (FieldsFunc "rc.1" isSeparator) = [1%Z].
Proof. vm_compute. auto. Qed.

(** C5, at an input: a full version resolved against an empty candidate
    list does not fail. *)
Lemma ResolvePartialVersion_full_input_empty_list :
  ResolvePartialVersion "22.15.0" [] = Ok "22.15.0".
Proof. vm_compute. reflexivity. Qed.

Lemma ResolvePartialVersion_no_candidates_witness :
  IsPartialVersion "22" = true /\
  ResolvePartialVersion "22" [] = Err (NoMatchingVersion "22") /\
  ResolvePartialVersion "22" ["21.0.0"; "20.10.0"] = ResolvePartialVersion "22" [].
Proof.
  split; [reflexivity|].
  destruct (ResolvePartialVersion_no_candidates "22" ["21.0.0"; "20.10.0"] eq_refl)
    as [Hempty Hsame].
  split; [exact Hempty|].
  apply Hsame. intros v [<-|[<-|[]]]; reflexivity.
Defined.

End ResolverExamples.

(** ** The default manifest source *)
Module ManifestFacts.
Import Manifest.

Section DefaultSource.
Variable DefaultRemoteURL : string.
Variable DefaultCacheTTL : Z.
Variable DefaultPaths_Cache : string.
Variable filepath_Join : string -> string -> string.

Abbreviation DefaultSource' :=
  (DefaultSource DefaultRemoteURL DefaultCacheTTL DefaultPaths_Cache filepath_Join).
Abbreviation DefaultSource_calls' :=
  (DefaultSource_calls DefaultRemoteURL DefaultCacheTTL DefaultPaths_Cache filepath_Join).

(** Once the [sync.Once] is done, a call only reads [defaultSource]. *)
Lemma DefaultSource_done (p : Process) :
  defaultSourceOnce p = true -> DefaultSource' p = (defaultSource p, p).
Proof.
  intros Hdone. unfold DefaultSource, bind, defaultSourceOnce_Do.
  rewrite Hdone. reflexivity.
Qed.

(** A call leaves the [sync.Once] done and returns what [defaultSource]
    then holds. *)
Lemma DefaultSource_marks_done (p : Process) :
  defaultSourceOnce (snd (DefaultSource' p)) = true /\
  defaultSource (snd (DefaultSource' p)) = fst (DefaultSource' p).
Proof.
  unfold DefaultSource, bind, defaultSourceOnce_Do.
  destruct (defaultSourceOnce p) eqn:Hdone; simpl; auto.
Qed.

Lemma DefaultSource_again (p : Process) :
  DefaultSource' (snd (DefaultSource' p))
  = (fst (DefaultSource' p), snd (DefaultSource' p)).
Proof.
  destruct (DefaultSource_marks_done p) as [Hdone Hsrc].
  rewrite (DefaultSource_done _ Hdone), Hsrc. reflexivity.
Qed.

Lemma DefaultSource_calls_done (n : nat) (p : Process) :
  defaultSourceOnce p = true ->
  DefaultSource_calls' n p = (repeat (defaultSource p) n, p).
Proof.
  intros Hdone. induction n as [|n IH]; [reflexivity|].
  cbn [DefaultSource_calls]. unfold bind at 1.
  rewrite (DefaultSource_done p Hdone). unfold bind at 1. rewrite IH.
  reflexivity.
Qed.

(** C4: the first call of a process builds Fallback(Cached(Remote),
    Embedded), four objects in all; every call, from any state, leaves the
    process such that the next call returns the same pointer and changes
    nothing; so any number of calls return the one pointer and the heap
    still holds the one chain. *)
Theorem DefaultSource_memoized (n : nat) (p : Process) :
  let first := DefaultSource' newProcess in
  chainOf 3 (heap (snd first)) (fst first)
    = Some (Fallback
              (Cached (Remote DefaultRemoteURL)
                      (filepath_Join DefaultPaths_Cache "manifests")
                      DefaultCacheTTL)
              Embedded) /\
  length (heap (snd first)) = 4 /\
  DefaultSource_calls' (S n) newProcess = (repeat (fst first) (S n), snd first) /\
  DefaultSource' (snd (DefaultSource' p))
    = (fst (DefaultSource' p), snd (DefaultSource' p)).
Proof.
  cbv zeta. split; [reflexivity|]. split; [reflexivity|].
  split; [|apply DefaultSource_again].
  cbn [DefaultSource_calls]. unfold bind at 1.
  destruct (DefaultSource' newProcess) as [s p1] eqn:Hfirst.
  unfold bind at 1.
  assert (Hp1 : p1 = snd (DefaultSource' newProcess)) by (rewrite Hfirst; reflexivity).
  assert (Hs : s = fst (DefaultSource' newProcess)) by (rewrite Hfirst; reflexivity).
  destruct (DefaultSource_marks_done newProcess) as [Hdone Hsrc].
  rewrite <- Hp1 in Hdone, Hsrc. rewrite <- Hs in Hsrc.
  rewrite (DefaultSource_calls_done n p1 Hdone), Hsrc. reflexivity.
Qed.

(** The memo lasts until [ResetDefaultSource]: the call after a reset
    builds a second chain. *)
Lemma ResetDefaultSource_rebuilds :
  let p1 := snd (DefaultSource' newProcess) in
  let p2 := snd (ResetDefaultSource p1) in
  fst (DefaultSource' p2) = Some 7 /\ fst (DefaultSource' newProcess) = Some 3.
Proof. cbv zeta. split; reflexivity. Qed.

End DefaultSource.

End ManifestFacts.

(** ** Listing installed versions *)
Module CmdFacts.
Import Cmd.

(** C8: a version is shown as the active one exactly when it is the local
    selection, or it is the global selection and no local selection is
    set; so with a local selection set, only the version equal to it is
    active. *)
Theorem printVersionLine_active (version globalVersion localVersion : string) :
  (fst (printVersionLine version globalVersion localVersion) = ActiveVersion version <->
     version = localVersion \/ (version = globalVersion /\ localVersion = EmptyString)) /\
  (fst (printVersionLine version globalVersion localVersion) = Plain version <->
     ~ (version = localVersion \/ (version = globalVersion /\ localVersion = EmptyString))) /\
  (localVersion <> EmptyString ->
     (fst (printVersionLine version globalVersion localVersion) = ActiveVersion version <->
        version = localVersion)).
Proof.
  unfold printVersionLine.
  destruct (String.eqb_spec version localVersion) as [El|El];
    destruct (String.eqb_spec version globalVersion) as [Eg|Eg];
    destruct (String.eqb_spec localVersion EmptyString) as [Ee|Ee];
    simpl; repeat split; intros; try discriminate; try tauto; try congruence;
      intuition congruence.
Qed.

(** Global 22.0.0 and local 20.0.0: only 20.0.0 is shown active. *)
Example printVersionLine_local_over_global :
  printVersionLine "22.0.0" "22.0.0" "20.0.0" = (Plain "22.0.0", " " +:+ globalIndicator)
  /\ printVersionLine "20.0.0" "22.0.0" "20.0.0"
     = (ActiveVersion "20.0.0", " " +:+ localIndicator)
  /\ printVersionLine "22.0.0" "22.0.0" ""
     = (ActiveVersion "22.0.0", " " +:+ globalIndicator)
  /\ printVersionLine "18.0.0" "22.0.0" "" = (Plain "18.0.0", "").
Proof. vm_compute. repeat split. Qed.

End CmdFacts.

(** ** Loading the settings *)
Module ConfigFacts.
Import Config.

Section Load.
Variable json_Unmarshal : string -> result string Settings.

Lemma LoadSettings_valid (file : result ReadError string) (settings : Settings) :
  LoadSettings json_Unmarshal file = Ok settings ->
  installType settings = InstallTypeSystem \/ installType settings = InstallTypeUser.
Proof.
  unfold LoadSettings.
  destruct file as [data|[|msg]]; [|intros [= <-]; auto|discriminate].
  destruct (json_Unmarshal data) as [[t]|msg]; [|discriminate]. simpl.
  destruct (String.eqb_spec t InstallTypeSystem) as [Es|Es];
    destruct (String.eqb_spec t InstallTypeUser) as [Eu|Eu]; simpl;
    intros [= <-]; simpl; auto.
Qed.

Lemma LoadSettings_coerces (data : string) (settings : Settings) :
  json_Unmarshal data = Ok settings ->
  installType settings <> InstallTypeSystem ->
  installType settings <> InstallTypeUser ->
  LoadSettings json_Unmarshal (Ok data) = Ok {| installType := InstallTypeSystem |}.
Proof.
  intros Hdec Hs Hu. unfold LoadSettings. rewrite Hdec.
  destruct (String.eqb_spec (installType settings) InstallTypeSystem); [contradiction|].
  destruct (String.eqb_spec (installType settings) InstallTypeUser); [contradiction|].
  reflexivity.
Qed.

Lemma LoadSettings_fails (file : result ReadError string) :
  is_Ok (LoadSettings json_Unmarshal file) = false <->
  (exists msg, file = Err (ErrOther msg)) \/
  (exists data msg, file = Ok data /\ json_Unmarshal data = Err msg).
Proof.
  unfold LoadSettings. destruct file as [data|[|msg]].
  - destruct (json_Unmarshal data) as [settings|msg] eqn:Hdec.
    + split.
      * destruct (negb _ && negb _); discriminate.
      * intros [[m Hm]|(d & m & Hd & Hm)]; [discriminate|].
        injection Hd as <-. congruence.
    + split; [intros _; right; eauto | reflexivity].
  - split; [discriminate|].
    intros [[m Hm]|(d & m & Hd & _)]; discriminate.
  - split; [intros _; left; eauto | reflexivity].
Qed.

Lemma IsUserInstall_true (file : result ReadError string) :
  IsUserInstall json_Unmarshal file = true <->
  exists data, file = Ok data /\
               json_Unmarshal data = Ok {| installType := InstallTypeUser |}.
Proof.
  unfold IsUserInstall, LoadSettings. destruct file as [data|[|msg]].
  - destruct (json_Unmarshal data) as [[t]|msg] eqn:Hdec; simpl.
    + destruct (String.eqb_spec t InstallTypeSystem) as [Es|Es];
        destruct (String.eqb_spec t InstallTypeUser) as [Eu|Eu]; simpl.
      * subst t. discriminate.
      * subst t. split; [discriminate|].
        intros (d & Hd & Hu). injection Hd as <-. rewrite Hdec in Hu. discriminate.
      * subst t. split; [intros _; eauto | reflexivity].
      * split; [discriminate|].
        intros (d & Hd & Hu). injection Hd as <-. rewrite Hdec in Hu. congruence.
    + split; [discriminate|].
      intros (d & Hd & Hu). injection Hd as <-. rewrite Hdec in Hu. discriminate.
  - split; [discriminate|]. intros (d & Hd & _). discriminate.
  - split; [discriminate|]. intros (d & Hd & _). discriminate.
Qed.

(** C9: whatever the file and the decoder, a loaded [Settings] has
    install type "system" or "user"; a missing file gives "system"; a
    decoded value with another install type is turned into "system"; and
    loading fails exactly when the file cannot be read for a reason other
    than its absence, or the decoder fails. *)
Theorem LoadSettings_install_type (file : result ReadError string) :
  (forall settings, LoadSettings json_Unmarshal file = Ok settings ->
     installType settings = InstallTypeSystem \/ installType settings = InstallTypeUser) /\
  LoadSettings json_Unmarshal (Err ErrNotExist)
    = Ok {| installType := InstallTypeSystem |} /\
  (forall data settings,
     json_Unmarshal data = Ok settings ->
     installType settings <> InstallTypeSystem ->
     installType settings <> InstallTypeUser ->
     LoadSettings json_Unmarshal (Ok data) = Ok {| installType := InstallTypeSystem |}) /\
  (is_Ok (LoadSettings json_Unmarshal file) = false <->
     (exists msg, file = Err (ErrOther msg)) \/
     (exists data msg, file = Ok data /\ json_Unmarshal data = Err msg)) /\
  (IsUserInstall json_Unmarshal file = true ->
     exists settings, LoadSettings json_Unmarshal file = Ok settings /\
                      installType settings = InstallTypeUser).
Proof.
  split; [apply LoadSettings_valid|]. split; [reflexivity|].
  split; [apply LoadSettings_coerces|]. split; [apply LoadSettings_fails|].
  unfold IsUserInstall.
  destruct (LoadSettings json_Unmarshal file) as [settings|e]; [|discriminate].
  intros Hu. exists settings. split; [reflexivity|].
  apply String.eqb_eq, Hu.
Qed.

End Load.

Example LoadSettings_cases :
  LoadSettings plainDecoder (Err ErrNotExist) = Ok {| installType := "system" |}
  /\ LoadSettings plainDecoder (Ok "user") = Ok {| installType := "user" |}
  /\ LoadSettings plainDecoder (Ok "portable") = Ok {| installType := "system" |}
  /\ LoadSettings plainDecoder (Ok "malformed")
     = Err (UnmarshalFailed "invalid character")
  /\ LoadSettings plainDecoder (Err (ErrOther "permission denied"))
     = Err (ReadFailed (ErrOther "permission denied"))
  /\ IsUserInstall plainDecoder (Ok "user") = true
  /\ IsUserInstall plainDecoder (Ok "portable") = false
  /\ IsUserInstall plainDecoder (Err (ErrOther "permission denied")) = false.
Proof. vm_compute. repeat split. Qed.

End ConfigFacts.

(** ** Retrying a request *)
Module RetryFacts.
Import Mirror.

Lemma backoff_linear (attempt : Z) :
  (0 <= attempt <= 4611686018)%Z -> backoff attempt = (2 * Second * attempt)%Z.
Proof.
  intros Ha. unfold backoff, Second, wrap64.
  rewrite (Z.mod_small (attempt * 2 + 2 ^ 63)) by lia.
  rewrite Z.mod_small by lia. lia.
Qed.

Section Retry.
Variable network : string -> nat -> GetResult.

Lemma retryLoop_spec (fuel : nat) (url : string) (maxRetries attempt : Z)
    (lastErr : option error) (w : World) :
  (1 <= attempt)%Z -> (maxRetries <= 4611686018)%Z ->
  attempt = (maxRetries + 1 - Z.of_nat fuel)%Z ->
  exists resp err w',
    retryLoop network fuel url maxRetries attempt lastErr w = Some ((resp, err), w') /\
    requests w <= requests w' /\
    requests w' - requests w <= fuel /\
    (forall i, 1 <= i < requests w' - requests w ->
               transient (network url (requests w + i)) = true) /\
    slept w' = slept w ++
               map (fun i => (2 * Second * (attempt + Z.of_nat i - 1))%Z)
                   (seq 1 (requests w' - requests w - 1)) /\
    match resp with
    | Some code =>
        1 <= requests w' - requests w /\
        network url (requests w') = Response code /\
        (code < 500)%Z /\ err = None
    | None =>
        requests w' - requests w = fuel /\
        (forall i, 1 <= i <= requests w' - requests w ->
                   transient (network url (requests w + i)) = true) /\
        err = match requests w' - requests w with
              | O => lastErr
              | S _ => Some (errorOf (network url (requests w')))
              end
    end.
Proof.
  revert attempt lastErr w. induction fuel as [|fuel IH]; intros attempt lastErr w Ha Hmax Hfuel.
  - exists None, lastErr, w. simpl.
    destruct (Z.leb_spec attempt maxRetries) as [Hle|_]; [lia|].
    rewrite Nat.sub_diag. simpl. rewrite app_nil_r.
    repeat split; auto; intros; lia.
  - cbn [retryLoop].
    destruct (Z.leb_spec attempt maxRetries) as [_|Hgt]; [|lia].
    unfold httpClient_Get.
    assert (Hnext : wrap64 (attempt + 1) = (attempt + 1)%Z).
    { unfold wrap64. rewrite Z.mod_small by lia. lia. }
    rewrite Hnext.
    (* what a transient failure leads to, whatever was recorded *)
    assert (Hretry : forall (lastErr' : option error) (cl : list nat),
      transient (network url (S (requests w))) = true ->
      lastErr' = Some (errorOf (network url (S (requests w)))) ->
      exists resp err w',
        retryLoop network fuel url maxRetries (attempt + 1) lastErr'
          (if (attempt <? maxRetries)%Z
           then Sleep (backoff attempt)
                  {| requests := S (requests w); slept := slept w; closed := cl |}
           else {| requests := S (requests w); slept := slept w; closed := cl |})
        = Some ((resp, err), w') /\
        requests w <= requests w' /\
        requests w' - requests w <= S fuel /\
        (forall i, 1 <= i < requests w' - requests w ->
                   transient (network url (requests w + i)) = true) /\
        slept w' = slept w ++
                   map (fun i => (2 * Second * (attempt + Z.of_nat i - 1))%Z)
                       (seq 1 (requests w' - requests w - 1)) /\
        match resp with
        | Some code =>
            1 <= requests w' - requests w /\
            network url (requests w') = Response code /\
            (code < 500)%Z /\ err = None
        | None =>
            requests w' - requests w = S fuel /\
            (forall i, 1 <= i <= requests w' - requests w ->
                       transient (network url (requests w + i)) = true) /\
            err = match requests w' - requests w with
                  | O => lastErr
                  | S _ => Some (errorOf (network url (requests w')))
                  end
        end).
    { intros lastErr' cl Htr Hlast.
      set (w2 := if (attempt <? maxRetries)%Z then _ else _).
      assert (Hreq : requests w2 = S (requests w))
        by (unfold w2; destruct (attempt <? maxRetries)%Z; reflexivity).
      assert (Hslept : slept w2 = slept w ++
                if (attempt <? maxRetries)%Z then [(2 * Second * attempt)%Z] else []).
      { unfold w2. destruct (attempt <? maxRetries)%Z; simpl.
        - rewrite backoff_linear by lia. reflexivity.
        - rewrite app_nil_r. reflexivity. }
      destruct (IH (attempt + 1)%Z lastErr' w2) as (resp & err & w' & Hrun & Hle & Hk & Htrans & Hsl & Hres);
        [lia | lia | lia |].
      exists resp, err, w'. rewrite Hreq in *.
      split; [exact Hrun|]. split; [lia|]. split; [lia|].
      assert (Htrans' : forall i, 1 <= i < requests w' - requests w ->
                transient (network url (requests w + i)) = true).
      { intros i Hi. destruct (Nat.eq_dec i 1) as [->|Hne].
        - rewrite Nat.add_1_r. exact Htr.
        - replace (requests w + i) with (S (requests w) + (i - 1)) by lia.
          apply Htrans. lia. }
      split; [exact Htrans'|].
      assert (Hk1 : (attempt <? maxRetries)%Z = true -> 1 <= requests w' - S (requests w)).
      { intros Hlt. apply Z.ltb_lt in Hlt.
        destruct resp as [code|]; [apply Hres|].
        destruct Hres as [Hfull _]. lia. }
      split.
      { rewrite Hsl, Hslept, <- app_assoc. f_equal.
        destruct (attempt <? maxRetries)%Z eqn:Hlt.
        - specialize (Hk1 eq_refl).
          replace (requests w' - requests w - 1) with (S (requests w' - S (requests w) - 1)) by lia.
          cbn [seq map app]. f_equal; [f_equal; lia|].
          rewrite <- (seq_shift (requests w' - S (requests w) - 1) 1), map_map.
          apply map_ext. intros i. f_equal. lia.
        - apply Z.ltb_ge in Hlt.
          assert (requests w' - S (requests w) = 0) as E0 by lia.
          rewrite E0. replace (requests w' - requests w - 1) with 0 by lia.
          reflexivity. }
      destruct resp as [code|].
      - destruct Hres as (H1 & Hnet & Hcode & Herr).
        repeat split; [lia | exact Hnet | exact Hcode | exact Herr].
      - destruct Hres as (Hfull & Hall & Herr).
        split; [lia|]. split.
        + intros i Hi. destruct (Nat.eq_dec i 1) as [->|Hne].
          * rewrite Nat.add_1_r. exact Htr.
          * replace (requests w + i) with (S (requests w) + (i - 1)) by lia.
            apply Hall. lia.
        + replace (requests w' - requests w) with (S (requests w' - S (requests w))) by lia.
          rewrite Herr.
          destruct (requests w' - S (requests w)) eqn:E0; [|reflexivity].
          assert (requests w' = S (requests w)) as -> by lia.
          exact Hlast. }
    destruct (network url (S (requests w))) as [e|code] eqn:Hnet.
    + apply (Hretry _ (closed w)); reflexivity.
    + destruct (Z.leb_spec 500 code) as [Hsrv|Hok].
      * unfold Body_Close. cbn [requests slept closed].
        apply (Hretry _ (closed w ++ [S (requests w)])); [|reflexivity].
        simpl. apply Z.leb_le, Hsrv.
      * eexists (Some code), None, _. split; [reflexivity|]. cbn [requests slept].
        replace (S (requests w) - requests w) with 1 by lia. simpl.
        rewrite app_nil_r. repeat split; auto; try lia.
Qed.

(** C6: for a retry bound up to 4611686018 (beyond it the backoff no
    longer fits [time.Duration]) the function returns after at most
    [maxRetries] requests; every request but the last failed with an error
    or a status of 500 or more; between two requests it sleeps 2 seconds
    times the number of the failed attempt; a response below 500 is
    returned at once, with a nil error; and when every request failed, the
    last failure is the error returned. *)
Theorem httpGetWithRetry_bounded (url : string) (maxRetries : Z) (w : World) :
  (0 <= maxRetries <= 4611686018)%Z ->
  exists resp err w',
    httpGetWithRetry network url maxRetries w = Some ((resp, err), w') /\
    requests w <= requests w' /\
    (Z.of_nat (requests w' - requests w) <= maxRetries)%Z /\
    (forall i, 1 <= i < requests w' - requests w ->
               transient (network url (requests w + i)) = true) /\
    slept w' = slept w ++
               map (fun i => (2 * Second * Z.of_nat i)%Z)
                   (seq 1 (requests w' - requests w - 1)) /\
    match resp with
    | Some code =>
        1 <= requests w' - requests w /\
        network url (requests w') = Response code /\
        (code < 500)%Z /\ err = None
    | None =>
        Z.of_nat (requests w' - requests w) = maxRetries /\
        (forall i, 1 <= i <= requests w' - requests w ->
                   transient (network url (requests w + i)) = true) /\
        err = match requests w' - requests w with
              | O => None
              | S _ => Some (errorOf (network url (requests w')))
              end
    end.
Proof.
  intros Hn. unfold httpGetWithRetry.
  destruct (retryLoop_spec (Z.to_nat maxRetries) url maxRetries 1 None w)
    as (resp & err & w' & Hrun & Hle & Hk & Htrans & Hsl & Hres); [lia | lia | lia |].
  exists resp, err, w'. split; [exact Hrun|]. split; [exact Hle|].
  split; [lia|]. split; [exact Htrans|]. split.
  - rewrite Hsl. f_equal. apply map_ext. intros i. f_equal. lia.
  - destruct resp as [code|]; [exact Hres|].
    destruct Hres as (Hfull & Hall & Herr). split; [lia|]. split; [exact Hall | exact Herr].
Qed.

End Retry.

Example httpGetWithRetry_flaky :
  httpGetWithRetry flakyNetwork "https://example.org" 3 newWorld
  = Some ((Some 200%Z, None),
          {| requests := 3; slept := [2000000000; 4000000000]%Z; closed := [2] |}).
Proof. vm_compute. reflexivity. Qed.

Example httpGetWithRetry_gives_up :
  httpGetWithRetry (fun _ _ => Response 503) "https://example.org" 3 newWorld
  = Some ((None, Some (HTTPStatus 503)),
          {| requests := 3; slept := [2000000000; 4000000000]%Z; closed := [1; 2; 3] |}).
Proof. vm_compute. reflexivity. Qed.

Example httpGetWithRetry_not_found :
  httpGetWithRetry (fun _ _ => Response 404) "https://example.org" 3 newWorld
  = Some ((Some 404%Z, None), {| requests := 1; slept := []; closed := [] |}).
Proof. vm_compute. reflexivity. Qed.

Lemma httpGetWithRetry_bounded_witness :
  (0 <= 3 <= 4611686018)%Z /\
  exists resp err w',
    httpGetWithRetry flakyNetwork "https://example.org" 3 newWorld
      = Some ((resp, err), w') /\
    (Z.of_nat (requests w' - requests newWorld) <= 3)%Z.
Proof.
  split; [lia|].
  destruct (httpGetWithRetry_bounded flakyNetwork "https://example.org" 3 newWorld)
    as (resp & err & w' & Hrun & _ & Hk & _); [lia|].
  exists resp, err, w'. split; [exact Hrun | exact Hk].
Defined.

End RetryFacts.

(** ** Collecting the mirror jobs *)
Module MirrorFacts.
Import Mirror.

Lemma seenIs_empty : seenIs ∅ [].
Proof.
  intros key. unfold seenAt. rewrite lookup_empty. simpl.
  split; [discriminate | intros Hin; inversion Hin].
Qed.

Lemma seenIs_insert seen keys key :
  seenIs seen keys -> seenIs (<[key := true]> seen) (key :: keys).
Proof.
  intros Hs k. unfold seenAt. rewrite elem_of_cons.
  destruct (decide (key = k)) as [<-|Hne].
  - rewrite lookup_insert_eq. simpl. split; auto.
  - rewrite lookup_insert_ne by exact Hne.
    rewrite <- (Hs k). unfold seenAt. split; [auto | intros [?|?]; congruence].
Qed.

Lemma addJobs_spec jobs seen keys allJobs :
  seenIs seen keys ->
  snd (addJobs jobs seen allJobs) = allJobs ++ firstOfEachKey keys jobs /\
  seenIs (fst (addJobs jobs seen allJobs)) (keysAfter keys jobs).
Proof.
  revert seen keys allJobs.
  induction jobs as [|job rest IH]; intros seen keys allJobs Hs; simpl.
  - rewrite app_nil_r. split; [reflexivity | exact Hs].
  - pose proof (Hs (jobKey job)) as Hk.
    unfold keysAfter. simpl.
    destruct (decide (jobKey job ∈ keys)) as [Hin|Hnew].
    + apply Hk in Hin. rewrite Hin. simpl. apply IH, Hs.
    + destruct (seenAt seen (jobKey job)) eqn:Hseen; [tauto|]. simpl.
      destruct (IH _ _ (allJobs ++ [job]) (seenIs_insert _ _ (jobKey job) Hs))
        as [Hout Hseen'].
      split.
      * rewrite Hout, <- app_assoc. reflexivity.
      * unfold keysAfter in Hseen'.
        rewrite <- app_assoc. exact Hseen'.
Qed.

Lemma firstOfEachKey_app keys l1 l2 :
  firstOfEachKey keys (l1 ++ l2)
  = firstOfEachKey keys l1 ++ firstOfEachKey (keysAfter keys l1) l2.
Proof.
  revert keys. induction l1 as [|job l1 IH]; intros keys; simpl; [reflexivity|].
  unfold keysAfter. simpl.
  destruct (decide (jobKey job ∈ keys)) as [Hin|Hnew].
  - apply IH.
  - simpl. rewrite IH. unfold keysAfter. rewrite <- app_assoc. reflexivity.
Qed.

Lemma collectJobs_spec sources seen keys allJobs :
  seenIs seen keys ->
  collectJobs sources seen allJobs
  = allJobs ++ firstOfEachKey keys (fetchedJobs sources).
Proof.
  revert seen keys allJobs.
  induction sources as [|source rest IH]; intros seen keys allJobs Hs; simpl.
  - rewrite app_nil_r. reflexivity.
  - unfold jobsOf. destruct (FetchVersions source) as [jobs|err]; simpl.
    + destruct (addJobs_spec jobs seen keys allJobs Hs) as [Hout Hseen].
      destruct (addJobs jobs seen allJobs) as [seen' allJobs']. simpl in *.
      rewrite (IH _ _ _ Hseen), Hout, firstOfEachKey_app, <- app_assoc.
      reflexivity.
    + apply IH, Hs.
Qed.

Lemma firstOfEachKey_sublist keys jobs : sublist (firstOfEachKey keys jobs) jobs.
Proof.
  revert keys. induction jobs as [|job rest IH]; intros keys; simpl; [constructor|].
  destruct (decide (jobKey job ∈ keys)).
  - apply sublist_cons, IH.
  - apply sublist_skip, IH.
Qed.

Lemma firstOfEachKey_split keys jobs job :
  job ∈ firstOfEachKey keys jobs ->
  (jobKey job ∉ keys) /\
  exists l1 l2, jobs = l1 ++ job :: l2 /\
                forall job', job' ∈ l1 -> jobKey job' <> jobKey job.
Proof.
  revert keys. induction jobs as [|x rest IH]; intros keys; simpl.
  - intros Hin. inversion Hin.
  - destruct (decide (jobKey x ∈ keys)) as [Hseen|Hnew].
    + intros Hin. destruct (IH _ Hin) as (Hfresh & l1 & l2 & -> & Hl1).
      split; [exact Hfresh|]. exists (x :: l1), l2. split; [reflexivity|].
      intros job' [->|Hj]%elem_of_cons; [congruence | auto].
    + intros [->|Hin]%elem_of_cons.
      * split; [exact Hnew|]. exists [], rest. split; [reflexivity|].
        intros job' Hj. inversion Hj.
      * destruct (IH _ Hin) as (Hfresh & l1 & l2 & -> & Hl1).
        rewrite not_elem_of_cons in Hfresh. destruct Hfresh as [Hne Hfresh].
        split; [exact Hfresh|]. exists (x :: l1), l2. split; [reflexivity|].
        intros job' [->|Hj]%elem_of_cons; [congruence | auto].
Qed.

Lemma firstOfEachKey_NoDup keys jobs : NoDup (jobKey <$> firstOfEachKey keys jobs).
Proof.
  revert keys. induction jobs as [|job rest IH]; intros keys; simpl; [constructor|].
  destruct (decide (jobKey job ∈ keys)); [apply IH|].
  simpl. constructor; [|apply IH].
  intros (job' & Hkey & Hin)%list_elem_of_fmap.
  apply firstOfEachKey_split in Hin as [Hfresh _].
  apply Hfresh. rewrite <- Hkey. left.
Qed.

Lemma firstOfEachKey_complete keys jobs job :
  job ∈ jobs -> jobKey job ∉ keys ->
  exists kept, kept ∈ firstOfEachKey keys jobs /\ jobKey kept = jobKey job.
Proof.
  revert keys. induction jobs as [|x rest IH]; intros keys Hin Hfresh; simpl.
  - inversion Hin.
  - apply elem_of_cons in Hin as [->|Hin].
    + destruct (decide (jobKey x ∈ keys)); [contradiction|].
      exists x. split; [left | reflexivity].
    + destruct (decide (jobKey x ∈ keys)) as [Hseen|Hnew]; [apply IH; assumption|].
      destruct (decide (jobKey x = jobKey job)) as [E|Hne].
      * exists x. split; [left | exact E].
      * destruct (IH (jobKey x :: keys) Hin) as (kept & Hk & Ek).
        { rewrite not_elem_of_cons. split; [congruence | exact Hfresh]. }
        exists kept. split; [right; exact Hk | exact Ek].
Qed.

Lemma fetchedJobs_app s1 s2 : fetchedJobs (s1 ++ s2) = fetchedJobs s1 ++ fetchedJobs s2.
Proof. apply flat_map_app. Qed.

(** A job at a place in the list of all fetched jobs sits in the list of
    one source, after everything the earlier sources fetched. *)
Lemma fetchedJobs_split sources l1 job l2 :
  fetchedJobs sources = l1 ++ job :: l2 ->
  exists before source after jobs m1 m2,
    sources = before ++ source :: after /\
    FetchVersions source = Ok jobs /\
    jobs = m1 ++ job :: m2 /\
    l1 = fetchedJobs before ++ m1.
Proof.
  revert l1. induction sources as [|src rest IH]; intros l1; simpl.
  - intros E. destruct l1; discriminate.
  - intros E. apply app_eq_app in E as [l [[E1 E2]|[E1 E2]]].
    + destruct l as [|x l].
      * simpl in E2. rewrite app_nil_r in E1. subst l1.
        destruct (IH [] (eq_sym E2)) as (before & source & after & jobs & m1 & m2 & -> & Hf & -> & Hm).
        exists (src :: before), source, after, (m1 ++ job :: m2), m1, m2.
        repeat split; auto.
        simpl. rewrite <- app_assoc, <- Hm, app_nil_r. reflexivity.
      * simpl in E2. injection E2 as <- _.
        unfold jobsOf in E1. destruct (FetchVersions src) as [jobs|err] eqn:Hf.
        -- exists [], src, rest, jobs, l1, l. repeat split; auto.
        -- destruct l1; discriminate.
    + destruct (IH l E2) as (before & source & after & jobs & m1 & m2 & -> & Hf & -> & ->).
      exists (src :: before), source, after, (m1 ++ job :: m2), m1, m2.
      repeat split; auto.
      simpl. rewrite E1, <- app_assoc. reflexivity.
Qed.

(** The loop, by the key it computes: the collected list holds at most
    one job per key; each job kept is the first of its key in the list of
    its source, which is the earliest source that fetched a job of that
    key; every key fetched is kept; the order of the sources and of their
    jobs is kept; and a source whose fetch failed changes nothing. *)
Theorem collectJobs_first_source_wins (sources : list UpstreamSource) :
  let out := collectJobs sources ∅ [] in
  NoDup (jobKey <$> out) /\
  (forall i j job job',
     out !! i = Some job -> out !! j = Some job' ->
     Version job = Version job' -> Platform job = Platform job' -> i = j) /\
  (forall job, job ∈ out ->
     exists before source after jobs m1 m2,
       sources = before ++ source :: after /\
       FetchVersions source = Ok jobs /\
       jobs = m1 ++ job :: m2 /\
       forall job', job' ∈ fetchedJobs before ++ m1 -> jobKey job' <> jobKey job) /\
  (forall job, job ∈ fetchedJobs sources ->
     exists kept, kept ∈ out /\ jobKey kept = jobKey job) /\
  sublist out (fetchedJobs sources) /\
  (forall before source after err,
     sources = before ++ source :: after ->
     FetchVersions source = Err err ->
     out = collectJobs (before ++ after) ∅ []).
Proof.
  cbv zeta. rewrite (collectJobs_spec sources ∅ [] [] seenIs_empty). simpl.
  split; [apply firstOfEachKey_NoDup|]. split; [|split; [|split; [|split]]].
  - intros i j job job' Hi Hj Hv Hp.
    apply (NoDup_lookup (jobKey <$> firstOfEachKey [] (fetchedJobs sources))
             i j (jobKey job)).
    + apply firstOfEachKey_NoDup.
    + rewrite list_lookup_fmap, Hi. reflexivity.
    + rewrite list_lookup_fmap, Hj. unfold jobKey. rewrite Hv, Hp. reflexivity.
  - intros job Hin.
    apply firstOfEachKey_split in Hin as (_ & l1 & l2 & E & Hl1).
    apply fetchedJobs_split in E
      as (before & source & after & jobs & m1 & m2 & Es & Hf & Ej & ->).
    exists before, source, after, jobs, m1, m2. auto.
  - intros job Hin. apply firstOfEachKey_complete; [exact Hin|].
    intros Hnil. inversion Hnil.
  - apply firstOfEachKey_sublist.
  - intros before source after err -> Hf.
    rewrite (collectJobs_spec (before ++ after) ∅ [] [] seenIs_empty). simpl.
    rewrite !fetchedJobs_app. simpl.
    replace (jobsOf source) with (@nil MirrorJob)
      by (unfold jobsOf; rewrite Hf; reflexivity).
    reflexivity.
Qed.

(** The script's entry point runs that loop over the sources of the
    runtime, and fails only for an unknown runtime. *)
Lemma fetchJobsFromUpstream_collects fetched (runtime : string) :
  match fetchJobsFromUpstream fetched runtime with
  | Ok out =>
      exists sources, getUpstreamSources fetched runtime = Ok sources /\
                      out = collectJobs sources ∅ []
  | Err err =>
      getUpstreamSources fetched runtime = Err err /\
      runtime <> "node" /\ runtime <> "python" /\ runtime <> "ruby"
  end.
Proof.
  unfold fetchJobsFromUpstream, getUpstreamSources.
  destruct (String.eqb_spec runtime "node"); [eauto|].
  destruct (String.eqb_spec runtime "python"); [eauto|].
  destruct (String.eqb_spec runtime "ruby"); [eauto|].
  auto.
Qed.

End MirrorFacts.

(** ** The user PATH installer *)
Module PathFacts.
Import Strings Path.

Lemma ContainsByte_append (a b : string) (c : ascii) :
  ContainsByte (a +:+ b) c = ContainsByte a c || ContainsByte b c.
Proof.
  induction a as [|x a IH]; simpl; [reflexivity|].
  rewrite IH, orb_assoc. reflexivity.
Qed.

Lemma Split_no_sep (s : string) (sep : ascii) :
  ContainsByte s sep = false -> Split s sep = [s].
Proof.
  induction s as [|x s IH]; simpl; [reflexivity|].
  intros [Hx Hs]%orb_false_iff. rewrite Hx, (IH Hs). reflexivity.
Qed.

Lemma Split_append_sep (a b : string) (sep : ascii) :
  ContainsByte a sep = false ->
  Split (a +:+ String sep b) sep = a :: Split b sep.
Proof.
  induction a as [|x a IH]; simpl.
  - intros _. rewrite Ascii.eqb_refl. reflexivity.
  - intros [Hx Ha]%orb_false_iff. rewrite Hx, (IH Ha). reflexivity.
Qed.

Lemma Split_parts_no_sep (s : string) (sep : ascii) :
  List.Forall (fun e => ContainsByte e sep = false) (Split s sep).
Proof.
  induction s as [|x s IH]; simpl; [repeat constructor|].
  destruct (Ascii.eqb x sep) eqn:Hx.
  - constructor; [reflexivity | exact IH].
  - destruct (Split s sep) as [|h t]; [repeat constructor; simpl; rewrite Hx; reflexivity|].
    apply List.Forall_cons_iff in IH as [Hh Ht].
    constructor; [simpl; rewrite Hx, Hh; reflexivity | exact Ht].
Qed.

Lemma Split_Join (l : list string) (sep : ascii) :
  l <> [] ->
  List.Forall (fun e => ContainsByte e sep = false) l ->
  Split (Join l sep) sep = l.
Proof.
  induction l as [|e l IH]; [congruence|]. intros _ Hall.
  apply List.Forall_cons_iff in Hall as [He Hl].
  destruct l as [|e' l]; simpl.
  - apply Split_no_sep, He.
  - rewrite (Split_append_sep _ _ _ He). f_equal. apply IH; [discriminate | exact Hl].
Qed.

(** *** The ASCII instance *)

Lemma asciiEqualFold_refl (s : string) : asciiEqualFold s s = true.
Proof.
  induction s as [|c s IH]; simpl; [reflexivity|].
  rewrite Ascii.eqb_refl, IH. reflexivity.
Qed.

Lemma trimLeft_suffix (s : string) : exists a, s = a +:+ trimLeft s.
Proof.
  induction s as [|c s [a IH]]; simpl.
  - exists EmptyString. reflexivity.
  - destruct (isSpace c).
    + exists (String c a).
      change (String c a +:+ trimLeft s) with (String c (a +:+ trimLeft s)).
      f_equal. exact IH.
    + exists EmptyString. reflexivity.
Qed.

Lemma trimRight_prefix (s : string) : exists b, s = trimRight s +:+ b.
Proof.
  induction s as [|c s [b IH]]; simpl.
  - exists EmptyString. reflexivity.
  - destruct (trimRight s) as [|r rs] eqn:Hr.
    + destruct (isSpace c).
      * exists (String c s). reflexivity.
      * exists s. reflexivity.
    + exists b.
      change (String c (String r rs) +:+ b) with (String c (String r rs +:+ b)).
      f_equal. exact IH.
Qed.

Lemma asciiTrimSpace_sub (s : string) :
  exists a b, s = a +:+ asciiTrimSpace s +:+ b.
Proof.
  unfold asciiTrimSpace.
  destruct (trimLeft_suffix s) as [a Ha].
  destruct (trimRight_prefix (trimLeft s)) as [b Hb].
  exists a, b. rewrite <- Hb. exact Ha.
Qed.

#[export] Instance asciiUnicode : Unicode := {|
  TrimSpace := asciiTrimSpace;
  EqualFold := asciiEqualFold;
  EqualFold_refl := asciiEqualFold_refl;
  TrimSpace_sub := asciiTrimSpace_sub
|}.

Lemma filter_head {A} (f : A -> bool) (x : A) (l : list A) :
  List.filter f (x :: l) = if f x then x :: List.filter f l else List.filter f l.
Proof. reflexivity. Qed.

(** *** The installer, for any [TrimSpace] and [EqualFold] *)
Section Installer.
Context `{Unicode}.

Lemma TrimSpace_no_sep (s : string) (sep : ascii) :
  ContainsByte s sep = false -> ContainsByte (TrimSpace s) sep = false.
Proof.
  destruct (TrimSpace_sub s) as (a & b & E). intros Hs.
  rewrite E, !ContainsByte_append in Hs.
  apply orb_false_iff in Hs as [_ Hs]. apply orb_false_iff in Hs as [Hs _].
  exact Hs.
Qed.

Lemma findShims_range (shimsDir : string) (paths : list string) (i : Z) :
  findShims shimsDir paths i = (-1)%Z \/ (i <= findShims shimsDir paths i)%Z.
Proof.
  revert i. induction paths as [|p rest IH]; intros i; simpl; [auto|].
  destruct (EqualFold (TrimSpace p) shimsDir); [right; lia|].
  destruct (IH (i + 1)%Z); [auto | right; lia].
Qed.

Lemma filterPaths_spec (shimsDir : string) (paths : list string) :
  filterPaths shimsDir paths
  = List.filter (fun e => negb (EqualFold e shimsDir))
      (List.filter (fun e => negb (String.eqb e "")) (map TrimSpace paths)).
Proof.
  induction paths as [|p rest IH]; simpl; [reflexivity|].
  destruct (String.eqb (TrimSpace p) ""); simpl; [exact IH|].
  destruct (EqualFold (TrimSpace p) shimsDir); simpl; [exact IH|].
  rewrite IH. reflexivity.
Qed.

Lemma filterPaths_no_sep (shimsDir p : string) :
  List.Forall (fun e => ContainsByte e ";" = false)
    (filterPaths shimsDir (Split p ";")).
Proof.
  pose proof (Split_parts_no_sep p ";") as Hparts.
  induction Hparts as [|e rest He _ IH]; simpl; [constructor|].
  destruct (String.eqb (TrimSpace e) ""); [exact IH|].
  destruct (EqualFold (TrimSpace e) shimsDir); [exact IH|].
  constructor; [apply TrimSpace_no_sep, He | exact IH].
Qed.

Lemma filterPaths_not_shims (shimsDir : string) (paths : list string) :
  List.filter (fun e => EqualFold e shimsDir) (filterPaths shimsDir paths) = [].
Proof.
  induction paths as [|p rest IH]; simpl; [reflexivity|].
  destruct (String.eqb (TrimSpace p) ""); [exact IH|].
  destruct (EqualFold (TrimSpace p) shimsDir) eqn:Hp; [exact IH|].
  simpl. rewrite Hp. exact IH.
Qed.

Lemma entries_Some (p : string) :
  p <> EmptyString -> entries (Some p) = Split p ";".
Proof.
  intros Hp. unfold entries.
  destruct (String.eqb_spec p ""); [contradiction | reflexivity].
Qed.

Lemma append_not_empty_l (a b : string) : a <> EmptyString -> a +:+ b <> EmptyString.
Proof. destruct a; [congruence | discriminate]. Qed.

(** When the first entry is the shims directory, nothing is written. *)
Lemma addToUserPath_already_first (shimsDir : string) (reg : Registry) first rest :
  entries reg = first :: rest ->
  EqualFold (TrimSpace first) shimsDir = true ->
  checkUserPath shimsDir reg = (false, EmptyString) /\
  fst (addToUserPath shimsDir reg) = reg.
Proof.
  intros Hent Hfirst. unfold addToUserPath.
  assert (Hcheck : checkUserPath shimsDir reg = (false, EmptyString)).
  { unfold checkUserPath, entries in *. destruct reg as [p|]; [|discriminate].
    destruct (String.eqb p ""); [discriminate|].
    rewrite Hent. simpl. rewrite Hfirst. reflexivity. }
  rewrite Hcheck. split; reflexivity.
Qed.

(** Otherwise the value is rewritten. *)
Lemma addToUserPath_rewrites (shimsDir : string) (reg : Registry) :
  shimsDir <> EmptyString ->
  ContainsByte shimsDir ";" = false ->
  match entries reg with
  | first :: _ => EqualFold (TrimSpace first) shimsDir = false
  | [] => True
  end ->
  fst (checkUserPath shimsDir reg) = true /\
  updatedPath shimsDir reg (fst (addToUserPath shimsDir reg)).
Proof.
  intros Hne Hsep Hfirst.
  assert (Hcheck : fst (checkUserPath shimsDir reg) = true).
  { unfold checkUserPath, entries in *. destruct reg as [p|]; [|reflexivity].
    destruct (String.eqb p ""); [reflexivity|].
    destruct (Split p ";") as [|first rest]; [reflexivity|].
    simpl. rewrite Hfirst.
    destruct (findShims_range shimsDir rest (0 + 1)) as [E|E].
    - rewrite E. reflexivity.
    - destruct (Z.eqb_spec (findShims shimsDir rest (0 + 1)) 0); [lia|].
      destruct (0 <? findShims shimsDir rest (0 + 1))%Z; reflexivity. }
  split; [exact Hcheck|].
  unfold addToUserPath.
  destruct (checkUserPath shimsDir reg) as [needsUpdate action].
  simpl in Hcheck. subst needsUpdate. simpl.
  unfold updatedPath, otherEntries.
  assert (Hfiltered :
    (if negb (String.eqb (match reg with Some p => p | None => EmptyString end) "")
     then filterPaths shimsDir
            (Split (match reg with Some p => p | None => EmptyString end) ";")
     else [])
    = filterPaths shimsDir (entries reg)
    /\ List.Forall (fun e => ContainsByte e ";" = false) (filterPaths shimsDir (entries reg))).
  { unfold entries. destruct reg as [p|]; simpl; [|split; [reflexivity | constructor]].
    destruct (String.eqb p ""); simpl; [split; [reflexivity | constructor]|].
    split; [reflexivity | apply filterPaths_no_sep]. }
  destruct Hfiltered as [-> Hnosep].
  rewrite <- filterPaths_spec.
  pose proof (filterPaths_not_shims shimsDir (entries reg)) as Hnot.
  destruct (filterPaths shimsDir (entries reg)) as [|e others] eqn:Hf.
  - rewrite (entries_Some _ Hne), (Split_no_sep _ _ Hsep). simpl.
    rewrite EqualFold_refl. split; reflexivity.
  - rewrite entries_Some by (apply append_not_empty_l, Hne).
    change (";" +:+ Join (e :: others) ";") with (String ";" (Join (e :: others) ";")).
    rewrite (Split_append_sep _ _ _ Hsep).
    rewrite Split_Join by (try discriminate; exact Hnosep).
    split; [reflexivity|].
    rewrite filter_head, EqualFold_refl, Hnot. reflexivity.
Qed.

(** C7 (amended): for a shims directory that is non-empty, trimmed and
    free of [;]: when the first PATH entry is the shims directory (trimmed,
    compared case-insensitively) no update is reported and the PATH is left
    as it is; otherwise an update is reported and the new PATH has the
    shims directory as its first entry, holds it exactly once, and then
    holds the other entries in their order, each trimmed of surrounding
    white space, the empty ones dropped.  Running the installer again
    changes nothing. *)
Theorem addToUserPath_idempotent (shimsDir : string) (reg : Registry) :
  shimsDir <> EmptyString ->
  ContainsByte shimsDir ";" = false ->
  TrimSpace shimsDir = shimsDir ->
  let reg' := fst (addToUserPath shimsDir reg) in
  match entries reg with
  | first :: _ =>
      if EqualFold (TrimSpace first) shimsDir
      then checkUserPath shimsDir reg = (false, EmptyString) /\ reg' = reg
      else fst (checkUserPath shimsDir reg) = true /\ updatedPath shimsDir reg reg'
  | [] => fst (checkUserPath shimsDir reg) = true /\ updatedPath shimsDir reg reg'
  end /\
  checkUserPath shimsDir reg' = (false, EmptyString) /\
  fst (addToUserPath shimsDir reg') = reg'.
Proof.
  intros Hne Hsep Htrim. cbv zeta.
  assert (Hcases :
    (exists first rest, entries reg = first :: rest /\
                        EqualFold (TrimSpace first) shimsDir = true) \/
    match entries reg with
    | first :: _ => EqualFold (TrimSpace first) shimsDir = false
    | [] => True
    end).
  { destruct (entries reg) as [|first rest]; [right; exact I|].
    destruct (EqualFold (TrimSpace first) shimsDir) eqn:E; [left; eauto | right; reflexivity]. }
  destruct Hcases as [(first & rest & Hent & Hfirst)|Hother].
  - destruct (addToUserPath_already_first _ _ _ _ Hent Hfirst) as [Hcheck Hsame].
    rewrite Hent, Hfirst, Hsame. auto.
  - destruct (addToUserPath_rewrites shimsDir reg Hne Hsep Hother) as [Hcheck Hupd].
    assert (Hagain :
      checkUserPath shimsDir (fst (addToUserPath shimsDir reg)) = (false, EmptyString) /\
      fst (addToUserPath shimsDir (fst (addToUserPath shimsDir reg)))
        = fst (addToUserPath shimsDir reg)).
    { destruct Hupd as [Hent _].
      apply (addToUserPath_already_first _ _ _ _ Hent).
      rewrite Htrim. apply EqualFold_refl. }
    split; [|exact Hagain].
    destruct (entries reg) as [|first rest]; [auto|].
    rewrite Hother. auto.
Qed.

End Installer.

(** C7, at an input: an entry written with a space after the [;] and the
    empty entry a closing [;] makes are not kept as they were. *)
Lemma addToUserPath_normalizes_entries :
  fst (addToUserPath "C:\dtvem\shims" (Some "C:\Windows; C:\Tools;"))
    = Some "C:\dtvem\shims;C:\Windows;C:\Tools"
  /\ entries (Some "C:\Windows; C:\Tools;") = ["C:\Windows"; " C:\Tools"; ""]
  /\ entries (Some "C:\dtvem\shims;C:\Windows;C:\Tools")
     = ["C:\dtvem\shims"; "C:\Windows"; "C:\Tools"].
Proof. vm_compute. auto. Qed.

Example addToUserPath_moves :
  addToUserPath "C:\dtvem\shims" (Some "C:\Windows;c:\DTVEM\Shims;C:\Tools")
  = (Some "C:\dtvem\shims;C:\Windows;C:\Tools",
     "Moved C:\dtvem\shims to the beginning of your User PATH").
Proof. vm_compute. reflexivity. Qed.

Example addToUserPath_adds_to_missing_value :
  addToUserPath "C:\dtvem\shims" None
  = (Some "C:\dtvem\shims", "Added C:\dtvem\shims to your User PATH").
Proof. vm_compute. reflexivity. Qed.

Lemma addToUserPath_idempotent_witness :
  "C:\dtvem\shims" <> EmptyString /\
  ContainsByte "C:\dtvem\shims" ";" = false /\
  TrimSpace "C:\dtvem\shims" = "C:\dtvem\shims" /\
  checkUserPath "C:\dtvem\shims"
    (fst (addToUserPath "C:\dtvem\shims" (Some "C:\Windows; C:\Tools;")))
    = (false, EmptyString).
Proof.
  split; [discriminate|]. split; [reflexivity|]. split; [reflexivity|].
  apply (addToUserPath_idempotent "C:\dtvem\shims" (Some "C:\Windows; C:\Tools;"));
    [discriminate | reflexivity | reflexivity].
Defined.

End PathFacts.

(** ** Collecting on concrete sources *)
Module MirrorExamples.
Import Mirror.
Local Open Scope string_scope.

Definition job (runtime version platform url : string) : MirrorJob :=
  {| Runtime := runtime; Version := version; Platform := platform; URL := url;
     UpstreamSHA256 := ""; R2Key := ""; MetaKey := "" |}.

(** The first source fetches 3.12.0 for two platforms, the second one
    fails, the third fetches 3.12.0 for one of them again and 3.13.0. *)
Definition threeSources : list UpstreamSource :=
  [ {| Name := "first";
       FetchVersions := Ok [job "python" "3.12.0" "linux-amd64" "a";
                            job "python" "3.12.0" "darwin-arm64" "b"] |};
    {| Name := "second"; FetchVersions := Err "HTTP 503" |};
    {| Name := "third";
       FetchVersions := Ok [job "python" "3.12.0" "linux-amd64" "c";
                            job "python" "3.13.0" "linux-amd64" "d"] |} ].

Example collectJobs_threeSources :
  collectJobs threeSources ∅ []
  = [job "python" "3.12.0" "linux-amd64" "a";
     job "python" "3.12.0" "darwin-arm64" "b";
     job "python" "3.13.0" "linux-amd64" "d"].
Proof. vm_compute. reflexivity. Qed.

Example fetchJobsFromUpstream_unknown_runtime :
  fetchJobsFromUpstream (fun _ => Ok []) "perl" = Err "unknown runtime: perl".
Proof. vm_compute. reflexivity. Qed.

End MirrorExamples.

(** ** More on the comparison and the resolver *)
Module ResolverMore.
Import Strings Strconv Sort Version StringFacts SortFacts VersionFacts ResolverFacts.

(** X1: the comparison is a consistent order on version strings: swapping
    the arguments negates the result (the subtraction never wraps around),
    a version compares equal to itself, and "not below" is transitive. *)
Theorem compareVersionStrings_consistent (a b c : string) :
  compareVersionStrings b a = (- compareVersionStrings a b)%Z /\
  compareVersionStrings a a = 0%Z /\
  ((0 <= compareVersionStrings a b)%Z -> (0 <= compareVersionStrings b c)%Z ->
   (0 <= compareVersionStrings a c)%Z).
Proof.
  split; [apply compare_antisym|].
  split; [apply compare_zero; reflexivity|].
  intros Hab Hbc.
  pose proof (swo_incomp versionGreater versionGreater_swo c b a) as Hinc.
  unfold versionGreater in Hinc. rewrite !Z.ltb_ge in Hinc.
  rewrite (compare_antisym a c), (compare_antisym b c), (compare_antisym a b) in Hinc.
  lia.
Qed.

Lemma StronglySorted_lookup {A} (R : A -> A -> Prop) (l : list A) i j x y :
  StronglySorted R l -> i < j -> l !! i = Some x -> l !! j = Some y -> R x y.
Proof.
  intros Hs. revert i j. induction Hs as [|a l Hs IH Ha]; intros i j Hij Hi Hj.
  - discriminate.
  - destruct j as [|j]; [lia|]. simpl in Hj.
    destruct i as [|i]; simpl in Hi.
    + injection Hi as <-. rewrite List.Forall_forall in Ha.
      apply Ha. apply list_elem_of_In, list_elem_of_lookup. eauto.
    + apply (IH i j); [lia | assumption | assumption].
Qed.

(** X2: [sortVersionsDesc] rearranges the slice so that no version
    compares above one placed before it, whatever algorithm [sort.Slice]
    runs. *)
Theorem sortVersionsDesc_descending `{Sorter} (versions : list string) :
  Permutation (sortVersionsDesc versions) versions /\
  forall i j x y,
    i < j ->
    sortVersionsDesc versions !! i = Some x ->
    sortVersionsDesc versions !! j = Some y ->
    (0 <= compareVersionStrings x y)%Z.
Proof.
  unfold sortVersionsDesc. split; [apply Slice_perm|].
  intros i j x y Hij Hi Hj.
  pose proof (Slice_sorted versionGreater versions versionGreater_swo) as Hs.
  pose proof (StronglySorted_lookup _ _ i j x y Hs Hij Hi Hj) as Hxy.
  simpl in Hxy. unfold versionGreater in Hxy. apply Z.ltb_ge in Hxy.
  rewrite compare_antisym. lia.
Qed.

(** Iterations past the end of both lists find nothing. *)
Lemma compareFrom_beyond (a b : list Z) (i n : nat) :
  length a <= i -> length b <= i -> compareFrom a b i n = 0%Z.
Proof.
  revert i. induction n as [|n IH]; intros i Ha Hb; simpl; [reflexivity|].
  rewrite !nth_overflow by lia. simpl. apply IH; lia.
Qed.

Lemma compareFrom_more (a b : list Z) (i n k : nat) :
  length a <= i + n -> length b <= i + n ->
  compareFrom a b i (n + k) = compareFrom a b i n.
Proof.
  revert i. induction n as [|n IH]; intros i Ha Hb; simpl.
  - apply compareFrom_beyond; lia.
  - destruct (nth i a 0 =? nth i b 0)%Z; [|reflexivity].
    apply IH; lia.
Qed.

Lemma compareFrom_ext (a a' b : list Z) (i n : nat) :
  (forall j, nth j a 0%Z = nth j a' 0%Z) ->
  compareFrom a b i n = compareFrom a' b i n.
Proof.
  intros E. revert i. induction n as [|n IH]; intros i; simpl; [reflexivity|].
  rewrite E, IH. reflexivity.
Qed.

Lemma TrimPrefix_v_append_dot (a rest : string) :
  TrimPrefix (a +:+ String "." rest) "v" = TrimPrefix a "v" +:+ String "." rest.
Proof.
  rewrite !TrimPrefix_v. destruct a as [|c a]; simpl; [reflexivity|].
  destruct (Ascii.eqb "v" c); reflexivity.
Qed.

Lemma parseVersionParts_dot_zero (a : string) :
  parseVersionParts (a +:+ ".0") = parseVersionParts a ++ [0%Z].
Proof.
  unfold parseVersionParts, FieldsFunc.
  change (a +:+ ".0") with (a +:+ String "." "0").
  rewrite TrimPrefix_v_append_dot, FieldsFunc_scan_sep by reflexivity.
  rewrite omap_app. reflexivity.
Qed.

Lemma compare_dot_zero_l (a b : string) :
  compareVersionStrings (a +:+ ".0") b = compareVersionStrings a b.
Proof.
  unfold compareVersionStrings. rewrite parseVersionParts_dot_zero.
  set (pa := parseVersionParts a). set (pb := parseVersionParts b).
  rewrite (compareFrom_ext (pa ++ [0%Z]) pa).
  - rewrite length_app. simpl.
    replace (Nat.max (length pa + 1) (length pb))
      with (Nat.max (length pa) (length pb)
            + (Nat.max (length pa + 1) (length pb) - Nat.max (length pa) (length pb)))
      by lia.
    apply compareFrom_more; lia.
  - intros j. destruct (Nat.lt_ge_cases j (length pa)) as [Hj|Hj].
    + rewrite app_nth1 by exact Hj. reflexivity.
    + rewrite (nth_overflow pa) by exact Hj.
      destruct (Nat.eq_dec j (length pa)) as [->|Hne].
      * rewrite nth_middle. reflexivity.
      * rewrite nth_overflow; [reflexivity|]. rewrite length_app. simpl. lia.
Qed.

(** X3: a trailing [.0] component and a leading [v] do not change how a
    version compares with any other, on either side. *)
Theorem compareVersionStrings_ignores_v_and_dot_zero (a b : string) :
  compareVersionStrings (a +:+ ".0") b = compareVersionStrings a b /\
  compareVersionStrings b (a +:+ ".0") = compareVersionStrings b a /\
  (startsNot "v" a ->
   compareVersionStrings ("v" +:+ a) b = compareVersionStrings a b /\
   compareVersionStrings b ("v" +:+ a) = compareVersionStrings b a).
Proof.
  split; [apply compare_dot_zero_l|]. split.
  - rewrite (compare_antisym (a +:+ ".0") b), compare_dot_zero_l.
    symmetry. apply compare_antisym.
  - intros Hv.
    assert (E : parseVersionParts ("v" +:+ a) = parseVersionParts a).
    { unfold parseVersionParts. f_equal. f_equal.
      change ("v" +:+ a) with (String "v" a).
      rewrite (TrimPrefix_v (String "v" a)), (TrimPrefix_v a), Ascii.eqb_refl.
      destruct a as [|c a]; [reflexivity|]. simpl in Hv.
      destruct (Ascii.eqb_spec "v" c) as [<-|_]; [congruence | reflexivity]. }
    unfold compareVersionStrings. rewrite E. split; reflexivity.
Qed.

Lemma filter_Permutation {A} (f : A -> bool) (l l' : list A) :
  Permutation l l' -> Permutation (List.filter f l) (List.filter f l').
Proof.
  induction 1 as [|x l l' _ IH|x y l|l l' l'' _ IH1 _ IH2]; simpl.
  - constructor.
  - destruct (f x); [constructor|]; exact IH.
  - destruct (f x), (f y); try reflexivity. apply perm_swap.
  - etransitivity; eassumption.
Qed.

(** X4: the version resolved does not depend on the order of the
    candidates nor on the algorithm behind [sort.Slice]: two runs on
    rearranged lists, even with two sorters, both fail with the same error
    or return versions that compare equal. *)
Theorem ResolvePartialVersion_order_independent
    (s1 s2 : Sorter) (input : string) (available available' : list string) :
  Permutation available available' ->
  match @ResolvePartialVersion s1 input available,
        @ResolvePartialVersion s2 input available' with
  | Ok best, Ok best' => compareVersionStrings best best' = 0%Z
  | Err e, Err e' => e = e'
  | _, _ => False
  end.
Proof.
  intros P.
  destruct (IsPartialVersion input) eqn:Hp.
  - rewrite (@Resolve_unfold_partial s1 _ _ Hp), (@Resolve_unfold_partial s2 _ _ Hp).
    set (f := fun v => matchesPartial v (Split (TrimPrefix input "v") ".")).
    pose proof (filter_Permutation f _ _ P) as Pf.
    unfold sortVersionsDesc.
    destruct (@Slice s1 versionGreater (List.filter f available)) as [|b1 r1] eqn:E1;
      destruct (@Slice s2 versionGreater (List.filter f available')) as [|b2 r2] eqn:E2.
    + reflexivity.
    + pose proof (@Slice_perm s1 versionGreater (List.filter f available)) as P1.
      pose proof (@Slice_perm s2 versionGreater (List.filter f available')) as P2.
      rewrite E1 in P1. rewrite E2 in P2.
      apply Permutation_nil in P1. rewrite P1 in Pf.
      apply Permutation_nil in Pf. rewrite Pf in P2.
      apply Permutation_sym, Permutation_nil in P2. discriminate.
    + pose proof (@Slice_perm s1 versionGreater (List.filter f available)) as P1.
      pose proof (@Slice_perm s2 versionGreater (List.filter f available')) as P2.
      rewrite E1 in P1. rewrite E2 in P2.
      apply Permutation_nil in P2. rewrite P2 in Pf.
      apply Permutation_sym, Permutation_nil in Pf. rewrite Pf in P1.
      apply Permutation_sym, Permutation_nil in P1. discriminate.
    + destruct (@Slice_head_max s1 _ _ _ _ versionGreater_swo E1) as [In1 Max1].
      destruct (@Slice_head_max s2 _ _ _ _ versionGreater_swo E2) as [In2 Max2].
      assert (H12 : versionGreater b2 b1 = false).
      { apply Max1. eapply Permutation_in; [symmetry; exact Pf | exact In2]. }
      assert (H21 : versionGreater b1 b2 = false).
      { apply Max2. eapply Permutation_in; [exact Pf | exact In1]. }
      unfold versionGreater in H12, H21. apply Z.ltb_ge in H12, H21.
      rewrite (compare_antisym b1 b2) in H12. lia.
  - unfold IsPartialVersion in Hp. apply Nat.ltb_ge in Hp.
    unfold ResolvePartialVersion.
    destruct (Nat.leb_spec 3 (length (Split (TrimPrefix input "v") "."))) as [_|Hlt]; [|lia].
    apply compare_zero. reflexivity.
Qed.

Lemma ResolvePartialVersion_order_independent_witness :
  Permutation ["22.1.0"; "v22.1.0"; "21.0.0"] ["v22.1.0"; "21.0.0"; "22.1.0"] /\
  match @ResolvePartialVersion insertionSorter "22" ["22.1.0"; "v22.1.0"; "21.0.0"],
        @ResolvePartialVersion insertionSorter "22" ["v22.1.0"; "21.0.0"; "22.1.0"] with
  | Ok best, Ok best' => compareVersionStrings best best' = 0%Z
  | Err e, Err e' => e = e'
  | _, _ => False
  end.
Proof.
  assert (P : Permutation ["22.1.0"; "v22.1.0"; "21.0.0"] ["v22.1.0"; "21.0.0"; "22.1.0"]).
  { apply (Permutation_cons_app ["v22.1.0"; "21.0.0"] []). reflexivity. }
  split; [exact P|].
  apply (ResolvePartialVersion_order_independent insertionSorter insertionSorter "22" _ _ P).
Defined.

End ResolverMore.

(** ** Coarser and finer partial versions *)
Module ResolverRefine.
Import Strings Strconv Sort Version StringFacts SortFacts VersionFacts ResolverFacts PathFacts.

Lemma TrimPrefix_v_no_sep (s : string) (sep : ascii) :
  ContainsByte s sep = false -> ContainsByte (TrimPrefix s "v") sep = false.
Proof.
  rewrite TrimPrefix_v. destruct s as [|c s]; [auto|].
  destruct (Ascii.eqb "v" c); [|auto].
  simpl. intros [_ Hs]%orb_false_iff. exact Hs.
Qed.

(** A version that matches a partial also matches the partial cut after
    its first component. *)
Lemma matchesPartial_first (version first second : string) :
  matchesPartial version [first; second] = true ->
  matchesPartial version [first] = true.
Proof.
  unfold matchesPartial.
  set (vparts := Split (TrimPrefix version "v") ".").
  destruct (Nat.ltb_spec (length vparts) (length [first; second])) as [|Hlen];
    [discriminate|].
  simpl in Hlen.
  destruct (Nat.ltb_spec (length vparts) (length [first])) as [Hshort|_];
    [simpl in Hshort; lia|].
  cbn [matchesFrom].
  destruct (vparts !! 0) as [vpart|]; [|discriminate].
  destruct (Atoi first) as [n|], (Atoi vpart) as [m|];
    try (destruct (String.eqb first vpart); [reflexivity | discriminate]).
  destruct (n =? m)%Z; [reflexivity | discriminate].
Qed.

Section WithSorter.
Context `{Sorter}.

(** X5: when [major.minor] resolves to a version, [major] alone resolves
    too, and to a version that does not compare below it. *)
Theorem ResolvePartialVersion_coarser_not_lower
    (major minor : string) (available : list string) (finer : string) :
  ContainsByte major "." = false ->
  ContainsByte minor "." = false ->
  ResolvePartialVersion (major +:+ "." +:+ minor) available = Ok finer ->
  exists coarser,
    ResolvePartialVersion major available = Ok coarser /\
    (0 <= compareVersionStrings coarser finer)%Z.
Proof.
  intros Hmajor Hminor.
  pose proof (TrimPrefix_v_no_sep major "." Hmajor) as Htm.
  assert (Hparts2 : Split (TrimPrefix (major +:+ "." +:+ minor) "v") "."
                    = [TrimPrefix major "v"; minor]).
  { change ("." +:+ minor) with (String "." minor).
    rewrite ResolverMore.TrimPrefix_v_append_dot.
    rewrite (Split_append_sep _ _ _ Htm), (Split_no_sep _ _ Hminor). reflexivity. }
  assert (Hparts1 : Split (TrimPrefix major "v") "." = [TrimPrefix major "v"])
    by (apply Split_no_sep, Htm).
  assert (Hp2 : IsPartialVersion (major +:+ "." +:+ minor) = true)
    by (unfold IsPartialVersion; rewrite Hparts2; reflexivity).
  assert (Hp1 : IsPartialVersion major = true)
    by (unfold IsPartialVersion; rewrite Hparts1; reflexivity).
  rewrite (Resolve_unfold_partial _ _ Hp2), (Resolve_unfold_partial _ _ Hp1).
  rewrite Hparts2, Hparts1. unfold sortVersionsDesc.
  set (m2 := List.filter (fun v => matchesPartial v [TrimPrefix major "v"; minor]) available).
  set (m1 := List.filter (fun v => matchesPartial v [TrimPrefix major "v"]) available).
  destruct (Slice versionGreater m2) as [|b2 r2] eqn:E2; [discriminate|].
  intros [= <-].
  destruct (Slice_head_max _ _ _ _ versionGreater_swo E2) as [In2 _].
  assert (In1 : In b2 m1).
  { unfold m1, m2 in *. rewrite List.filter_In in *.
    destruct In2 as [Hin Hm]. split; [exact Hin|].
    eapply matchesPartial_first, Hm. }
  destruct (Slice versionGreater m1) as [|b1 r1] eqn:E1.
  - pose proof (Slice_perm versionGreater m1) as P1. rewrite E1 in P1.
    apply Permutation_nil in P1. rewrite P1 in In1. destruct In1.
  - exists b1. split; [reflexivity|].
    destruct (Slice_head_max _ _ _ _ versionGreater_swo E1) as [_ Max1].
    specialize (Max1 b2 In1). unfold versionGreater in Max1.
    apply Z.ltb_ge in Max1. rewrite compare_antisym. lia.
Qed.

End WithSorter.

Lemma ResolvePartialVersion_coarser_not_lower_witness :
  ContainsByte "14" "." = false /\
  ContainsByte "20" "." = false /\
  ResolvePartialVersion ("14" +:+ "." +:+ "20")
    ["14.21.0"; "14.21.3"; "14.20.0"; "14.20.1"] = Ok "14.20.1" /\
  exists coarser,
    ResolvePartialVersion "14" ["14.21.0"; "14.21.3"; "14.20.0"; "14.20.1"] = Ok coarser /\
    (0 <= compareVersionStrings coarser "14.20.1")%Z.
Proof.
  split; [reflexivity|]. split; [reflexivity|]. split; [reflexivity|].
  apply (ResolvePartialVersion_coarser_not_lower "14" "20"); reflexivity.
Defined.

End ResolverRefine.

(** ** More on retrying a request *)
Module RetryMore.
Import Mirror RetryNotions RetryFacts.

Section Retry.
Variable network : string -> nat -> GetResult.

Lemma retryLoop_closed (fuel : nat) (url : string) (maxRetries attempt : Z)
    (lastErr : option error) (w : World) resp err w' :
  retryLoop network fuel url maxRetries attempt lastErr w = Some ((resp, err), w') ->
  requests w <= requests w' /\
  closed w' = closed w ++
              List.filter (fun k => serverError (network url k))
                (seq (S (requests w)) (requests w' - requests w)) /\
  match resp with
  | Some code =>
      requests w < requests w' /\ network url (requests w') = Response code /\
      (code < 500)%Z
  | None => True
  end.
Proof.
  revert attempt lastErr w.
  induction fuel as [|fuel IH]; intros attempt lastErr w; cbn [retryLoop].
  - destruct (attempt <=? maxRetries)%Z; [discriminate|].
    intros [= <- <- <-]. rewrite Nat.sub_diag. simpl. rewrite app_nil_r. auto.
  - destruct (attempt <=? maxRetries)%Z; cycle 1.
    { intros [= <- <- <-]. rewrite Nat.sub_diag. simpl. rewrite app_nil_r. auto. }
    unfold httpClient_Get.
    destruct (network url (S (requests w))) as [e|code] eqn:Hnet.
    + intros Hrun. apply IH in Hrun as (Hle & Hcl & Hres).
      assert (Hreq : forall b : bool,
                requests (if b then Sleep (backoff attempt)
                            {| requests := S (requests w); slept := slept w; closed := closed w |}
                          else {| requests := S (requests w); slept := slept w; closed := closed w |})
                = S (requests w)) by (intros []; reflexivity).
      assert (Hclo : forall b : bool,
                closed (if b then Sleep (backoff attempt)
                          {| requests := S (requests w); slept := slept w; closed := closed w |}
                        else {| requests := S (requests w); slept := slept w; closed := closed w |})
                = closed w) by (intros []; reflexivity).
      rewrite Hreq in *. rewrite Hclo in Hcl.
      split; [lia|]. split.
      * rewrite Hcl. f_equal.
        replace (requests w' - requests w) with (S (requests w' - S (requests w))) by lia.
        cbn [seq List.filter]. rewrite Hnet. reflexivity.
      * destruct resp; [|exact I]. destruct Hres as (? & ? & ?). repeat split; auto; lia.
    + destruct (Z.leb_spec 500 code) as [Hsrv|Hok].
      * intros Hrun. apply IH in Hrun as (Hle & Hcl & Hres).
        assert (Hreq : forall b : bool,
                  requests (if b then Sleep (backoff attempt)
                              (Body_Close {| requests := S (requests w); slept := slept w;
                                             closed := closed w |})
                            else Body_Close {| requests := S (requests w); slept := slept w;
                                               closed := closed w |})
                  = S (requests w)) by (intros []; reflexivity).
        assert (Hclo : forall b : bool,
                  closed (if b then Sleep (backoff attempt)
                            (Body_Close {| requests := S (requests w); slept := slept w;
                                           closed := closed w |})
                          else Body_Close {| requests := S (requests w); slept := slept w;
                                             closed := closed w |})
                  = closed w ++ [S (requests w)]) by (intros []; reflexivity).
        rewrite Hreq in *. rewrite Hclo in Hcl.
        split; [lia|]. split.
        -- rewrite Hcl, <- app_assoc. f_equal.
           replace (requests w' - requests w) with (S (requests w' - S (requests w))) by lia.
           cbn [seq List.filter]. rewrite Hnet. simpl.
           destruct (Z.leb_spec 500 code); [reflexivity | lia].
        -- destruct resp; [|exact I]. destruct Hres as (? & ? & ?). repeat split; auto; lia.
      * intros [= <- <- <-]. cbn [requests closed].
        replace (S (requests w) - requests w) with 1 by lia.
        cbn [seq List.filter]. rewrite Hnet. simpl.
        destruct (Z.leb_spec 500 code); [lia|]. rewrite app_nil_r.
        repeat split; auto; lia.
Qed.

(** X7: when the function returns, the bodies it closed are exactly those
    of the responses with status 500 or more that it discarded; the body
    of the response it returns is left open for the caller. *)
Theorem httpGetWithRetry_closes_discarded
    (url : string) (maxRetries : Z) (w : World) resp err w' :
  httpGetWithRetry network url maxRetries w = Some ((resp, err), w') ->
  closed w' = closed w ++
              List.filter (fun k => serverError (network url k))
                (seq (S (requests w)) (requests w' - requests w)) /\
  forall code, resp = Some code ->
    network url (requests w') = Response code /\
    ~ In (requests w')
        (List.filter (fun k => serverError (network url k))
           (seq (S (requests w)) (requests w' - requests w))).
Proof.
  unfold httpGetWithRetry. intros Hrun.
  apply retryLoop_closed in Hrun as (Hle & Hcl & Hres).
  split; [exact Hcl|]. intros code ->. destruct Hres as (Hlt & Hnet & Hcode).
  split; [exact Hnet|].
  rewrite List.filter_In, Hnet. simpl. intros [_ Hsrv].
  apply Z.leb_le in Hsrv. lia.
Qed.

Lemma total_app (l1 l2 : list Z) : total (l1 ++ l2) = (total l1 + total l2)%Z.
Proof.
  unfold total. induction l1 as [|x l1 IH]; simpl; [reflexivity|]. rewrite IH. lia.
Qed.

Lemma total_backoffs (k : nat) :
  total (map (fun i => (2 * Second * Z.of_nat i)%Z) (seq 1 k))
  = (Second * Z.of_nat k * (Z.of_nat k + 1))%Z.
Proof.
  induction k as [|k IH]; [reflexivity|].
  rewrite seq_S, map_app, total_app, IH. simpl.
  unfold Second. lia.
Qed.

(** X8: for a retry bound up to 4611686018 the function sleeps, over all
    its retries, [k * (k - 1)] seconds when it made [k] requests, hence at
    most [maxRetries * (maxRetries - 1)] seconds. *)
Theorem httpGetWithRetry_total_backoff (url : string) (maxRetries : Z) (w : World) :
  (0 <= maxRetries <= 4611686018)%Z ->
  exists resp err w' added,
    httpGetWithRetry network url maxRetries w = Some ((resp, err), w') /\
    slept w' = slept w ++ added /\
    total added = (Second * Z.of_nat (requests w' - requests w)
                   * (Z.of_nat (requests w' - requests w) - 1))%Z /\
    (total added <= Second * maxRetries * (maxRetries - 1))%Z.
Proof.
  intros Hn. unfold httpGetWithRetry.
  destruct (retryLoop_spec network (Z.to_nat maxRetries) url maxRetries 1 None w)
    as (resp & err & w' & Hrun & Hle & Hk & _ & Hsl & Hres); [lia | lia | lia |].
  exists resp, err, w',
    (map (fun i => (2 * Second * Z.of_nat i)%Z) (seq 1 (requests w' - requests w - 1))).
  split; [exact Hrun|]. split.
  { rewrite Hsl. f_equal. apply map_ext. intros i. f_equal. lia. }
  rewrite total_backoffs.
  set (k := requests w' - requests w) in *.
  assert (Hk0 : k = 0 \/ 1 <= k) by lia.
  unfold Second. destruct Hk0 as [->|Hk1]; [simpl; nia|].
  replace (Z.of_nat (k - 1)) with (Z.of_nat k - 1)%Z by lia.
  split; [lia | nia].
Qed.

(** X6: for a retry bound up to 4611686018, the function returns a nil
    response together with a nil error exactly when [maxRetries] is zero
    or less, and then it sends nothing. *)
Theorem httpGetWithRetry_nil_nil (url : string) (maxRetries : Z) (w : World) :
  (maxRetries <= 4611686018)%Z ->
  exists resp err w',
    httpGetWithRetry network url maxRetries w = Some ((resp, err), w') /\
    ((resp = None /\ err = None) <-> (maxRetries <= 0)%Z) /\
    ((maxRetries <= 0)%Z -> w' = w).
Proof.
  intros Hn. unfold httpGetWithRetry.
  destruct (Z.le_gt_cases maxRetries 0) as [Hzero|Hpos].
  - exists None, None, w.
    replace (Z.to_nat maxRetries) with 0 by lia. cbn [retryLoop].
    destruct (Z.leb_spec 1 maxRetries); [lia|]. split; [reflexivity|]. tauto.
  - destruct (retryLoop_spec network (Z.to_nat maxRetries) url maxRetries 1 None w)
      as (resp & err & w' & Hrun & Hle & Hk & _ & _ & Hres); [lia | lia | lia |].
    exists resp, err, w'. split; [exact Hrun|]. split; [|lia].
    split; [|lia]. intros [-> ->]. destruct Hres as (Hfull & _ & Herr).
    destruct (requests w' - requests w) eqn:E; [lia | discriminate].
Qed.

End Retry.

Lemma httpGetWithRetry_closes_discarded_witness :
  httpGetWithRetry flakyNetwork "https://example.org" 3 newWorld
  = Some ((Some 200%Z, None),
          {| requests := 3; slept := [2000000000; 4000000000]%Z; closed := [2] |}) /\
  flakyNetwork "https://example.org" 3 = Response 200 /\
  ~ In 3 (List.filter (fun k => serverError (flakyNetwork "https://example.org" k))
            (seq 1 3)).
Proof.
  split; [reflexivity|].
  destruct (httpGetWithRetry_closes_discarded flakyNetwork "https://example.org" 3 newWorld
              (Some 200%Z) None
              {| requests := 3; slept := [2000000000; 4000000000]%Z; closed := [2] |}
              eq_refl) as [_ Hopen].
  apply (Hopen 200%Z eq_refl).
Defined.

Lemma httpGetWithRetry_total_backoff_witness :
  (0 <= 3 <= 4611686018)%Z /\
  exists resp err w' added,
    httpGetWithRetry (fun _ _ => Response 503) "https://example.org" 3 newWorld
      = Some ((resp, err), w') /\
    slept w' = slept newWorld ++ added /\
    (total added <= Second * 3 * (3 - 1))%Z.
Proof.
  split; [lia|].
  destruct (httpGetWithRetry_total_backoff (fun _ _ => Response 503)
              "https://example.org" 3 newWorld)
    as (resp & err & w' & added & Hrun & Hsl & _ & Hle); [lia|].
  exists resp, err, w', added. auto.
Defined.

Lemma httpGetWithRetry_nil_nil_witness :
  (0 <= 4611686018)%Z /\
  exists resp err w',
    httpGetWithRetry flakyNetwork "https://example.org" 0 newWorld
      = Some ((resp, err), w') /\
    ((resp = None /\ err = None) <-> (0 <= 0)%Z).
Proof.
  split; [lia|].
  destruct (httpGetWithRetry_nil_nil flakyNetwork "https://example.org" 0 newWorld)
    as (resp & err & w' & Hrun & Hiff & _); [lia|].
  exists resp, err, w'. auto.
Defined.

End RetryMore.

(** ** More on collecting the mirror jobs *)
Module MirrorMore.
Import Mirror MirrorFacts.

Lemma keysAfter_elem (jobs : list MirrorJob) (key : string) :
  key ∈ keysAfter [] jobs <-> exists kept, kept ∈ firstOfEachKey [] jobs /\ jobKey kept = key.
Proof.
  unfold keysAfter.
  rewrite app_nil_r, list_elem_of_In, <- in_rev, <- list_elem_of_In, list_elem_of_fmap.
  split; intros (kept & H1 & H2); exists kept; auto.
Qed.

(** X10: sources added at the end of the list only append jobs: what the
    earlier sources gave stays as it is, in place, and each job appended
    was fetched by a later source and has a key none of the earlier jobs
    has. *)
Theorem collectJobs_app (sources more : list UpstreamSource) :
  exists added,
    collectJobs (sources ++ more) ∅ [] = collectJobs sources ∅ [] ++ added /\
    sublist added (fetchedJobs more) /\
    forall job kept,
      job ∈ added -> kept ∈ collectJobs sources ∅ [] -> jobKey kept <> jobKey job.
Proof.
  exists (firstOfEachKey (keysAfter [] (fetchedJobs sources)) (fetchedJobs more)).
  rewrite !(collectJobs_spec _ ∅ [] [] seenIs_empty). simpl.
  rewrite fetchedJobs_app, firstOfEachKey_app.
  split; [reflexivity|]. split; [apply firstOfEachKey_sublist|].
  intros job kept Hjob Hkept Hkey.
  apply firstOfEachKey_split in Hjob as [Hfresh _].
  apply Hfresh, keysAfter_elem. exists kept. auto.
Qed.

(** X9: for the runtimes node, python and ruby the script's fetch never
    fails, whatever the sources return; when every source fails it gives
    an empty job list and no error. *)
Theorem fetchJobsFromUpstream_known_runtime
    (fetched : SourceImpl -> result string (list MirrorJob)) (runtime : string) :
  runtime = "node" \/ runtime = "python" \/ runtime = "ruby" ->
  exists jobs,
    fetchJobsFromUpstream fetched runtime = Ok jobs /\
    ((forall s, is_Ok (fetched s) = false) -> jobs = []).
Proof.
  intros Hr. unfold fetchJobsFromUpstream, getUpstreamSources.
  assert (Hfail : forall sources,
            (forall s, is_Ok (fetched s) = false) ->
            collectJobs (map (source fetched) sources) ∅ [] = []).
  { intros sources Hall. induction sources as [|s rest IH]; [reflexivity|].
    simpl. specialize (Hall s). destruct (fetched s); [discriminate | exact IH]. }
  destruct Hr as [-> | [-> | ->]]; simpl; eexists; (split; [reflexivity|]); intros Hall.
  - apply (Hfail [NodeOfficialSource] Hall).
  - apply (Hfail [PythonStandaloneSource; PythonOfficialSource] Hall).
  - apply (Hfail [RubyInstallerSource; RubyBuilderSource] Hall).
Qed.

Lemma fetchJobsFromUpstream_known_runtime_witness :
  ("ruby" = "node" \/ "ruby" = "python" \/ "ruby" = "ruby") /\
  exists jobs,
    fetchJobsFromUpstream (fun _ => Err "HTTP 503") "ruby" = Ok jobs /\
    ((forall s, is_Ok ((fun _ : SourceImpl => @Err string (list MirrorJob) "HTTP 503") s)
                = false) -> jobs = []).
Proof.
  split; [auto|].
  apply (fetchJobsFromUpstream_known_runtime (fun _ => Err "HTTP 503") "ruby"). auto.
Defined.

End MirrorMore.

(** ** More on the default manifest source *)
Module ManifestMore.
Import Manifest ManifestFacts.

Lemma lookup_app_plus {A} (h l : list A) (k : nat) :
  (h ++ l) !! (length h + k) = l !! k.
Proof.
  rewrite lookup_app_r by lia. f_equal. lia.
Qed.

(** What [chainOf] does with the object found at a pointer. *)
Definition chainOf_object (fuel : nat) (h : list SourceObj) (o : SourceObj)
  : option Chain :=
  match o with
  | HTTPSource url => Some (Remote url)
  | CachedSource inner dir ttl =>
      match chainOf fuel h inner with
      | Some c => Some (Cached c dir ttl)
      | None => None
      end
  | EmbeddedSource => Some Embedded
  | FallbackSource primary secondary =>
      match chainOf fuel h primary with
      | Some c1 =>
          match chainOf fuel h secondary with
          | Some c2 => Some (Fallback c1 c2)
          | None => None
          end
      | None => None
      end
  end.

Lemma chainOf_step (fuel : nat) (h : list SourceObj) (a : nat) (o : SourceObj) :
  h !! a = Some o -> chainOf (S fuel) h (Some a) = chainOf_object fuel h o.
Proof.
  intros Ha. cbn [chainOf]. simpl. rewrite Ha. simpl.
  destruct o as [url|inner dir ttl| |primary secondary]; simpl; reflexivity.
Qed.

Section DefaultSource.
Variable DefaultRemoteURL : string.
Variable DefaultCacheTTL : Z.
Variable DefaultPaths_Cache : string.
Variable filepath_Join : string -> string -> string.

Abbreviation DefaultSource'' :=
  (DefaultSource DefaultRemoteURL DefaultCacheTTL DefaultPaths_Cache filepath_Join).

(** X11: after [ResetDefaultSource], whatever the process did before, the
    next [DefaultSource] builds a new chain Fallback(Cached(Remote),
    Embedded) behind the objects already there, returns a pointer to it
    that no earlier object has, and memoises it again. *)
Theorem ResetDefaultSource_then_DefaultSource (p : Process) :
  let call := DefaultSource'' (snd (ResetDefaultSource p)) in
  fst call = Some (length (heap p) + 3) /\
  heap (snd call)
    = heap p ++
      [HTTPSource DefaultRemoteURL;
       CachedSource (Some (length (heap p)))
         (filepath_Join DefaultPaths_Cache "manifests") DefaultCacheTTL;
       EmbeddedSource;
       FallbackSource (Some (length (heap p) + 1)) (Some (length (heap p) + 2))] /\
  chainOf 3 (heap (snd call)) (fst call)
    = Some (Fallback
              (Cached (Remote DefaultRemoteURL)
                      (filepath_Join DefaultPaths_Cache "manifests")
                      DefaultCacheTTL)
              Embedded) /\
  DefaultSource'' (snd call) = (fst call, snd call).
Proof.
  cbv zeta.
  assert (Hcall : DefaultSource'' (snd (ResetDefaultSource p))
    = (Some (length (heap p) + 3),
       {| heap := heap p ++
            [HTTPSource DefaultRemoteURL;
             CachedSource (Some (length (heap p)))
               (filepath_Join DefaultPaths_Cache "manifests") DefaultCacheTTL;
             EmbeddedSource;
             FallbackSource (Some (length (heap p) + 1)) (Some (length (heap p) + 2))];
          defaultSource := Some (length (heap p) + 3);
          defaultSourceOnce := true |})).
  { unfold DefaultSource, ResetDefaultSource, bind, defaultSourceOnce_Do,
      createDefaultSource, setDefaultSource, NewHTTPSource, NewCachedSource,
      NewEmbeddedSource, NewFallbackSource, new, bind. simpl.
    rewrite !length_app. simpl. rewrite <- !app_assoc. simpl.
    replace (length (heap p) + 1 + 1 + 1) with (length (heap p) + 3) by lia.
    replace (length (heap p) + 1 + 1) with (length (heap p) + 2) by lia.
    reflexivity. }
  split; [rewrite Hcall; reflexivity|].
  split; [rewrite Hcall; reflexivity|].
  split; [|apply DefaultSource_again].
  rewrite Hcall. cbn [fst snd heap].
  set (h := heap p ++ _).
  assert (H0 : h !! length (heap p) = Some (HTTPSource DefaultRemoteURL)).
  { unfold h.
    match goal with
    | |- (?a ++ ?l) !! _ = _ => pose proof (lookup_app_plus a l 0) as E
    end.
    rewrite Nat.add_0_r in E. exact E. }
  assert (H1 : h !! (length (heap p) + 1)
               = Some (CachedSource (Some (length (heap p)))
                         (filepath_Join DefaultPaths_Cache "manifests") DefaultCacheTTL)).
  { unfold h. rewrite lookup_app_plus. reflexivity. }
  assert (H2 : h !! (length (heap p) + 2) = Some EmbeddedSource).
  { unfold h. rewrite lookup_app_plus. reflexivity. }
  assert (H3 : h !! (length (heap p) + 3)
               = Some (FallbackSource (Some (length (heap p) + 1))
                         (Some (length (heap p) + 2)))).
  { unfold h. rewrite lookup_app_plus. reflexivity. }
  rewrite (chainOf_step 2 h _ _ H3). cbn [chainOf_object].
  rewrite (chainOf_step 1 h _ _ H1). cbn [chainOf_object].
  rewrite (chainOf_step 0 h _ _ H0). cbn [chainOf_object].
  rewrite (chainOf_step 1 h _ _ H2). reflexivity.
Qed.

End DefaultSource.

End ManifestMore.

(** ** The nodejs.org source *)
Module NodeFacts.
Import Node.

Ltac split_file f :=
  destruct (String.eqb_spec f "linux-x64");
  [|destruct (String.eqb_spec f "linux-arm64");
    [|destruct (String.eqb_spec f "linux-armv7l");
      [|destruct (String.eqb_spec f "darwin-x64");
        [|destruct (String.eqb_spec f "darwin-arm64");
          [|destruct (String.eqb_spec f "win-x64-zip");
            [|destruct (String.eqb_spec f "win-arm64-zip");
              [|destruct (String.eqb_spec f "win-x86-zip")]]]]]]].

(** X12: the two tables of the source agree: a file type has a platform
    exactly when it has an archive name, and then the archive is named
    [node-<version>-<stem><ext>] with the extension the platform table
    gives and the stem the file type names. *)
Theorem getArchiveName_agrees_with_platform (version file : string) :
  (fst (mapFileToPlatform file) = EmptyString <-> getArchiveName version file = EmptyString) /\
  (fst (mapFileToPlatform file) <> EmptyString ->
   exists stem,
     getArchiveName version file
       = "node-" +:+ version +:+ "-" +:+ stem +:+ snd (mapFileToPlatform file) /\
     (file = stem \/ file = stem +:+ "-zip")).
Proof.
  unfold mapFileToPlatform, getArchiveName.
  split_file file; subst; cbn [fst snd].
  1-8: split; [split; [discriminate | intros E; destruct version; discriminate]|];
       intros _.
  - exists "linux-x64". auto.
  - exists "linux-arm64". auto.
  - exists "linux-armv7l". auto.
  - exists "darwin-x64". auto.
  - exists "darwin-arm64". auto.
  - exists "win-x64". auto.
  - exists "win-arm64". auto.
  - exists "win-x86". auto.
  - split; [split; reflexivity | congruence].
Qed.

(** Two file types with the same platform are the same file type. *)
Lemma mapFileToPlatform_injective (f1 f2 : string) :
  fst (mapFileToPlatform f1) <> EmptyString ->
  fst (mapFileToPlatform f1) = fst (mapFileToPlatform f2) ->
  f1 = f2.
Proof.
  unfold mapFileToPlatform.
  split_file f1; subst; simpl; intros Hne;
    try congruence;
    split_file f2; subst; simpl; intros E; try reflexivity; discriminate.
Qed.

Lemma append_inj_l (a b c : string) : a +:+ b = a +:+ c -> b = c.
Proof.
  induction a as [|x a IH]; simpl; [auto|]. intros [= E]. exact (IH E).
Qed.

Lemma fileJob_platform entry shasums file job :
  fileJob entry shasums file = Some job ->
  Mirror.Platform job = fst (mapFileToPlatform file) /\
  fst (mapFileToPlatform file) <> EmptyString /\
  Mirror.Version job = Strings.TrimPrefix (Version entry) "v" /\
  Mirror.Runtime job = "node".
Proof.
  unfold fileJob. destruct (mapFileToPlatform file) as [platform ext]. simpl.
  destruct (String.eqb_spec platform ""); [discriminate|].
  intros [= <-]. simpl. auto.
Qed.

(** X13: an index entry that lists each file type once gives one job per
    platform, all for the entry's version without its [v]; so their
    version/platform keys are distinct. *)
Theorem entryJobs_one_per_platform (entry : nodeIndexEntry)
    (shasums : option (gmap string string)) :
  NoDup (Files entry) ->
  NoDup (Mirror.Platform <$> entryJobs entry shasums) /\
  NoDup (Mirror.jobKey <$> entryJobs entry shasums) /\
  forall job, job ∈ entryJobs entry shasums ->
    Mirror.Version job = Strings.TrimPrefix (Version entry) "v" /\
    Mirror.Runtime job = "node".
Proof.
  unfold entryJobs. intros Hnd.
  assert (Hplat : NoDup (Mirror.Platform <$> omap (fileJob entry shasums) (Files entry))).
  { induction Hnd as [|file files Hnotin Hnd IH]; simpl; [constructor|].
    destruct (fileJob entry shasums file) as [job|] eqn:Hjob; [|exact IH].
    simpl. constructor; [|exact IH].
    intros (job' & Hp & Hin)%list_elem_of_fmap.
    apply list_elem_of_omap in Hin as (file' & Hfile' & Hjob').
    apply fileJob_platform in Hjob as (Hp1 & Hne & _).
    apply fileJob_platform in Hjob' as (Hp2 & _).
    apply Hnotin. rewrite (mapFileToPlatform_injective file file'); [exact Hfile'|exact Hne|].
    congruence. }
  assert (Hall : forall job, job ∈ omap (fileJob entry shasums) (Files entry) ->
            Mirror.Version job = Strings.TrimPrefix (Version entry) "v" /\
            Mirror.Runtime job = "node").
  { intros job (file & _ & Hjob)%list_elem_of_omap.
    apply fileJob_platform in Hjob as (_ & _ & Hv & Hr). auto. }
  split; [exact Hplat|]. split; [|exact Hall].
  apply (NoDup_fmap_1 (fun key : string => key)). rewrite list_fmap_id.
  clear Hnd. revert Hplat Hall.
  induction (omap (fileJob entry shasums) (Files entry)) as [|job jobs IH];
    intros Hplat Hall; simpl; [constructor|].
  simpl in Hplat. apply NoDup_cons in Hplat as [Hnotin Hplat].
  constructor.
  - intros (job' & Hk & Hin)%list_elem_of_fmap. apply Hnotin.
    apply list_elem_of_fmap. exists job'. split; [|exact Hin].
    unfold Mirror.jobKey in Hk.
    destruct (Hall job) as [Hv _]; [left|].
    destruct (Hall job') as [Hv' _]; [right; exact Hin|].
    rewrite Hv, Hv' in Hk.
    apply append_inj_l in Hk. apply (append_inj_l "/") in Hk. exact Hk.
  - apply IH; [exact Hplat|]. intros j Hj. apply Hall. right. exact Hj.
Qed.

Lemma entryJobs_one_per_platform_witness :
  NoDup (Files sampleEntry) /\
  NoDup (Mirror.Platform <$> entryJobs sampleEntry None) /\
  NoDup (Mirror.jobKey <$> entryJobs sampleEntry None) /\
  forall job, job ∈ entryJobs sampleEntry None ->
    Mirror.Version job = Strings.TrimPrefix (Version sampleEntry) "v" /\
    Mirror.Runtime job = "node".
Proof.
  assert (Hnd : NoDup (Files sampleEntry)).
  { apply (bool_decide_unpack _). vm_compute. reflexivity. }
  split; [exact Hnd|].
  exact (entryJobs_one_per_platform sampleEntry None Hnd).
Defined.

End NodeFacts.

(** ** The Ruby build matrix *)
Module RubyGapsFacts.
Import RubyGaps.

(** A loop that appends [f x] for the elements it does not skip. *)
Lemma fold_left_append_filter {A B} (keep : A -> bool) (f : A -> B) (l : list A)
    (acc : list B) :
  fold_left (fun acc x => if keep x then acc ++ [f x] else acc) l acc
  = acc ++ map f (List.filter keep l).
Proof.
  revert acc. induction l as [|x l IH]; intros acc; simpl.
  - rewrite app_nil_r. reflexivity.
  - rewrite IH. destruct (keep x); simpl; [|reflexivity].
    rewrite <- app_assoc. reflexivity.
Qed.

Lemma fold_left_ext {A B} (f g : A -> B -> A) (l : list B) (acc : A) :
  (forall a b, f a b = g a b) -> fold_left f l acc = fold_left g l acc.
Proof.
  intros E. revert acc. induction l as [|x l IH]; intros acc; simpl; [reflexivity|].
  rewrite E. apply IH.
Qed.

Lemma SplitN_no_sep (s : string) (sep : ascii) (n : nat) :
  Strings.ContainsByte s sep = false -> SplitN s sep (S n) = [s].
Proof.
  revert n. induction s as [|c s IH]; intros [|n]; simpl; try reflexivity.
  intros [Hc Hs]%orb_false_iff. rewrite Hc, (IH (S n) Hs). reflexivity.
Qed.

Section WithScanner.
Variable Sscanf_d : string -> Z.

Abbreviation supportsARM64Darwin := (supportsARM64Darwin Sscanf_d).
Abbreviation isAtLeast270 := (isAtLeast270 Sscanf_d).
Abbreviation excluded := (excluded Sscanf_d).
Abbreviation buildMatrixForVersion := (buildMatrixForVersion Sscanf_d).
Abbreviation computeGaps := (computeGaps Sscanf_d).
Abbreviation missing := (missing Sscanf_d).

Lemma inner_loop existingMeta version include :
  fold_left
    (fun include p =>
       if excluded version p then include
       else if negb (metaAt existingMeta (metaKey version p))
       then include ++ [entryFor version p]
       else include)
    allPlatforms include
  = include ++ map (entryFor version) (List.filter (missing existingMeta version) allPlatforms).
Proof.
  rewrite <- fold_left_append_filter. apply fold_left_ext.
  intros inc p. unfold RubyGaps.missing. destruct (excluded version p); simpl; reflexivity.
Qed.

Lemma outer_loop existingMeta versions include :
  fold_left
    (fun include version =>
       fold_left
         (fun include p =>
            if excluded version p then include
            else if negb (metaAt existingMeta (metaKey version p))
            then include ++ [entryFor version p]
            else include)
         allPlatforms include)
    versions include
  = include
    ++ flat_map
         (fun version =>
            map (entryFor version)
              (List.filter (missing existingMeta version) allPlatforms))
         versions.
Proof.
  revert include. induction versions as [|version versions IH]; intros include;
    cbn [fold_left flat_map].
  - rewrite app_nil_r. reflexivity.
  - rewrite inner_loop, IH, <- app_assoc. reflexivity.
Qed.

Lemma computeGaps_flat_map versions existingMeta :
  Include (computeGaps versions existingMeta)
  = flat_map
      (fun version =>
         map (entryFor version) (List.filter (missing existingMeta version) allPlatforms))
      versions.
Proof.
  unfold RubyGaps.computeGaps. cbn [Include]. rewrite outer_loop. reflexivity.
Qed.

Lemma buildMatrixForVersion_filter version :
  Include (buildMatrixForVersion version)
  = map (entryFor version) (List.filter (fun p => negb (excluded version p)) allPlatforms).
Proof.
  unfold RubyGaps.buildMatrixForVersion. cbn [Include].
  rewrite <- (app_nil_l (map _ _)), <- fold_left_append_filter.
  apply fold_left_ext. intros inc p. destruct (excluded version p); reflexivity.
Qed.

(** X14: the gaps are exactly the pairs of a listed version and a platform
    of the table, other than [darwin-arm64] for a version that does not
    support it, whose metadata key is not recorded as present. *)
Theorem computeGaps_sound_complete (versions : list string)
    (existingMeta : gmap string bool) (entry : MatrixEntry) :
  entry ∈ Include (computeGaps versions existingMeta) <->
  exists version p,
    version ∈ versions /\ p ∈ allPlatforms /\
    (Name p = "darwin-arm64" -> supportsARM64Darwin version = true) /\
    existingMeta !! metaKey version p <> Some true /\
    entry = entryFor version p.
Proof.
  rewrite computeGaps_flat_map, list_elem_of_In, in_flat_map.
  assert (Hmiss : forall version p,
    missing existingMeta version p = true <->
    (Name p = "darwin-arm64" -> supportsARM64Darwin version = true) /\
    existingMeta !! metaKey version p <> Some true).
  { intros version p. unfold RubyGaps.missing, RubyGaps.excluded, metaAt.
    rewrite andb_true_iff, !negb_true_iff, andb_false_iff, negb_false_iff.
    destruct (String.eqb_spec (Name p) "darwin-arm64") as [E|E];
      destruct (existingMeta !! metaKey version p) as [[|]|]; simpl;
      split; intros [H1 H2]; (split; [|congruence]); auto; try congruence;
      try (destruct H1 as [H1|H1]; [discriminate|auto]); try (intros; contradiction). }
  split.
  - intros (version & Hv & Hin). apply in_map_iff in Hin as (p & <- & Hp).
    apply filter_In in Hp as [Hp Hm]. apply Hmiss in Hm as [H1 H2].
    exists version, p. rewrite !list_elem_of_In. auto.
  - intros (version & p & Hv & Hp & H1 & H2 & ->).
    exists version. rewrite <- list_elem_of_In. split; [exact Hv|].
    apply in_map, filter_In. rewrite <- list_elem_of_In. split; [exact Hp|].
    apply Hmiss. auto.
Qed.

(** X15: gap detection is the forced matrix of each version in turn,
    without the entries whose metadata is present; against an empty bucket
    the gaps of one version are its forced matrix. *)
Theorem computeGaps_filters_buildMatrixForVersion (versions : list string)
    (existingMeta : gmap string bool) (version : string) :
  Include (computeGaps versions existingMeta)
  = flat_map
      (fun version =>
         List.filter
           (fun entry =>
              negb (metaAt existingMeta
                      ("ruby/" +:+ entry_Version entry +:+ "/" +:+ entry_Platform entry
                       +:+ ".meta.json")))
           (Include (buildMatrixForVersion version)))
      versions /\
  computeGaps [version] ∅ = buildMatrixForVersion version.
Proof.
  assert (Hone : forall m v,
    map (entryFor v) (List.filter (missing m v) allPlatforms)
    = List.filter
        (fun entry =>
           negb (metaAt m
                   ("ruby/" +:+ entry_Version entry +:+ "/" +:+ entry_Platform entry
                    +:+ ".meta.json")))
        (Include (buildMatrixForVersion v))).
  { intros m v. rewrite buildMatrixForVersion_filter.
    induction allPlatforms as [|p ps IH]; [reflexivity|].
    cbn [List.filter]. unfold RubyGaps.missing at 1.
    destruct (excluded v p); cbn [negb andb]; [exact IH|].
    cbn [map List.filter]. cbn [entryFor entry_Version entry_Platform].
    fold (metaKey v p).
    destruct (metaAt m (metaKey v p)); cbn [negb map]; [exact IH|].
    f_equal. exact IH. }
  split.
  - rewrite computeGaps_flat_map. apply flat_map_ext. intros v. apply Hone.
  - assert (E : Include (computeGaps [version] ∅) = Include (buildMatrixForVersion version)).
    { rewrite computeGaps_flat_map, buildMatrixForVersion_filter. cbn [flat_map].
      rewrite app_nil_r. f_equal. apply filter_ext. intros p.
      unfold RubyGaps.missing, metaAt. rewrite lookup_empty. simpl. apply andb_true_r. }
    destruct (computeGaps [version] ∅), (buildMatrixForVersion version).
    cbn [Include] in E. congruence.
Qed.

(** X16: the forced matrix of a version has six entries when the version
    supports [darwin-arm64] and five otherwise, in the order of the table;
    so there are at most six gaps per listed version. *)
Theorem computeGaps_size (versions : list string) (existingMeta : gmap string bool)
    (version : string) :
  entry_Platform <$> Include (buildMatrixForVersion version)
  = (if supportsARM64Darwin version
     then ["linux-amd64"; "linux-arm64"; "darwin-amd64"; "darwin-arm64";
           "windows-amd64"; "windows-386"]
     else ["linux-amd64"; "linux-arm64"; "darwin-amd64";
           "windows-amd64"; "windows-386"]) /\
  (length (Include (computeGaps versions existingMeta)) <= 6 * length versions)%nat.
Proof.
  split.
  - rewrite buildMatrixForVersion_filter. unfold allPlatforms, RubyGaps.excluded.
    cbn [List.filter Name]. destruct (supportsARM64Darwin version); reflexivity.
  - rewrite computeGaps_flat_map.
    induction versions as [|v versions IH]; cbn [flat_map]; [simpl; lia|].
    rewrite length_app, length_map.
    pose proof (filter_length_le (missing existingMeta v) allPlatforms) as Hle.
    change (length allPlatforms) with 6%nat in Hle. rewrite length_cons. lia.
Qed.

(** X17: a version that supports [darwin-arm64] (3.1 and later) passes the
    [>= 2.7.0] filter of the known versions. *)
Theorem supportsARM64Darwin_isAtLeast270 (version : string) :
  supportsARM64Darwin version = true -> isAtLeast270 version = true.
Proof.
  unfold RubyGaps.supportsARM64Darwin, RubyGaps.isAtLeast270.
  destruct (length (SplitN version "." 3) <? 2)%nat; [discriminate|].
  generalize (Sscanf_d (nth 0 (SplitN version "." 3) EmptyString)) as major.
  generalize (Sscanf_d (nth 1 (SplitN version "." 3) EmptyString)) as minor.
  intros minor major.
  destruct (Z.gtb_spec major 3) as [H3|H3].
  - intros _. destruct (Z.gtb_spec major 2); [reflexivity | lia].
  - destruct (Z.eqb_spec major 3) as [->|Hne]; simpl; [|discriminate].
    intros _. reflexivity.
Qed.

(** X19: a version without a dot, whatever its number, is neither taken to
    support [darwin-arm64] nor to be at least 2.7.0: both tests need a major
    and a minor component. *)
Theorem no_minor_component_not_supported (version : string) :
  Strings.ContainsByte version "." = false ->
  supportsARM64Darwin version = false /\ isAtLeast270 version = false.
Proof.
  intros Hdot. unfold RubyGaps.supportsARM64Darwin, RubyGaps.isAtLeast270.
  rewrite (SplitN_no_sep version "." 2 Hdot). split; reflexivity.
Qed.

End WithScanner.

Lemma supportsARM64Darwin_isAtLeast270_witness :
  supportsARM64Darwin sampleScanner "3.2.10" = true /\
  isAtLeast270 sampleScanner "3.2.10" = true.
Proof.
  assert (H : supportsARM64Darwin sampleScanner "3.2.10" = true) by reflexivity.
  split; [exact H|].
  exact (supportsARM64Darwin_isAtLeast270 sampleScanner "3.2.10" H).
Defined.

Lemma no_minor_component_not_supported_witness :
  Strings.ContainsByte "4" "." = false /\
  supportsARM64Darwin sampleScanner "4" = false /\
  isAtLeast270 sampleScanner "4" = false.
Proof.
  assert (H : Strings.ContainsByte "4" "." = false) by reflexivity.
  split; [exact H|].
  exact (no_minor_component_not_supported sampleScanner "4" H).
Defined.

End RubyGapsFacts.

(** ** The known Ruby versions *)
Module KnownVersionsFacts.
Import RubyGaps RubyGapsFacts.

(** The order of Go strings, [String.compare], is a total order. *)
Lemma compare_le_trans (x y z : string) :
  String.compare x y <> Gt -> String.compare y z <> Gt -> String.compare x z <> Gt.
Proof.
  revert y z. induction x as [|a x IH]; intros [|b y] [|c z]; simpl; try congruence.
  unfold Ascii.compare.
  destruct (N.compare_spec (N_of_ascii a) (N_of_ascii b)) as [E1|L1|G1];
    destruct (N.compare_spec (N_of_ascii b) (N_of_ascii c)) as [E2|L2|G2];
    destruct (N.compare_spec (N_of_ascii a) (N_of_ascii c)) as [E3|L3|G3];
    try congruence; try lia.
  apply IH.
Qed.

Lemma compare_refl (x : string) : String.compare x x = Eq.
Proof.
  pose proof (String.compare_antisym x x) as H.
  destruct (String.compare x x); simpl in H; congruence.
Qed.

Lemma ltb_swo : Sort.StrictWeakOrder String.ltb.
Proof.
  assert (Hlt : forall x y, String.ltb x y = true <-> String.compare y x = Gt).
  { intros x y. unfold String.ltb. rewrite (String.compare_antisym y x).
    destruct (String.compare x y); simpl; split; congruence. }
  assert (Hge : forall x y, String.ltb x y = false <-> String.compare y x <> Gt).
  { intros x y. rewrite <- Hlt. destruct (String.ltb x y); split; congruence. }
  split.
  - intros x. unfold String.ltb. rewrite compare_refl. reflexivity.
  - intros x y z Hxy Hyz. apply Hlt. apply Hlt in Hxy, Hyz.
    destruct (String.compare z x) eqn:E; [| |reflexivity]; exfalso.
    + apply String.compare_eq_iff in E. subst z.
      rewrite String.compare_antisym, Hyz in Hxy. discriminate.
    + apply (compare_le_trans z x y); [congruence| |exact Hyz].
      rewrite String.compare_antisym, Hxy. discriminate.
  - intros x y z Hxy Hyz. apply Hge. apply Hge in Hxy, Hyz.
    exact (compare_le_trans z y x Hyz Hxy).
Qed.

(** The keys of the set after the versions of one upstream were added. *)
Lemma versionSet_keys (vs : list string) (set : gmap string bool) (v : string) :
  is_Some (fold_left (fun set v => <[v := true]> set) vs set !! v)
  <-> v ∈ vs \/ is_Some (set !! v).
Proof.
  revert set. induction vs as [|x vs IH]; intros set; simpl.
  - rewrite elem_of_nil. tauto.
  - rewrite IH, elem_of_cons. destruct (decide (v = x)) as [->|Hne].
    + rewrite lookup_insert_eq. split; [intros _; left; left; reflexivity|].
      intros _. right. eexists; reflexivity.
    + rewrite lookup_insert_ne by congruence. tauto.
Qed.

(** Iterating in the order of the map's list of bindings is one of the
    orders Go may take. *)
#[export] Instance bindingsRange : MapRange := {|
  rangeKeys := fun m => (map_to_list m).*1;
  rangeKeys_perm := fun m => Permutation_refl _
|}.

Section WithRuntime.
Variable Sscanf_d : string -> Z.
Context `{MapRange} `{Sort.Sorter}.

Lemma rangeKeys_spec (m : gmap string bool) :
  NoDup (rangeKeys m) /\ forall k, k ∈ rangeKeys m <-> is_Some (m !! k).
Proof.
  split.
  - rewrite rangeKeys_perm. apply NoDup_fst_map_to_list.
  - intros k. rewrite rangeKeys_perm, list_elem_of_fmap. split.
    + intros ([k' b] & -> & Hin). apply elem_of_map_to_list in Hin.
      exists b. exact Hin.
    + intros [b Hb]. exists (k, b). split; [reflexivity|].
      apply elem_of_map_to_list. exact Hb.
Qed.

(** X18: the known versions are, whatever the order in which the set is
    iterated, the versions of the upstreams that answered that have no
    pre-release suffix and are at least 2.7, each once, in strictly
    ascending byte order. *)
Theorem fetchKnownVersions_spec (installerVersions builderVersions : option (list string)) :
  StronglySorted (fun x y => String.ltb x y = true)
    (fetchKnownVersions Sscanf_d installerVersions builderVersions) /\
  NoDup (fetchKnownVersions Sscanf_d installerVersions builderVersions) /\
  forall v, v ∈ fetchKnownVersions Sscanf_d installerVersions builderVersions <->
    (v ∈ default [] installerVersions \/ v ∈ default [] builderVersions) /\
    isPreRelease v = false /\ isAtLeast270 Sscanf_d v = true.
Proof.
  unfold fetchKnownVersions.
  set (versionSet := match builderVersions with
                     | Some vs => fold_left (fun set v => <[v := true]> set) vs _
                     | None => _
                     end).
  set (kept := fold_left _ (rangeKeys versionSet) []).
  assert (Hkept : kept
            = List.filter (fun v => negb (isPreRelease v) && isAtLeast270 Sscanf_d v)
                (rangeKeys versionSet)).
  { unfold kept.
    rewrite <- (map_id (List.filter _ _)), <- (app_nil_l (map _ _)),
      <- fold_left_append_filter.
    apply fold_left_ext. intros acc v.
    destruct (isPreRelease v), (isAtLeast270 Sscanf_d v); reflexivity. }
  assert (Hset : forall v, is_Some (versionSet !! v) <->
            v ∈ default [] installerVersions \/ v ∈ default [] builderVersions).
  { intros v. unfold versionSet.
    destruct installerVersions as [ivs|], builderVersions as [bvs|]; simpl;
      rewrite ?versionSet_keys, ?lookup_empty, ?elem_of_nil;
      pose proof (@is_Some_None bool); tauto. }
  destruct (rangeKeys_spec versionSet) as [Hnd Hin].
  assert (Hnd' : NoDup (Sort.Slice String.ltb kept)).
  { rewrite Sort.Slice_perm, Hkept. apply NoDup_ListNoDup, List.NoDup_filter, NoDup_ListNoDup. exact Hnd. }
  assert (Hmem : forall v, v ∈ Sort.Slice String.ltb kept <->
            (v ∈ default [] installerVersions \/ v ∈ default [] builderVersions) /\
            isPreRelease v = false /\ isAtLeast270 Sscanf_d v = true).
  { intros v. rewrite Sort.Slice_perm, Hkept, list_elem_of_In, filter_In,
      <- list_elem_of_In, Hin, Hset, andb_true_iff, negb_true_iff. tauto. }
  split; [|split; [exact Hnd' | exact Hmem]].
  pose proof (Sort.Slice_sorted String.ltb kept ltb_swo) as Hs.
  clear Hmem. induction Hs as [|x l Hs IH Hall]; [constructor|].
  apply NoDup_cons in Hnd' as [Hx Hl].
  constructor; [exact (IH Hl)|].
  rewrite Forall_forall in Hall |- *. intros y Hy.
  specialize (Hall y Hy). unfold String.ltb in Hall |- *.
  rewrite (String.compare_antisym x y).
  destruct (String.compare y x) eqn:E; simpl; try reflexivity; try discriminate.
  apply String.compare_eq_iff in E. subst y. exfalso. exact (Hx Hy).
Qed.

End WithRuntime.

End KnownVersionsFacts.

(** ** The System PATH, the conflicting runtimes and [AddToPath] *)
Module PathInstallFacts.
Import Strings Path PathFacts PathInstall.

Section Installer.
Context `{Unicode}.
Variable ToLower : string -> string.
Variables ResponseY ResponseYes : string.
Variable ShimsDir : string.
Variable isFile : string -> bool.
Variable filepath_Join : string -> string -> string.
Variable isAdmin : bool.
Variable response : string.

Abbreviation AddToPath' :=
  (AddToPath ToLower ResponseY ResponseYes ShimsDir isFile filepath_Join isAdmin response).
Abbreviation detectSystemRuntimeConflicts' :=
  (detectSystemRuntimeConflicts ShimsDir isFile filepath_Join).

Lemma TrimSpace_empty : TrimSpace EmptyString = EmptyString.
Proof.
  destruct (TrimSpace_sub EmptyString) as (a & b & E).
  destruct a; [|discriminate]. simpl in E.
  destruct (TrimSpace EmptyString); [reflexivity | discriminate].
Qed.

Lemma findShims_existsb (shimsDir : string) (paths : list string) (i : Z) :
  if existsb (isShims shimsDir) paths
  then (i <= findShims shimsDir paths i)%Z
  else findShims shimsDir paths i = (-1)%Z.
Proof.
  revert i. induction paths as [|p rest IH]; intros i; simpl; [reflexivity|].
  unfold isShims at 1. destruct (EqualFold (TrimSpace p) shimsDir); simpl; [lia|].
  specialize (IH (i + 1)%Z). destruct (existsb (isShims shimsDir) rest); [lia | exact IH].
Qed.

(** The three answers of the check, by the entries rather than by index. *)
Lemma check_by_entries (shimsDir : string) (paths : list string) :
  (let foundAt := findShims shimsDir paths 0 in
   if (foundAt =? 0)%Z then (false, EmptyString)
   else if (0 <? foundAt)%Z then (true, pathActionMove)
   else (true, "add"))
  = match paths with
    | [] => (true, "add")
    | first :: rest =>
        if isShims shimsDir first then (false, EmptyString)
        else if existsb (isShims shimsDir) rest then (true, pathActionMove)
        else (true, "add")
    end.
Proof.
  destruct paths as [|first rest]; [reflexivity|]. cbn [findShims]. cbv zeta.
  unfold isShims at 1. destruct (EqualFold (TrimSpace first) shimsDir); [reflexivity|].
  pose proof (findShims_existsb shimsDir rest (0 + 1)%Z) as Hf.
  destruct (existsb (isShims shimsDir) rest).
  - destruct (Z.eqb_spec (findShims shimsDir rest (0 + 1)) 0); [lia|].
    destruct (Z.ltb_spec 0 (findShims shimsDir rest (0 + 1))); [reflexivity | lia].
  - rewrite Hf. reflexivity.
Qed.

(** X20: [checkUserPath] asks for no update when the first entry is the
    shims directory, for a move when a later entry is and the first is not,
    and for an addition when no entry is; [checkSystemPath] answers the same
    over the parts of the value, a missing value read as empty. *)
Theorem checkUserPath_by_entries (shimsDir : string) (reg : Registry) :
  checkUserPath shimsDir reg
  = match entries reg with
    | [] => (true, "add")
    | first :: rest =>
        if isShims shimsDir first then (false, EmptyString)
        else if existsb (isShims shimsDir) rest then (true, pathActionMove)
        else (true, "add")
    end /\
  checkSystemPath shimsDir reg
  = match Split (default EmptyString reg) ";" with
    | [] => (true, "add")
    | first :: rest =>
        if isShims shimsDir first then (false, EmptyString)
        else if existsb (isShims shimsDir) rest then (true, pathActionMove)
        else (true, "add")
    end.
Proof.
  split.
  - unfold checkUserPath, entries. destruct reg as [p|]; [|reflexivity].
    destruct (String.eqb p ""); [reflexivity|]. apply check_by_entries.
  - unfold checkSystemPath. destruct reg as [p|]; apply check_by_entries.
Qed.

(** X21: the System PATH is treated as the User PATH is: the value written
    is the same, and the check answers the same whenever the empty string
    does not count as the shims directory. *)
Theorem system_path_as_user_path (shimsDir action : string) (reg : Registry) :
  EqualFold EmptyString shimsDir = false ->
  checkSystemPath shimsDir reg = checkUserPath shimsDir reg /\
  fst (modifySystemPath shimsDir action reg) = fst (modifyUserPath shimsDir action reg).
Proof.
  intros Hne.
  assert (Hempty : forall i, findShims shimsDir [EmptyString] i = (-1)%Z).
  { intros i. cbn [findShims]. rewrite TrimSpace_empty, Hne. reflexivity. }
  assert (Hfilter : filterPaths shimsDir [EmptyString] = []).
  { cbn [filterPaths]. rewrite TrimSpace_empty. reflexivity. }
  unfold checkSystemPath, checkUserPath, modifySystemPath, modifyUserPath.
  destruct reg as [p|]; cbn [fst].
  - destruct (String.eqb_spec p "") as [->|Hp]; cbn [negb].
    + change (Split "" ";") with [EmptyString]. rewrite Hempty, Hfilter. split; reflexivity.
    + split; reflexivity.
  - change (Split "" ";") with [EmptyString]. rewrite Hempty, Hfilter.
    split; reflexivity.
Qed.

(** The inner loop finds the first kept directory that holds the
    executable. *)
Lemma findRuntime_find (execName displayName : string) (pathDirs : list string) :
  findRuntime ShimsDir isFile filepath_Join execName displayName pathDirs
  = (fun dir => {| Name := displayName;
                   Path := filepath_Join dir (execName +:+ ".exe") |})
    <$> List.find (fun dir => isFile (filepath_Join dir (execName +:+ ".exe")))
          (filterPaths ShimsDir pathDirs).
Proof.
  induction pathDirs as [|dir rest IH]; cbn [findRuntime filterPaths]; [reflexivity|].
  destruct (String.eqb (TrimSpace dir) ""); [exact IH|].
  destruct (EqualFold (TrimSpace dir) ShimsDir); [exact IH|].
  cbn [List.find].
  destruct (isFile (filepath_Join (TrimSpace dir) (execName +:+ ".exe"))); [reflexivity|].
  exact IH.
Qed.

(** X22: the conflicts are, for node, python and ruby in this order, the
    executable in the first System PATH entry that holds it, among the
    entries the installer would keep (trimmed, not empty, not the shims
    directory); a runtime without such an entry gives no conflict. *)
Theorem detectSystemRuntimeConflicts_first_entry (m : Machine) :
  detectSystemRuntimeConflicts' m
  = omap
      (fun '(execName, displayName) =>
         (fun dir => {| Name := displayName;
                        Path := filepath_Join dir (execName +:+ ".exe") |})
         <$> List.find (fun dir => isFile (filepath_Join dir (execName +:+ ".exe")))
               (otherEntries ShimsDir (systemPath m)))
      runtimeChecks.
Proof.
  unfold detectSystemRuntimeConflicts, getSystemPathOnly, otherEntries, entries.
  destruct (systemPath m) as [p|]; [|reflexivity].
  destruct (String.eqb p ""); [reflexivity|].
  rewrite <- filterPaths_spec. unfold runtimeChecks.
  cbn [fold_left omap list_omap]. rewrite !findRuntime_find.
  repeat match goal with
         | |- context [List.find ?f ?l] =>
             destruct (List.find f l); cbn [fmap option_fmap option_map]
         end; reflexivity.
Qed.

(** X23: [AddToPath] writes one value at most: a user install leaves the
    System PATH as it is, a system install the User PATH; and whenever it
    ends otherwise than with a success message (elevation asked for or
    declined, user install cancelled), and in a system install without
    administrator rights, nothing is written. *)
Theorem AddToPath_frame (shimsDir : string) (skipConfirmation : bool) (m : Machine) :
  systemPath (fst (AddToPath' shimsDir skipConfirmation true m)) = systemPath m /\
  userPath (fst (AddToPath' shimsDir skipConfirmation false m)) = userPath m /\
  (forall userInstall,
     match snd (AddToPath' shimsDir skipConfirmation userInstall m) with
     | Message _ => True
     | _ => fst (AddToPath' shimsDir skipConfirmation userInstall m) = m
     end) /\
  (if isAdmin then True
   else fst (AddToPath' shimsDir skipConfirmation false m) = m).
Proof.
  unfold AddToPath, PathInstall.addToUserPath, addToSystemPath.
  repeat split.
  - destruct (_ && _); [reflexivity|].
    destruct (Path.addToUserPath shimsDir (userPath m)); reflexivity.
  - destruct (checkSystemPath shimsDir (systemPath m)) as [[|] action]; cbn [negb];
      [|reflexivity].
    destruct isAdmin; cbn [negb]; [|reflexivity].
    destruct (modifySystemPath shimsDir action (systemPath m)); reflexivity.
  - intros [|].
    + destruct (_ && _); [reflexivity|].
      destruct (Path.addToUserPath shimsDir (userPath m)); exact I.
    + destruct (checkSystemPath shimsDir (systemPath m)) as [[|] action]; cbn [negb];
        [|exact I].
      destruct isAdmin; cbn [negb].
      * destruct (modifySystemPath shimsDir action (systemPath m)); exact I.
      * cbn [fst snd]. destruct (promptForElevation _ _ _ _ _ _ _); auto.
  - destruct isAdmin eqn:Hadmin; [exact I|].
    destruct (checkSystemPath shimsDir (systemPath m)) as [[|] action]; reflexivity.
Qed.

(** X24: with [skipConfirmation] no prompt is read and nothing is
    declined: [AddToPath] ends with a success message or by relaunching
    with elevation, whatever the answer would have been; a user install
    then always goes on to the User PATH, conflicts or not. *)
Theorem AddToPath_skipConfirmation (shimsDir : string) (userInstall : bool) (m : Machine) :
  match snd (AddToPath' shimsDir true userInstall m) with
  | Message _ | Relaunched => True
  | NotModified | Cancelled => False
  end /\
  fst (AddToPath' shimsDir true true m)
  = {| systemPath := systemPath m;
       userPath := fst (Path.addToUserPath shimsDir (userPath m)) |}.
Proof.
  unfold AddToPath, PathInstall.addToUserPath, addToSystemPath, warnAboutSystemConflicts,
    promptForElevation.
  cbn [negb]. rewrite ?andb_false_r. split.
  - destruct userInstall.
    + destruct (Path.addToUserPath shimsDir (userPath m)); exact I.
    + destruct (checkSystemPath shimsDir (systemPath m)) as [[|] action]; cbn [negb];
        [|exact I].
      destruct isAdmin; cbn [negb]; [|exact I].
      destruct (modifySystemPath shimsDir action (systemPath m)); exact I.
  - destruct (Path.addToUserPath shimsDir (userPath m)); reflexivity.
Qed.

(** X25: the two prompts default differently.  On an empty answer the
    elevation prompt goes on and relaunches, while the prompt about
    conflicting runtimes stops the user install. *)
Theorem prompts_default (shimsDir action : string) (conflicts : list RuntimeConflict) :
  ToLower (TrimSpace response) = EmptyString ->
  ResponseY <> EmptyString ->
  ResponseYes <> EmptyString ->
  promptForElevation ToLower ResponseY ResponseYes response shimsDir action false
    = Relaunched /\
  warnAboutSystemConflicts ToLower ResponseY ResponseYes response conflicts false = false.
Proof.
  intros Hr Hy Hyes. unfold promptForElevation, warnAboutSystemConflicts.
  rewrite Hr. cbn [negb String.eqb andb].
  destruct (String.eqb_spec "" ResponseY); [congruence|].
  destruct (String.eqb_spec "" ResponseYes); [congruence|].
  split; reflexivity.
Qed.

End Installer.

Lemma system_path_as_user_path_witness :
  EqualFold EmptyString "C:\dtvem\shims" = false /\
  checkSystemPath "C:\dtvem\shims" None = checkUserPath "C:\dtvem\shims" None /\
  fst (modifySystemPath "C:\dtvem\shims" "add" None)
  = fst (modifyUserPath "C:\dtvem\shims" "add" None).
Proof.
  assert (Hne : EqualFold EmptyString "C:\dtvem\shims" = false) by reflexivity.
  split; [exact Hne|].
  exact (system_path_as_user_path "C:\dtvem\shims" "add" None Hne).
Defined.

Lemma prompts_default_witness :
  (fun s : string => s) (TrimSpace EmptyString) = EmptyString /\
  "y" <> EmptyString /\ "yes" <> EmptyString /\
  promptForElevation (fun s => s) "y" "yes" EmptyString "C:\dtvem\shims" "add" false
    = Relaunched /\
  warnAboutSystemConflicts (fun s => s) "y" "yes" EmptyString [] false = false.
Proof.
  assert (Hr : (fun s : string => s) (TrimSpace EmptyString) = EmptyString) by reflexivity.
  assert (Hy : "y" <> EmptyString) by discriminate.
  assert (Hyes : "yes" <> EmptyString) by discriminate.
  split; [exact Hr|]. split; [exact Hy|]. split; [exact Hyes|].
  exact (prompts_default (fun s => s) "y" "yes" EmptyString
           "C:\dtvem\shims" "add" [] Hr Hy Hyes).
Defined.

End PathInstallFacts.

(** ** The [init] command and the saved settings *)
Module InitFacts.
Import Config ConfigFacts InitCmd.

Section Run.
Variable json_Unmarshal : string -> result string Settings.
Variable json_MarshalIndent : Settings -> result string string.
Variable MkdirAll : option string.
Variable WriteFile : string -> option (string * SettingsFile).
Variable EnsureDirectories_ok : bool.
Variable AddToPath_ok : bool -> bool -> bool.
Variable onWindows : bool.

Abbreviation Run' :=
  (Run json_Unmarshal json_MarshalIndent MkdirAll WriteFile EnsureDirectories_ok
     AddToPath_ok onWindows).
Abbreviation determineInstallType' := (determineInstallType json_Unmarshal).
Abbreviation isSwitching' := (isSwitching json_Unmarshal).
Abbreviation SaveSettings' := (SaveSettings json_MarshalIndent MkdirAll WriteFile).

(** Without the flag the install type is the saved one. *)
Lemma determineInstallType_saved (initUser : bool) (file : SettingsFile) :
  determineInstallType' false initUser file = IsUserInstall json_Unmarshal file.
Proof.
  unfold determineInstallType, IsUserInstall.
  destruct (LoadSettings json_Unmarshal file) as [settings|e]; [|reflexivity].
  destruct (String.eqb (installType settings) InstallTypeUser); reflexivity.
Qed.

(** X26: when the decoder reads back what the encoder writes, settings
    that [SaveSettings] saved without error are what [LoadSettings] then
    loads, as long as their install type is one of the two; any other
    install type is saved as it is and loaded as "system". *)
Theorem SaveSettings_then_LoadSettings (settings : Settings) (file file' : SettingsFile) :
  (forall s data, json_MarshalIndent s = Ok data -> json_Unmarshal data = Ok s) ->
  SaveSettings' settings file = (file', None) ->
  LoadSettings json_Unmarshal file'
  = Ok (if String.eqb (installType settings) InstallTypeSystem
           || String.eqb (installType settings) InstallTypeUser
        then settings
        else {| installType := InstallTypeSystem |}).
Proof.
  intros Hcodec. unfold SaveSettings.
  destruct MkdirAll; [discriminate|].
  destruct (json_MarshalIndent settings) as [data|err] eqn:Hm; [|discriminate].
  destruct (WriteFile data) as [[err f]|]; [discriminate|].
  intros [= <-]. unfold LoadSettings. rewrite (Hcodec _ _ Hm).
  destruct (String.eqb (installType settings) InstallTypeSystem),
    (String.eqb (installType settings) InstallTypeUser); reflexivity.
Qed.

(** X27: [init] keeps its choice: when it ends having saved the settings,
    an [init] without the [--user] flag from then on determines the install
    type this run used, whether that came from the flag or from the file. *)
Theorem Run_persists_install_type (changed initUser initYes initUser' : bool)
    (file file' : SettingsFile) (warned : bool) :
  (forall s data, json_MarshalIndent s = Ok data -> json_Unmarshal data = Ok s) ->
  Run' changed initUser initYes file = (warned, file', Initialized true) ->
  determineInstallType' false initUser' file'
  = determineInstallType' changed initUser file /\
  LoadSettings json_Unmarshal file'
  = Ok {| installType := if determineInstallType' changed initUser file
                         then InstallTypeUser else InstallTypeSystem |}.
Proof.
  intros Hcodec. unfold Run.
  destruct EnsureDirectories_ok; cbn [negb]; [|discriminate].
  destruct (AddToPath_ok initYes _); cbn [negb]; [|discriminate].
  destruct (SaveSettings' _ file) as [f [err|]] eqn:Hsave; [discriminate|].
  intros [= _ <-].
  pose proof (SaveSettings_then_LoadSettings _ _ _ Hcodec Hsave) as Hload.
  cbn [installType] in Hload.
  assert (Hload' : LoadSettings json_Unmarshal f
            = Ok {| installType := if determineInstallType' changed initUser file
                                   then InstallTypeUser else InstallTypeSystem |}).
  { rewrite Hload. destruct (determineInstallType' changed initUser file); reflexivity. }
  split; [|exact Hload'].
  rewrite determineInstallType_saved. unfold IsUserInstall. rewrite Hload'.
  cbn [installType]. destruct (determineInstallType' changed initUser file); reflexivity.
Qed.

(** X28: the switch test holds exactly when the flag was given, the
    settings load, and the install type of the flag differs from the loaded
    one; since a missing file loads as "system", a first [init --user]
    counts as a switch. *)
Theorem isSwitching_flag_differs (changed userInstall : bool) (file : SettingsFile) :
  isSwitching' changed userInstall file
  = changed && is_Ok (LoadSettings json_Unmarshal file)
    && negb (Bool.eqb userInstall (IsUserInstall json_Unmarshal file)) /\
  isSwitching' changed userInstall (Err ErrNotExist) = changed && userInstall.
Proof.
  split.
  - unfold isSwitching, IsUserInstall.
    destruct (LoadSettings json_Unmarshal file) as [settings|e] eqn:Hload;
      cbn [is_Ok]; [|rewrite andb_false_r; reflexivity].
    rewrite andb_true_r. f_equal.
    destruct (LoadSettings_valid json_Unmarshal file settings Hload) as [E|E];
      rewrite E; destruct userInstall; reflexivity.
  - unfold isSwitching. cbn [LoadSettings installType].
    destruct changed, userInstall; reflexivity.
Qed.

(** X29: an [init] that fails before saving (directories or PATH) leaves
    the settings file as it was, and so does a save that fails before
    writing. *)
Theorem Run_failure_keeps_settings (changed initUser initYes : bool) (file : SettingsFile)
    (settings : Settings) :
  match Run' changed initUser initYes file with
  | (_, file', DirectoriesFailed) | (_, file', PathFailed) => file' = file
  | (_, _, Initialized _) => True
  end /\
  (MkdirAll <> None \/ is_Ok (json_MarshalIndent settings) = false ->
   fst (SaveSettings' settings file) = file /\ snd (SaveSettings' settings file) <> None).
Proof.
  split.
  - unfold Run. destruct EnsureDirectories_ok; cbn [negb]; [|reflexivity].
    destruct (AddToPath_ok initYes _); cbn [negb]; [|reflexivity].
    destruct (SaveSettings' _ file) as [f [err|]]; exact I.
  - unfold SaveSettings. intros [Hm|Hj].
    + destruct MkdirAll; [split; [reflexivity | discriminate] | congruence].
    + destruct MkdirAll; [split; [reflexivity | discriminate]|].
      destruct (json_MarshalIndent settings); [discriminate|].
      split; [reflexivity | discriminate].
Qed.

End Run.

Lemma plainEncoder_decodes (s : Settings) (data : string) :
  plainEncoder s = Ok data -> plainDecoder data = Ok s.
Proof.
  unfold plainEncoder, plainDecoder. destruct s as [t]. cbn [installType].
  destruct (String.eqb t "malformed") eqn:E; [discriminate|].
  intros [= <-]. rewrite E. reflexivity.
Qed.

Lemma SaveSettings_then_LoadSettings_witness :
  (forall s data, plainEncoder s = Ok data -> plainDecoder data = Ok s) /\
  SaveSettings plainEncoder None (fun _ => None) {| installType := "user" |}
    (Err ErrNotExist) = (Ok "user", None) /\
  LoadSettings plainDecoder (Ok "user") = Ok {| installType := "user" |}.
Proof.
  assert (Hsave : SaveSettings plainEncoder None (fun _ => None) {| installType := "user" |}
                    (Err ErrNotExist) = (Ok "user", None)) by reflexivity.
  split; [exact plainEncoder_decodes|]. split; [exact Hsave|].
  exact (SaveSettings_then_LoadSettings plainDecoder plainEncoder None (fun _ => None)
           {| installType := "user" |} (Err ErrNotExist) (Ok "user")
           plainEncoder_decodes Hsave).
Defined.

Lemma Run_persists_install_type_witness :
  (forall s data, plainEncoder s = Ok data -> plainDecoder data = Ok s) /\
  Run plainDecoder plainEncoder None (fun _ => None) true (fun _ _ => true) true
    true true false (Err ErrNotExist) = (true, Ok "user", Initialized true) /\
  determineInstallType plainDecoder false false (Ok "user")
  = determineInstallType plainDecoder true true (Err ErrNotExist) /\
  LoadSettings plainDecoder (Ok "user")
  = Ok {| installType := if determineInstallType plainDecoder true true (Err ErrNotExist)
                         then InstallTypeUser else InstallTypeSystem |}.
Proof.
  assert (Hrun : Run plainDecoder plainEncoder None (fun _ => None) true (fun _ _ => true)
                   true true true false (Err ErrNotExist)
                 = (true, Ok "user", Initialized true)) by reflexivity.
  split; [exact plainEncoder_decodes|]. split; [exact Hrun|].
  exact (Run_persists_install_type plainDecoder plainEncoder None (fun _ => None) true
           (fun _ _ => true) true true true false false (Err ErrNotExist) (Ok "user") true
           plainEncoder_decodes Hrun).
Defined.

End InitFacts.

(** ** The [list] command *)
Module CmdListFacts.
Import Cmd CmdList.

Lemma printVersionLine_selected (version globalVersion localVersion : string) :
  version <> EmptyString ->
  fst (printVersionLine version globalVersion localVersion)
  = if String.eqb version (selected globalVersion localVersion)
    then ActiveVersion version else Plain version.
Proof.
  intros Hv. unfold printVersionLine, selected.
  destruct (String.eqb_spec localVersion "") as [->|Hl].
  - destruct (String.eqb_spec version "") as [E|_]; [contradiction|].
    destruct (String.eqb version globalVersion); reflexivity.
  - destruct (String.eqb version localVersion); [reflexivity|].
    rewrite andb_false_r. reflexivity.
Qed.

Lemma printVersions_active (versions : list string) (globalVersion localVersion : string) :
  NoDup versions ->
  EmptyString ∉ versions ->
  activeVersions (printVersions versions globalVersion localVersion)
  = if decide (selected globalVersion localVersion ∈ versions)
    then [selected globalVersion localVersion] else [].
Proof.
  set (active := selected globalVersion localVersion).
  unfold activeVersions, printVersions.
  induction versions as [|v rest IH]; intros Hnd Hempty.
  - destruct (decide (active ∈ [])) as [Hin|_]; [|reflexivity].
    apply elem_of_nil in Hin. contradiction.
  - apply NoDup_cons in Hnd as [Hv Hnd].
    apply not_elem_of_cons in Hempty as [Hne Hempty].
    specialize (IH Hnd Hempty). cbn [map omap list_omap].
    pose proof (printVersionLine_selected v globalVersion localVersion
                  (fun E => Hne (eq_sym E))) as Hline.
    destruct (printVersionLine v globalVersion localVersion) as [shown indicators].
    cbn [fst] in Hline. subst shown. fold active.
    change (list_omap _ _ ?f ?l) with (omap f l). rewrite IH.
    destruct (String.eqb_spec v active) as [E|E].
    + subst v. destruct (decide (active ∈ rest)) as [Hin|_]; [contradiction|].
      destruct (decide (active ∈ active :: rest)) as [_|Hout]; [reflexivity|].
      exfalso. apply Hout. left.
    + destruct (decide (active ∈ rest)) as [Hin|Hout];
        destruct (decide (active ∈ v :: rest)) as [Hin'|Hout']; try reflexivity.
      * exfalso. apply Hout'. right. exact Hin.
      * apply elem_of_cons in Hin' as [E'|Hin']; [congruence | contradiction].
Qed.

Section List.
Variable LocalVersion : string -> string.

(** X30: when the installed versions are distinct and none is the empty
    string, the listing of a runtime shows at most one version as active:
    the local selection when one is set, else the global one, and none when
    that version is not installed (a local selection that is not installed
    leaves the installed global one unmarked). *)
Theorem listSingleRuntime_one_active (runtimeName : string) (provider : Provider)
    (available : string) (versions : list string) :
  ListInstalled provider = Ok versions ->
  NoDup versions ->
  EmptyString ∉ versions ->
  activeVersions (listSingleRuntime LocalVersion runtimeName (Ok provider) available)
  = if decide (selected (GlobalVersion provider) (LocalVersion runtimeName) ∈ versions)
    then [selected (GlobalVersion provider) (LocalVersion runtimeName)]
    else [].
Proof.
  intros Hlist Hnd Hempty. unfold listSingleRuntime. rewrite Hlist.
  destruct versions as [|v rest].
  - destruct (decide (_ ∈ [])) as [Hin|_]; [|reflexivity].
    apply elem_of_nil in Hin. contradiction.
  - change (activeVersions (Header ?h :: ?out)) with (activeVersions out).
    apply printVersions_active; assumption.
Qed.

End List.

Lemma listSingleRuntime_one_active_witness :
  ListInstalled {| Name := "node"; DisplayName := "Node.js";
                   ListInstalled := Ok ["18.0.0"; "22.0.0"];
                   GlobalVersion := "22.0.0" |} = Ok ["18.0.0"; "22.0.0"] /\
  NoDup ["18.0.0"; "22.0.0"] /\
  (EmptyString ∉ ["18.0.0"; "22.0.0"]) /\
  activeVersions
    (listSingleRuntime (fun _ => "20.0.0") "node"
       (Ok {| Name := "node"; DisplayName := "Node.js";
              ListInstalled := Ok ["18.0.0"; "22.0.0"];
              GlobalVersion := "22.0.0" |}) "node, python, ruby")
  = if decide (selected "22.0.0" "20.0.0" ∈ ["18.0.0"; "22.0.0"])
    then [selected "22.0.0" "20.0.0"] else [].
Proof.
  assert (Hnd : NoDup ["18.0.0"; "22.0.0"]).
  { apply (bool_decide_unpack _). vm_compute. reflexivity. }
  assert (Hempty : EmptyString ∉ ["18.0.0"; "22.0.0"]).
  { apply (bool_decide_unpack _). vm_compute. reflexivity. }
  split; [reflexivity|]. split; [exact Hnd|]. split; [exact Hempty|].
  exact (listSingleRuntime_one_active (fun _ => "20.0.0") "node"
           {| Name := "node"; DisplayName := "Node.js";
              ListInstalled := Ok ["18.0.0"; "22.0.0"];
              GlobalVersion := "22.0.0" |} "node, python, ruby"
           ["18.0.0"; "22.0.0"] eq_refl Hnd Hempty).
Defined.

End CmdListFacts.

(** ** Pre-release versions: where the comparison is not semantic *)
Module ResolverDefects.
Import Strings Strconv Sort Version SortFacts VersionFacts ResolverFacts.
Local Open Scope string_scope.

(** C3: against "compares two version strings semantically", a version
    with a pre-release tag is not below its release.  At [22.0.0-rc.1]
    against [22.0.0] the comparison is positive, at [22.0.0-rc1] it is zero,
    and for no release [a] and tag is [a-tag] below [a]; the specification
    has all of these negative. *)
Theorem compareVersionStrings_prerelease_not_below_release (a tag : string) :
  compareVersionStrings "22.0.0-rc.1" "22.0.0" = 1%Z /\
  compareVersionStrings "22.0.0" "22.0.0-rc.1" = (-1)%Z /\
  compareVersionStrings "22.0.0-rc1" "22.0.0" = 0%Z /\
  parseVersionParts "22.0.0-rc.1" = [22; 0; 0; 1]%Z /\
  (0 <= compareVersionStrings (a +:+ "-" +:+ tag) a)%Z.
Proof.
  split; [vm_compute; reflexivity|].
  split; [vm_compute; reflexivity|].
  split; [vm_compute; reflexivity|].
  split; [vm_compute; reflexivity|].
  destruct (compareVersionStrings_by_components a a tag) as (_ & _ & _ & Hge & _).
  exact Hge.
Qed.

Section WithSorter.
Context `{Sorter}.

(** C1: against "sort matches by semantic version (descending) and return
    the highest", for the candidates [22.0.0] and [22.0.0-rc.1], in either
    order and whatever [sort.Slice] does within its contract, the input
    [22] resolves to the release candidate; the specification has it
    resolve to [22.0.0], the maximum under standard version ordering. *)
Theorem ResolvePartialVersion_returns_prerelease :
  ResolvePartialVersion "22" ["22.0.0"; "22.0.0-rc.1"] = Ok "22.0.0-rc.1" /\
  ResolvePartialVersion "22" ["22.0.0-rc.1"; "22.0.0"] = Ok "22.0.0-rc.1" /\
  matchesPartial "22.0.0" (Split "22" ".") = true /\
  matchesPartial "22.0.0-rc.1" (Split "22" ".") = true.
Proof.
  assert (Hnums : Forall2 (fun part n => Atoi part = Some n)
                    (Split (TrimPrefix "22" "v") ".") [22%Z]).
  { repeat constructor. }
  assert (Hrel : leadingEqual [22%Z] "22.0.0").
  { intros [|i] n; [|discriminate]. intros [= <-]. exists "22". split; reflexivity. }
  assert (Hrc : leadingEqual [22%Z] "22.0.0-rc.1").
  { intros [|i] n; [|discriminate]. intros [= <-]. exists "22". split; reflexivity. }
  assert (Hlt : compareVersionStrings "22.0.0" "22.0.0-rc.1" = (-1)%Z) by reflexivity.
  assert (Hpick : forall available,
            (forall v, In v available <-> v = "22.0.0" \/ v = "22.0.0-rc.1") ->
            ResolvePartialVersion "22" available = Ok "22.0.0-rc.1").
  { intros available Hav.
    pose proof (ResolvePartialVersion_picks_greatest "22" available [22%Z] eq_refl Hnums)
      as Hspec.
    destruct (ResolvePartialVersion "22" available) as [best|e].
    - destruct Hspec as (Hin & _ & Hmax). apply Hav in Hin as [->| ->]; [|reflexivity].
      specialize (Hmax "22.0.0-rc.1"). rewrite Hlt in Hmax.
      exfalso. assert (0 <= -1)%Z; [|lia]. apply Hmax; [|exact Hrc].
      apply Hav. right. reflexivity.
    - destruct Hspec as (_ & Hnone). exfalso. apply (Hnone "22.0.0"); [|exact Hrel].
      apply Hav. left. reflexivity. }
  split; [|split; [|split; reflexivity]].
  - apply Hpick. intros v. simpl. intuition congruence.
  - apply Hpick. intros v. simpl. intuition congruence.
Qed.

End WithSorter.

End ResolverDefects.

(** ** [fetchJobsFromUpstream]: the first source wins *)
Module UpstreamFacts.
Import Strings Mirror MirrorNotions MirrorFacts.

(** Jobs of one version and platform have one key. *)
Lemma jobKey_pairOf (a b : MirrorJob) : pairOf a = pairOf b -> jobKey a = jobKey b.
Proof. unfold pairOf, jobKey. intros [= -> ->]. reflexivity. Qed.

(** A key is read in one way only when the versions hold no [/]. *)
Lemma append_sep_inj (v v' p p' : string) (c : ascii) :
  ContainsByte v c = false -> ContainsByte v' c = false ->
  v +:+ String c p = v' +:+ String c p' -> v = v' /\ p = p'.
Proof.
  revert v'. induction v as [|x v IH]; intros [|x' v']; simpl.
  - intros _ _ [= ->]. auto.
  - intros _ [Hx _]%orb_false_iff [= <- _]. rewrite Ascii.eqb_refl in Hx. discriminate.
  - intros [Hx _]%orb_false_iff _ [= -> _]. rewrite Ascii.eqb_refl in Hx. discriminate.
  - intros [_ Hv]%orb_false_iff [_ Hv']%orb_false_iff [= -> E].
    destruct (IH v' Hv Hv' E) as [-> ->]. auto.
Qed.

Lemma pairOf_jobKey (a b : MirrorJob) :
  ContainsByte (Version a) "/" = false -> ContainsByte (Version b) "/" = false ->
  jobKey a = jobKey b -> pairOf a = pairOf b.
Proof.
  unfold pairOf, jobKey. intros Ha Hb E.
  destruct (append_sep_inj _ _ _ _ _ Ha Hb E) as [-> ->]. reflexivity.
Qed.

(** The loop, for every list of sources. *)
Lemma collectJobs_firstSourceWins (sources : list UpstreamSource) :
  firstSourceWins sources (collectJobs sources ∅ []).
Proof.
  destruct (collectJobs_first_source_wins sources)
    as (Hnd & _ & Hfirst & Hcomplete & Hsub & _).
  cbv zeta in Hnd, Hfirst, Hcomplete, Hsub.
  unfold firstSourceWins. repeat split.
  - apply (NoDup_fmap_1 (fun pair : string * string => fst pair +:+ "/" +:+ snd pair)).
    rewrite <- list_fmap_compose. exact Hnd.
  - intros job Hjob.
    destruct (Hfirst job Hjob) as (before & source & after & jobs & m1 & m2 & E1 & E2 & E3 & Hno).
    exists before, source, after, jobs, m1, m2. repeat split; try assumption.
    intros job' Hin Hpair. exact (Hno job' Hin (jobKey_pairOf _ _ Hpair)).
  - exact Hcomplete.
  - intros Hslash job Hjob.
    destruct (Hcomplete job Hjob) as (kept & Hkept & Hkey).
    exists kept. split; [exact Hkept|].
    apply pairOf_jobKey; [|exact (Hslash job Hjob)|exact Hkey].
    apply Hslash. exact (elem_of_sublist _ _ _ Hkept Hsub).
  - exact Hsub.
Qed.

(** The result depends on the sources through the jobs they fetched
    only. *)
Lemma collectJobs_fetchedJobs (sources sources' : list UpstreamSource) :
  fetchedJobs sources = fetchedJobs sources' ->
  collectJobs sources ∅ [] = collectJobs sources' ∅ [].
Proof.
  intros E.
  rewrite (collectJobs_spec sources ∅ [] [] seenIs_empty),
    (collectJobs_spec sources' ∅ [] [] seenIs_empty), E.
  reflexivity.
Qed.

(** What the sources fetched does not change when a failure is read as an
    empty fetch. *)
Lemma fetchedJobs_failuresAsEmpty fetched (impls : list SourceImpl) :
  fetchedJobs (source fetched <$> impls)
  = fetchedJobs (source (failuresAsEmpty fetched) <$> impls).
Proof.
  induction impls as [|s impls IH]; [reflexivity|].
  change (fetchedJobs (source fetched <$> s :: impls))
    with (jobsOf (source fetched s) ++ fetchedJobs (source fetched <$> impls)).
  change (fetchedJobs (source (failuresAsEmpty fetched) <$> s :: impls))
    with (jobsOf (source (failuresAsEmpty fetched) s)
          ++ fetchedJobs (source (failuresAsEmpty fetched) <$> impls)).
  rewrite IH. f_equal.
  unfold jobsOf, source, failuresAsEmpty. simpl. destruct (fetched s); reflexivity.
Qed.

(** C10: for every runtime, whatever its sources return,
    [fetchJobsFromUpstream] fails only when the runtime has no sources
    (it is unknown) and otherwise returns a list in which the first source
    wins: at most one job per version and platform, each the first of that
    version and platform in the earliest source that fetched one, the
    fetched jobs all represented, in the order fetched.  A source that
    fails is skipped: the result is the one of a run in which that source
    fetched nothing.  The loop does so for every list of sources: there a
    failed source can be left out of the list, and what the sources up to
    any point gave stays at the front of the result. *)
Theorem fetchJobsFromUpstream_first_source_wins
    (fetched : SourceImpl -> result string (list MirrorJob)) (runtime : string) :
  match getUpstreamSources fetched runtime with
  | Err err => fetchJobsFromUpstream fetched runtime = Err err
  | Ok sources =>
      exists out,
        fetchJobsFromUpstream fetched runtime = Ok out /\
        firstSourceWins sources out /\
        fetchJobsFromUpstream (failuresAsEmpty fetched) runtime = Ok out
  end /\
  (forall sources : list UpstreamSource,
     firstSourceWins sources (collectJobs sources ∅ []) /\
     (forall before source after err,
        sources = before ++ source :: after ->
        FetchVersions source = Err err ->
        collectJobs sources ∅ [] = collectJobs (before ++ after) ∅ []) /\
     (forall before after,
        sources = before ++ after ->
        exists added,
          collectJobs sources ∅ [] = collectJobs before ∅ [] ++ added)).
Proof.
  split.
  - unfold fetchJobsFromUpstream.
    assert (Hsame : forall impls,
              collectJobs (source fetched <$> impls) ∅ []
              = collectJobs (source (failuresAsEmpty fetched) <$> impls) ∅ []).
    { intros impls. apply collectJobs_fetchedJobs, fetchedJobs_failuresAsEmpty. }
    unfold getUpstreamSources.
    destruct (String.eqb runtime "node").
    { eexists. split; [reflexivity|]. split; [apply collectJobs_firstSourceWins|].
      f_equal. symmetry. exact (Hsame [NodeOfficialSource]). }
    destruct (String.eqb runtime "python").
    { eexists. split; [reflexivity|]. split; [apply collectJobs_firstSourceWins|].
      f_equal. symmetry. exact (Hsame [PythonStandaloneSource; PythonOfficialSource]). }
    destruct (String.eqb runtime "ruby").
    { eexists. split; [reflexivity|]. split; [apply collectJobs_firstSourceWins|].
      f_equal. symmetry. exact (Hsame [RubyInstallerSource; RubyBuilderSource]). }
    reflexivity.
  - intros sources. split; [apply collectJobs_firstSourceWins|]. split.
    + intros before src after err Hsplit Herr.
      destruct (collectJobs_first_source_wins sources) as (_ & _ & _ & _ & _ & Hskip).
      exact (Hskip before src after err Hsplit Herr).
    + intros before after ->.
      rewrite (collectJobs_spec (before ++ after) ∅ [] [] seenIs_empty),
        (collectJobs_spec before ∅ [] [] seenIs_empty).
      rewrite fetchedJobs_app, firstOfEachKey_app. simpl. eexists. reflexivity.
Qed.

(** The python runtime when the first source fails: the jobs are those of
    the second, once each. *)
Example fetchJobsFromUpstream_python_first_fails :
  fetchJobsFromUpstream
    (fun s => match s with
              | PythonOfficialSource =>
                  Ok [MirrorExamples.job "python" "3.12.0" "linux-amd64" "a";
                      MirrorExamples.job "python" "3.12.0" "linux-amd64" "b";
                      MirrorExamples.job "python" "3.13.0" "linux-amd64" "c"]
              | _ => Err "HTTP 503"
              end) "python"
  = Ok [MirrorExamples.job "python" "3.12.0" "linux-amd64" "a";
        MirrorExamples.job "python" "3.13.0" "linux-amd64" "c"].
Proof. vm_compute. reflexivity. Qed.

(** Two jobs of different versions and platforms that read the same as
    [version/platform]: the second is not kept. *)
Example collectJobs_key_read_two_ways :
  collectJobs
    [ {| Name := "first";
         FetchVersions := Ok [MirrorExamples.job "x" "1/2" "linux" "a"] |};
      {| Name := "second";
         FetchVersions := Ok [MirrorExamples.job "x" "1" "2/linux" "b"] |} ] ∅ []
  = [MirrorExamples.job "x" "1/2" "linux" "a"].
Proof. vm_compute. reflexivity. Qed.

End UpstreamFacts.
